(** * ETF portfolio optimizer: selection, weights, holdings and risk analyses

    A shallow embedding of [src/app.py] (classes [PortfolioOptimizer] and
    [PortfolioAnalyzer]) together with the properties its specification
    states about them.

    Conventions of the embedding.
    - Python and NumPy floating-point numbers are exact rationals ([Q]);
      rounding is not modelled.  Comparisons are the boolean ones of [Q].
    - A dictionary with a fixed set of keys is a record; a key read with
      [.get(key, default)] that may be missing is an [option] field.
      Look-up tables written as dictionary literals are [gmap]s.
    - SciPy's [minimize] and the NumPy routines whose results are not
      rational (square roots, random streams, fractional powers) are
      parameters of the development.
    - A Python exception is the [Raises] outcome; a Streamlit message
      ([st.error], [st.warning]) is an entry of a message log returned next
      to the value. *)

From Stdlib Require Import QArith Qabs Qround Lqa Permutation.
From stdpp Require Import base option list strings gmap sorting.

Local Open Scope Q_scope.

(** ** Numbers *)

Definition Qltb (a b : Q) : bool := negb (Qle_bool b a).

(** Python's [sum]: a left fold that starts from 0. *)
Definition Qsum (l : list Q) : Q := fold_left Qplus l 0.

(** Pointwise equality of number lists. *)
Definition Qlist_eqb (a b : list Q) : bool :=
  (length a =? length b)%nat && forallb (fun p => Qeq_bool p.1 p.2) (zip a b).

Definition option_Q_eqb (a b : option Q) : bool :=
  match a, b with
  | Some x, Some y => Qeq_bool x y
  | None, None => true
  | _, _ => false
  end.

(** ** Outcomes and messages *)

Inductive exn : Type :=
| ZeroDivisionError
| IndexError
| ValueError
| FloatNonFinite.
(** [FloatNonFinite] is not a Python exception: it marks a run whose
    NumPy numbers became [inf] or [nan], which no rational stands for. *)

Inductive outcome (A : Type) : Type :=
| Returns (a : A)
| Raises (e : exn).
Arguments Returns {A} a.
Arguments Raises {A} e.

#[global] Instance outcome_ret : MRet outcome := fun A a => Returns a.
#[global] Instance outcome_bind : MBind outcome := fun A B k m =>
  match m with
  | Returns a => k a
  | Raises e => Raises e
  end.

Inductive message : Type :=
| st_error_no_valid_etfs            (* line 327 *)
| st_warning_sharpe                 (* line 593 *)
| st_warning_risk_parity            (* line 628 *)
| st_warning_min_variance           (* line 655 *)
| st_warning_target_return          (* line 691 *)
| st_warning_target_dividend.       (* line 720 *)

Definition is_st_error (m : message) : bool :=
  match m with
  | st_error_no_valid_etfs => true
  | _ => false
  end.

(** ** Sorting

    [list.sort] and [sorted] are stable.  [sort_by ltb key l] orders [l] by
    [key], an element moving behind those whose key is strictly before its
    own in the order [ltb]; [reverse=True] is the same sort with the order
    reversed, which keeps equal keys in their original order as Python
    does. *)

Section Sorting.
Context {A : Type} (ltb : Q -> Q -> bool) (key : A -> Q).

Fixpoint sort_insert (x : A) (l : list A) : list A :=
  match l with
  | [] => [x]
  | y :: ys => if ltb (key y) (key x) then y :: sort_insert x ys else x :: y :: ys
  end.

Definition sort_by (l : list A) : list A := foldr sort_insert [] l.
End Sorting.

Definition sort_ascending {A} (key : A -> Q) := sort_by Qltb key.
Definition sort_descending {A} (key : A -> Q) := sort_by (fun a b => Qltb b a) key.

(** ** Data model *)

(** An entry of the catalogue ([etf_list]).  [ticker] and [name] are read
    with [etf["..."]]; every other key is read with [.get]. *)
Record raw_etf : Type := {
  raw_ticker : string;
  raw_name : string;
  raw_cagr_1y : option Q;
  raw_dividend_yield : option Q;
  raw_expected_dividend_yield : option Q;
  raw_category : option string;
  raw_risk_level : option Q;
  raw_cagr_3y : option Q;
  raw_cagr_5y : option Q;
  raw_volatility : option Q;
  raw_beta : option Q;
  raw_max_drawdown : option Q;
  raw_dividend_quality : option Q;
  raw_dividend_growth : option Q;
  raw_dividend_consistency : option Q
}.

(** A dictionary built by [filter_valid_etfs]; [select_etfs_by_profile]
    copies it with the extra key [profile_score]. *)
Record etf : Type := {
  ticker : string;
  name : string;
  dividend_yield : Q;
  cagr_1y : Q;
  cagr_3y : Q;
  cagr_5y : Q;
  volatility : Q;
  beta : Q;
  max_drawdown : Q;
  risk_level : Q;
  category : string;
  dividend_quality : Q;
  dividend_growth : Q;
  dividend_consistency : Q;
  profile_score : option Q
}.

(** Dictionary equality, as used by [in] and [not in] on lists. *)
Definition etf_eqb (a b : etf) : bool :=
  String.eqb (ticker a) (ticker b) && String.eqb (name a) (name b)
  && Qeq_bool (dividend_yield a) (dividend_yield b)
  && Qeq_bool (cagr_1y a) (cagr_1y b)
  && Qeq_bool (cagr_3y a) (cagr_3y b)
  && Qeq_bool (cagr_5y a) (cagr_5y b)
  && Qeq_bool (volatility a) (volatility b)
  && Qeq_bool (beta a) (beta b)
  && Qeq_bool (max_drawdown a) (max_drawdown b)
  && Qeq_bool (risk_level a) (risk_level b)
  && String.eqb (category a) (category b)
  && Qeq_bool (dividend_quality a) (dividend_quality b)
  && Qeq_bool (dividend_growth a) (dividend_growth b)
  && Qeq_bool (dividend_consistency a) (dividend_consistency b)
  && option_Q_eqb (profile_score a) (profile_score b).

Definition etf_in (e : etf) (l : list etf) : bool := existsb (etf_eqb e) l.

(** The investor profile dictionary; an absent key is [None]. *)
Record profile : Type := {
  risk_tolerance : option string;
  investment_horizon : option string;
  income_needs : option string;
  investment_focus : option string
}.

(** Truth value of the [investor_profile] argument: [None] and the empty
    dictionary are false. *)
Definition profile_truthy (p : option profile) : bool :=
  match p with
  | None => false
  | Some p =>
      bool_decide (is_Some (risk_tolerance p)) || bool_decide (is_Some (investment_horizon p))
      || bool_decide (is_Some (income_needs p)) || bool_decide (is_Some (investment_focus p))
  end.

(** The distinct categories of a list of assets. *)
Definition categories (l : list etf) : gset string := list_to_set (category <$> l).

(** ** PortfolioOptimizer.filter_valid_etfs (lines 368-401) *)

Definition filter_valid_etfs (etf_list : list raw_etf) : list etf :=
  foldr (fun r valid_etfs =>
    if Qle_bool (default 0 (raw_cagr_1y r)) 0 then valid_etfs
    else
      let c1 := default 0 (raw_cagr_1y r) in
      let current_dy := default 0 (raw_dividend_yield r) in
      let expected_dy := default 0 (raw_expected_dividend_yield r) in
      let effective_dy :=
        if Qltb 0 expected_dy && Qltb (expected_dy * 1.5) current_dy
        then expected_dy else current_dy in
      {| ticker := raw_ticker r;
         name := raw_name r;
         dividend_yield := effective_dy;
         cagr_1y := c1;
         cagr_3y := default (c1 * 0.9) (raw_cagr_3y r);
         cagr_5y := default (c1 * 0.8) (raw_cagr_5y r);
         volatility := default 0.15 (raw_volatility r);
         beta := default 1 (raw_beta r);
         max_drawdown := default (-0.2) (raw_max_drawdown r);
         risk_level := default 5 (raw_risk_level r);
         category := default "UNKNOWN"%string (raw_category r);
         dividend_quality := default 0.5 (raw_dividend_quality r);
         dividend_growth := default 0.02 (raw_dividend_growth r);
         dividend_consistency := default 0.5 (raw_dividend_consistency r);
         profile_score := None |} :: valid_etfs)
    [] etf_list.

(** ** PortfolioOptimizer.select_top_etfs (lines 403-463) *)

(** [category_count] is a [defaultdict(int)]. *)
Definition count_of (category_count : gmap string nat) (c : string) : nat :=
  default 0%nat (category_count !! c).

Definition count_incr (category_count : gmap string nat) (c : string) : gmap string nat :=
  <[c := S (count_of category_count c)]> category_count.

(** [(target_value * 12) / seed_money if seed_money > 0 else 0]. *)
Definition target_div_yield (target_value seed_money : Q) : Q :=
  if Qltb 0 seed_money then (target_value * 12) / seed_money else 0.

Definition is_dividend (focus : string) : bool := String.eqb focus "dividend".

(** Lines 411-414: at most three assets of a category. *)
Fixpoint dividend_pass (l : list etf) (category_count : gmap string nat)
    (selected : list etf) : list etf * gmap string nat :=
  match l with
  | [] => (selected, category_count)
  | e :: l' =>
      if (count_of category_count (category e) <? 3)%nat
      then dividend_pass l' (count_incr category_count (category e)) (selected ++ [e])
      else dividend_pass l' category_count selected
  end.

(** Lines 421-426: at most two assets of a category, five in all. *)
Fixpoint growth_pass (l : list etf) (category_count : gmap string nat)
    (selected : list etf) : list etf * gmap string nat :=
  match l with
  | [] => (selected, category_count)
  | e :: l' =>
      if (5 <=? length selected)%nat then (selected, category_count)
      else if (count_of category_count (category e) <? 2)%nat
      then growth_pass l' (count_incr category_count (category e)) (selected ++ [e])
      else growth_pass l' category_count selected
  end.

(** Lines 428-433: the pass that tries to reach three assets. *)
Fixpoint growth_fill (l : list etf) (category_count : gmap string nat)
    (selected : list etf) : list etf * gmap string nat :=
  match l with
  | [] => (selected, category_count)
  | e :: l' =>
      if negb (etf_in e selected) && (count_of category_count (category e) <? 2)%nat
      then
        let selected' := selected ++ [e] in
        let category_count' := count_incr category_count (category e) in
        if (3 <=? length selected')%nat then (selected', category_count')
        else growth_fill l' category_count' selected'
      else growth_fill l' category_count selected
  end.

(** Lines 439-445: the first eight. *)
Fixpoint top_pass (dividend : bool) (l : list etf) (category_count : gmap string nat)
    (top_etfs : list etf) : list etf * gmap string nat :=
  match l with
  | [] => (top_etfs, category_count)
  | e :: l' =>
      if (8 <=? length top_etfs)%nat then (top_etfs, category_count)
      else if dividend && (3 <=? count_of category_count (category e))%nat
      then top_pass dividend l' category_count top_etfs
      else top_pass dividend l' (count_incr category_count (category e)) (top_etfs ++ [e])
  end.

(** Lines 454-461: the assets added when fewer than three were taken.
    [extra_needed] is a natural number here: the loop leaves as soon as it
    is not positive. *)
Fixpoint extra_pass (dividend : bool) (l : list etf) (category_count : gmap string nat)
    (top_etfs : list etf) (extra_needed : nat) : list etf :=
  match l with
  | [] => top_etfs
  | e :: l' =>
      if (8 <=? length top_etfs)%nat
         || (dividend && (3 <=? count_of category_count (category e))%nat)
      then top_etfs
      else
        let top_etfs' := top_etfs ++ [e] in
        if (extra_needed - 1 <=? 0)%nat then top_etfs'
        else extra_pass dividend l' (count_incr category_count (category e))
               top_etfs' (extra_needed - 1)
  end.

Definition select_top_etfs (valid_etfs : list etf) (focus : string)
    (target_value seed_money : Q) : list etf :=
  let dividend := is_dividend focus in
  let distance (x : etf) : Q :=
    if dividend
    then Qabs (dividend_yield x - target_div_yield target_value seed_money)
    else Qabs (cagr_1y x - target_value) in
  let sorted := sort_ascending distance valid_etfs in
  let valid_etfs' :=
    if dividend then (dividend_pass sorted ∅ []).1
    else
      let '(selected, category_count) := growth_pass sorted ∅ [] in
      if (length selected <? 3)%nat
      then (growth_fill sorted category_count selected).1
      else selected in
  let '(top_etfs, category_count) := top_pass dividend valid_etfs' ∅ [] in
  if (length top_etfs <? 3)%nat
  then
    let remaining := filter (fun e => negb (etf_in e top_etfs) = true) valid_etfs' in
    extra_pass dividend (sort_ascending distance remaining) category_count top_etfs
      (3 - length top_etfs)
  else top_etfs.

(** ** PortfolioOptimizer.select_etfs_by_profile (lines 465-561) *)

Definition risk_limits : gmap string Q :=
  list_to_map [("conservative", 4); ("moderate", 6); ("aggressive", 10)]%string.

Definition horizon_weights : gmap string (gmap string Q) :=
  list_to_map
    [("short", list_to_map [("BND", 2.0); ("DIV", 1.5); ("LV", 1.2)]);
     ("medium", list_to_map [("DIV", 1.5); ("LV", 1.2); ("LC", 1.2)]);
     ("long", list_to_map [("GRO", 1.5); ("LC", 1.2); ("SC", 1.2)])]%string.

Definition income_weights : gmap string (gmap string Q) :=
  list_to_map
    [("low", list_to_map [("GRO", 1.5); ("LC", 1.2)]);
     ("medium", list_to_map [("DIV", 1.2); ("CC", 1.2)]);
     ("high", list_to_map [("DIV", 2.0); ("CC", 1.8); ("BND", 1.5)])]%string.

Definition focus_weights : gmap string (gmap string Q) :=
  list_to_map
    [("dividend", list_to_map [("DIV", 2.0); ("CC", 1.8); ("RE", 1.3)]);
     ("growth", list_to_map [("GRO", 2.0); ("LC", 1.5)]);
     ("balanced", list_to_map [("DIV", 1.3); ("LC", 1.3); ("BND", 1.3)])]%string.

(** [table.get(key, {}).get(category, 1.0)]. *)
Definition category_weight (table : gmap string (gmap string Q)) (key c : string) : Q :=
  default 1 (default ∅ (table !! key) !! c).

(** Lines 502-537: the score of one asset. *)
Definition final_score (investor_profile : profile) (target_value seed_money : Q)
    (e : etf) : Q :=
  let max_risk :=
    default 6 (risk_limits !! default "moderate"%string (risk_tolerance investor_profile)) in
  let horizon := default "medium"%string (investment_horizon investor_profile) in
  let income_need := default "medium"%string (income_needs investor_profile) in
  let focus := default "balanced"%string (investment_focus investor_profile) in
  let risk_score := 1 - risk_level e / 10 in
  let risk_score :=
    if Qltb max_risk (risk_level e)
    then
      let risk_penalty := (risk_level e - max_risk) * 0.2 in
      if Qltb (risk_score - risk_penalty) 0 then 0 else risk_score - risk_penalty
    else risk_score in
  let horizon_multiplier := category_weight horizon_weights horizon (category e) in
  let income_multiplier := category_weight income_weights income_need (category e) in
  let focus_multiplier := category_weight focus_weights focus (category e) in
  let target_score :=
    if is_dividend focus
    then 1 / (1 + Qabs (dividend_yield e - target_div_yield target_value seed_money) * 10)
    else 1 / (1 + Qabs (cagr_1y e - target_value) * 5) in
  let dividend_factor :=
    if is_dividend focus || String.eqb income_need "high"
    then 0.5 + 0.5 * dividend_quality e
    else 1 in
  risk_score * horizon_multiplier * income_multiplier * focus_multiplier
  * target_score * dividend_factor.

(** [{**etf, 'profile_score': final_score}]. *)
Definition with_profile_score (e : etf) (s : Q) : etf :=
  {| ticker := ticker e; name := name e; dividend_yield := dividend_yield e;
     cagr_1y := cagr_1y e; cagr_3y := cagr_3y e; cagr_5y := cagr_5y e;
     volatility := volatility e; beta := beta e; max_drawdown := max_drawdown e;
     risk_level := risk_level e; category := category e;
     dividend_quality := dividend_quality e; dividend_growth := dividend_growth e;
     dividend_consistency := dividend_consistency e; profile_score := Some s |}.

(** [x.get('profile_score', 0)], the sort key. *)
Definition score_key (x : etf) : Q := default 0 (profile_score x).

(** Lines 555-559: the loop over the assets of missing categories. *)
Fixpoint diversity_pass (l : list etf) (cats : gset string) (selected_etfs : list etf)
    : list etf :=
  match l with
  | [] => selected_etfs
  | e :: l' =>
      if (3 <=? size cats)%nat || (8 <=? length selected_etfs)%nat then selected_etfs
      else diversity_pass l' ({[category e]} ∪ cats) (selected_etfs ++ [e])
  end.

Definition select_etfs_by_profile (valid_etfs : list etf) (investor_profile : profile)
    (target_value seed_money : Q) : list etf :=
  let scored_etfs :=
    map (fun e => with_profile_score e (final_score investor_profile target_value seed_money e))
      valid_etfs in
  let selected_etfs := take 8 (sort_descending score_key scored_etfs) in
  let cats := categories selected_etfs in
  if (size cats <? 3)%nat && (length selected_etfs <? length valid_etfs)%nat
  then
    let missing_categories :=
      filter (fun e => (category e ∉ cats) ∧ etf_in e selected_etfs = false) valid_etfs in
    diversity_pass (sort_descending score_key missing_categories) cats selected_etfs
  else selected_etfs.

(** ** External numerical routines *)

(** What the program takes from NumPy and from Python's float power.  The
    random streams are the ones that follow [np.random.seed(42)]: the
    argument is the position of the draw in the stream. *)
Class NumPy : Type := {
  np_sqrt : Q -> Q;
  np_random_random : nat -> Q;
  np_random_normal : nat -> Q -> Q -> Q;
  np_mean : list Q -> Q;
  np_std : list Q -> Q;
  np_percentile : list Q -> Q -> Q;
  float_pow : Q -> Q -> Q
}.

(** What [scipy.optimize.minimize] hands back: an [OptimizeResult] with its
    fields [x] and [success], or an exception. *)
Inductive minimize_outcome : Type :=
| OptimizeResult (x : list Q) (success : bool)
| MinimizeRaised.

(** [minimize(fun, x0, method='SLSQP', bounds=bounds, constraints=constraints)]
    with one equality constraint; [MinimizeRaised] also stands for an
    exception of the objective, which the bare [except] catches alike. *)
Definition minimizer : Type :=
  (list Q -> Q) -> list Q -> list (Q * Q) -> (list Q -> Q) -> minimize_outcome.

(** ** Linear algebra on lists *)

(** [np.sum(a * b)] and [np.dot] of two vectors. *)
Definition np_dot (a b : list Q) : Q := Qsum (zip_with Qmult a b).

(** [np.dot(m, w)] of a matrix and a vector. *)
Definition mat_vec (m : list (list Q)) (w : list Q) : list Q :=
  map (fun row => np_dot row w) m.

(** [np.outer(v, v) * corr_matrix] with [corr_matrix] 0.5 off the diagonal
    and 1 on it. *)
Definition cov_matrix (volatilities : list Q) : list (list Q) :=
  imap (fun i vi =>
          imap (fun j vj => vi * vj * (if (i =? j)%nat then 1 else 0.5)) volatilities)
       volatilities.

(** [np.dot(weights.T, np.dot(cov_matrix, weights))]. *)
Definition portfolio_variance (cov : list (list Q)) (weights : list Q) : Q :=
  np_dot weights (mat_vec cov weights).

Definition Z_of_len {A} (l : list A) : Q := inject_Z (Z.of_nat (length l)).

(** [[1.0 / n for _ in range(n)]]. *)
Definition initial_weights (n : nat) : list Q :=
  replicate n (1 / inject_Z (Z.of_nat n)).

Definition bounds (n : nat) : list (Q * Q) := replicate n (0.05, 0.4).

(** [lambda x: np.sum(x) - 1]. *)
Definition sum_constraint (x : list Q) : Q := Qsum x - 1.

(** ** The weight optimizers (lines 563-721) *)

Section Optimizers.
Context `{NumPy} (minimize : minimizer).

(** The [try] block shared by the five optimizers:
    [result.x if result.success else initial_weights], and the warning
    with the initial weights when an exception is caught. *)
Definition slsqp (objective : list Q -> Q) (n : nat) (warning : message)
    : list Q * list message :=
  match minimize objective (initial_weights n) (bounds n) sum_constraint with
  | OptimizeResult x true => (x, [])
  | OptimizeResult _ false => (initial_weights n, [])
  | MinimizeRaised => (initial_weights n, [warning])
  end.

Definition negative_sharpe (etfs : list etf) (risk_free_rate : Q) (weights : list Q) : Q :=
  let port_return := np_dot (cagr_1y <$> etfs) weights in
  let port_stddev :=
    np_sqrt (portfolio_variance (cov_matrix (volatility <$> etfs)) weights) in
  let sharpe :=
    if Qltb 0 port_stddev then (port_return - risk_free_rate) / port_stddev else 0 in
  - sharpe.

Definition optimize_weights_sharpe (etfs : list etf) (risk_free_rate : Q)
    : list Q * list message :=
  match etfs with
  | [] => ([], [])
  | _ => slsqp (negative_sharpe etfs risk_free_rate) (length etfs) st_warning_sharpe
  end.

Definition risk_contribution (cov : list (list Q)) (weights : list Q) : list Q :=
  let port_var := portfolio_variance cov weights in
  let marginal_contrib := mat_vec cov weights in
  if Qltb 0 port_var
  then map (fun x => x / port_var) (zip_with Qmult marginal_contrib weights)
  else weights.

Definition risk_parity_objective (etfs : list etf) (weights : list Q) : Q :=
  let rc := risk_contribution (cov_matrix (volatility <$> etfs)) weights in
  let target_risk := 1 / Z_of_len etfs in
  Qsum (map (fun r => (r - target_risk) ^ 2) rc).

Definition optimize_risk_parity (etfs : list etf) : list Q * list message :=
  match etfs with
  | [] => ([], [])
  | _ => slsqp (risk_parity_objective etfs) (length etfs) st_warning_risk_parity
  end.

Definition optimize_min_variance (etfs : list etf) : list Q * list message :=
  match etfs with
  | [] => ([], [])
  | _ => slsqp (portfolio_variance (cov_matrix (volatility <$> etfs))) (length etfs)
           st_warning_min_variance
  end.

Definition target_return_objective (etfs : list etf) (target_return : Q)
    (weights : list Q) : Q :=
  let port_return := np_dot (cagr_1y <$> etfs) weights in
  let penalty := (port_return - target_return) ^ 2 * 100 in
  let var_penalty := portfolio_variance (cov_matrix (volatility <$> etfs)) weights * 10 in
  penalty + var_penalty.

Definition optimize_target_return (etfs : list etf) (target_return : Q)
    : list Q * list message :=
  match etfs with
  | [] => ([], [])
  | _ => slsqp (target_return_objective etfs target_return) (length etfs)
           st_warning_target_return
  end.

Definition target_dividend_objective (etfs : list etf) (target_yield : Q)
    (weights : list Q) : Q :=
  let port_div_yield := np_dot (dividend_yield <$> etfs) weights in
  let quality_score := np_dot (dividend_quality <$> etfs) weights in
  (port_div_yield - target_yield) ^ 2 * 100 - quality_score.

Definition optimize_target_dividend (etfs : list etf) (target_yield : Q)
    : list Q * list message :=
  match etfs with
  | [] => ([], [])
  | _ => slsqp (target_dividend_objective etfs target_yield) (length etfs)
           st_warning_target_dividend
  end.

(** Lines 337-356 of [recommend_portfolio]: the value of
    [optimized_weights] for each [optimization_method].  The last branch
    evaluates [1.0 / len(top_etfs)] before it builds the list. *)
Definition optimized_weights (top_etfs : list etf) (focus : string)
    (seed_money target_value : Q) (optimization_method : string)
    : outcome (list Q * list message) :=
  if String.eqb optimization_method "sharpe"
  then Returns (optimize_weights_sharpe top_etfs 0.03)
  else if String.eqb optimization_method "risk_parity"
  then Returns (optimize_risk_parity top_etfs)
  else if String.eqb optimization_method "min_variance"
  then Returns (optimize_min_variance top_etfs)
  else if String.eqb optimization_method "target_return"
  then
    if is_dividend focus
    then Returns (optimize_target_dividend top_etfs (target_div_yield target_value seed_money))
    else Returns (optimize_target_return top_etfs target_value)
  else
    match top_etfs with
    | [] => Raises ZeroDivisionError
    | _ => Returns (replicate (length top_etfs) (1 / Z_of_len top_etfs), [])
    end.
End Optimizers.

(** ** PortfolioOptimizer.generate_efficient_frontier (lines 752-810) *)

Record frontier_point : Type := {
  fp_return : Q;
  fp_volatility : Q;
  fp_sharpe : Q;
  fp_weights : list Q
}.

Record etf_point : Type := {
  ep_ticker : string;
  ep_name : string;
  ep_return : Q;
  ep_volatility : Q;
  ep_sharpe : Q
}.

Record frontier_data : Type := {
  portfolios : list frontier_point;
  max_sharpe : frontier_point;
  min_volatility : frontier_point;
  etf_points : list etf_point
}.

(** [max(results, key=...)] and [min(results, key=...)] keep the first of
    several extremal elements. *)
Definition max_by {A} (key : A -> Q) (first : A) (rest : list A) : A :=
  fold_left (fun best y => if Qltb (key best) (key y) then y else best) rest first.

Definition min_by {A} (key : A -> Q) (first : A) (rest : list A) : A :=
  fold_left (fun best y => if Qltb (key y) (key best) then y else best) rest first.

Section Frontier.
Context `{NumPy}.

(** The [i]-th round of the loop draws [np.random.random(n)]. *)
Definition random_draw (n i : nat) : list Q :=
  map (fun j => np_random_random (i * n + j)%nat) (seq 0 n).

(** Lines 773-790.  [weights /= np.sum(weights)] with a zero sum fills
    the vector with [nan]. *)
Definition random_portfolio (etfs : list etf) (i : nat) : outcome frontier_point :=
  let raw := random_draw (length etfs) i in
  if Qeq_bool (Qsum raw) 0 then Raises FloatNonFinite
  else
    let weights := map (fun w => w / Qsum raw) raw in
    let portfolio_return := np_dot (cagr_1y <$> etfs) weights in
    let portfolio_volatility :=
      np_sqrt (portfolio_variance (cov_matrix (volatility <$> etfs)) weights) in
    let sharpe_ratio :=
      if Qltb 0 portfolio_volatility
      then (portfolio_return - 0.03) / portfolio_volatility else 0 in
    Returns {| fp_return := portfolio_return;
               fp_volatility := portfolio_volatility;
               fp_sharpe := sharpe_ratio;
               fp_weights := weights |}.

Definition etf_point_of (e : etf) : etf_point :=
  {| ep_ticker := ticker e;
     ep_name := name e;
     ep_return := cagr_1y e;
     ep_volatility := volatility e;
     ep_sharpe := if Qltb 0 (volatility e) then (cagr_1y e - 0.03) / volatility e else 0 |}.

(** The empty dictionary [{}] of line 755 is [None]; [max] and [min] of
    an empty list raise [ValueError]. *)
Definition generate_efficient_frontier (etfs : list etf) (num_portfolios : nat)
    : outcome (option frontier_data) :=
  if (length etfs <? 2)%nat then Returns None
  else
    results ← mapM (random_portfolio etfs) (seq 0 num_portfolios);
    match results with
    | [] => Raises ValueError
    | r :: rs =>
        Returns (Some {| portfolios := results;
                         max_sharpe := max_by fp_sharpe r rs;
                         min_volatility := min_by fp_volatility r rs;
                         etf_points := etf_point_of <$> etfs |})
    end.
End Frontier.

(** ** PortfolioOptimizer.build_portfolio (lines 723-750) *)

(** An entry of the portfolio.  [recommend_portfolio] adds the key
    [efficient_frontier] afterwards: [None] until then. *)
Record holding : Type := {
  p_name : string;
  p_ticker : string;
  p_weight : Q;
  p_invest_amount : Q;
  p_dividend_yield : Q;
  p_annual_return : Q;
  p_risk_level : Q;
  p_category : string;
  p_volatility : Q;
  p_beta : Q;
  p_expected_monthly_dividend : Q;
  p_expected_annual_return_value : Q;
  p_dividend_quality : Q;
  p_efficient_frontier : option (option frontier_data)
}.

Definition make_holding (seed_money : Q) (e : etf) (weight : Q) : holding :=
  let invest_amount := seed_money * weight in
  {| p_name := name e;
     p_ticker := ticker e;
     p_weight := weight;
     p_invest_amount := invest_amount;
     p_dividend_yield := dividend_yield e;
     p_annual_return := cagr_1y e;
     p_risk_level := risk_level e;
     p_category := category e;
     p_volatility := volatility e;
     p_beta := beta e;
     p_expected_monthly_dividend := invest_amount * dividend_yield e / 12;
     p_expected_annual_return_value := invest_amount * cagr_1y e;
     p_dividend_quality := dividend_quality e;
     p_efficient_frontier := None |}.

(** The weights after lines 726-730.  Dividing NumPy numbers by a zero
    total gives [inf] or [nan] entries. *)
Definition normalized_weights (weights : list Q) : outcome (list Q) :=
  let total_weight := Qsum weights in
  if Qltb 0.000001 (Qabs (total_weight - 1))
  then
    match weights with
    | [] => Returns []
    | _ => if Qeq_bool total_weight 0 then Raises FloatNonFinite
           else Returns (map (fun w => w / total_weight) weights)
    end
  else Returns weights.

Definition build_portfolio (etfs : list etf) (weights : list Q) (seed_money : Q)
    : outcome (list holding) :=
  weights' ← normalized_weights weights;
  Returns (sort_descending p_weight
             (zip_with (make_holding seed_money) etfs weights')).

(** ** PortfolioOptimizer.recommend_portfolio (lines 320-366) *)

Definition with_efficient_frontier (ef_data : option frontier_data) (p : holding) : holding :=
  {| p_name := p_name p; p_ticker := p_ticker p; p_weight := p_weight p;
     p_invest_amount := p_invest_amount p; p_dividend_yield := p_dividend_yield p;
     p_annual_return := p_annual_return p; p_risk_level := p_risk_level p;
     p_category := p_category p; p_volatility := p_volatility p; p_beta := p_beta p;
     p_expected_monthly_dividend := p_expected_monthly_dividend p;
     p_expected_annual_return_value := p_expected_annual_return_value p;
     p_dividend_quality := p_dividend_quality p;
     p_efficient_frontier := Some ef_data |}.

Section Recommend.
Context `{NumPy} (minimize : minimizer).

(** Lines 330-335: the candidate set [top_etfs]. *)
Definition select_candidates (valid_etfs : list etf) (focus : string)
    (seed_money target_value : Q) (investor_profile : option profile) : list etf :=
  match investor_profile with
  | Some pr =>
      if profile_truthy investor_profile
      then select_etfs_by_profile valid_etfs pr target_value seed_money
      else select_top_etfs valid_etfs focus target_value seed_money
  | None => select_top_etfs valid_etfs focus target_value seed_money
  end.

(** The returned portfolio and the messages shown on the way. *)
Definition recommend_portfolio (etf_list : list raw_etf) (focus : string)
    (seed_money target_value : Q) (investor_profile : option profile)
    (optimization_method : string) : outcome (list holding) * list message :=
  let valid_etfs := filter_valid_etfs etf_list in
  match valid_etfs with
  | [] => (Returns [], [st_error_no_valid_etfs])
  | _ =>
      let top_etfs :=
        select_candidates valid_etfs focus seed_money target_value investor_profile in
      match optimized_weights minimize top_etfs focus seed_money target_value
              optimization_method with
      | Raises e => (Raises e, [])
      | Returns (weights, log) =>
          (build_portfolio top_etfs weights seed_money ≫= (fun final_portfolio : list holding =>
           generate_efficient_frontier top_etfs 100 ≫= (fun ef_data =>
           Returns (map (with_efficient_frontier ef_data) final_portfolio))),
           log)
      end
  end.
End Recommend.

(** ** PortfolioAnalyzer.generate_synthetic_backtest (lines 835-985) *)

(** A parsed date: year, month, day.  A month of the path is the pair
    (year, month) that [strftime("%Y-%m")] prints. *)
Record date : Type := { year : nat; month : nat; day : nat }.

Definition date_leb (a b : date) : bool :=
  (year a <? year b)%nat
  || ((year a =? year b)%nat
      && ((month a <? month b)%nat || ((month a =? month b)%nat && (day a <=? day b)%nat))).

Definition next_month (current : date) : date :=
  if (month current =? 12)%nat
  then {| year := S (year current); month := 1; day := 1 |}
  else {| year := year current; month := S (month current); day := 1 |}.

(** Lines 842-848, the [while current <= end] loop, bounded by [fuel]. *)
Fixpoint months_loop (fuel : nat) (current end_ : date) : list (nat * nat) :=
  match fuel with
  | O => []
  | S fuel' =>
      if date_leb current end_
      then (year current, month current) :: months_loop fuel' (next_month current) end_
      else []
  end.

(** Twelve rounds a year are enough from [start] to [end_]. *)
Definition months_of (start end_ : date) : list (nat * nat) :=
  months_loop (12 * (year end_ - year start) + 13) start end_.

Definition ym (y m : nat) : nat * nat := (y, m).

Definition market_events : gmap (nat * nat) Q :=
  list_to_map
    [(ym 2018 2, -0.04); (ym 2018 10, -0.07); (ym 2020 3, -0.20); (ym 2020 4, 0.10);
     (ym 2020 5, 0.05); (ym 2021 1, 0.05); (ym 2022 1, -0.05); (ym 2022 6, -0.08);
     (ym 2023 3, -0.03); (ym 2023 7, 0.05)].

Definition category_events : gmap string (gmap (nat * nat) Q) :=
  list_to_map
    [("DIV", list_to_map [(ym 2020 3, -0.15); (ym 2022 1, 0.02)]);
     ("CC", list_to_map [(ym 2020 3, -0.10); (ym 2022 1, 0.03)]);
     ("BND", list_to_map [(ym 2020 3, -0.05); (ym 2022 1, -0.10)]);
     ("LC", list_to_map [(ym 2020 3, -0.20); (ym 2022 1, -0.08)]);
     ("GRO", list_to_map [(ym 2020 3, -0.25); (ym 2022 1, -0.15);
                          (ym 2023 7, 0.10)]);
     ("RE", list_to_map [(ym 2020 3, -0.30); (ym 2022 1, -0.10)]);
     ("INT", list_to_map [(ym 2020 3, -0.25); (ym 2022 1, -0.05)]);
     ("COM", list_to_map [(ym 2020 3, -0.10); (ym 2022 1, 0.10)])]%string.

(** [sub in s] on strings. *)
Fixpoint contains (sub s : string) : bool :=
  String.prefix sub s
  || match s with
     | EmptyString => false
     | String _ s' => contains sub s'
     end.

(** Lines 883-898. *)
Definition ticker_category (t : string) : string :=
  if contains "DIV" t || contains "VYM" t || contains "SCHD" t then "DIV"
  else if contains "JEPI" t || contains "QYLD" t || contains "DIVO" t then "CC"
  else if contains "BND" t || contains "AGG" t || contains "TIP" t then "BND"
  else if contains "QQQ" t || contains "ARKK" t || contains "VUG" t then "GRO"
  else if contains "VNQ" t || contains "SCHH" t then "RE"
  else if contains "VXUS" t || contains "EFA" t then "INT"
  else if contains "GLD" t || contains "SLV" t then "COM"
  else "LC".

Definition base_return : gmap string Q :=
  list_to_map
    [("DIV", 0.006); ("CC", 0.005); ("BND", 0.003); ("LC", 0.007);
     ("GRO", 0.01); ("RE", 0.006); ("INT", 0.006); ("COM", 0.003)]%string.

Definition base_vol : gmap string Q :=
  list_to_map
    [("DIV", 0.03); ("CC", 0.025); ("BND", 0.01); ("LC", 0.04);
     ("GRO", 0.06); ("RE", 0.05); ("INT", 0.045); ("COM", 0.04)]%string.

Record backtest_row : Type := {
  row_date : nat * nat;
  row_return : Q;
  row_cumulative : Q
}.

Record backtest_result : Type := {
  return_series : list backtest_row;
  total_return : Q;
  annualized_return : Q;
  annualized_vol : Q;
  bt_max_drawdown : Q;
  sharpe_ratio : option Q   (* [None]: the division by a zero deviation *)
}.

Section Backtest.
Context `{NumPy}.

(** Lines 918-930: the returns of one ticker, whose first draw is at
    position [k] of the normal stream. *)
Definition ticker_monthly_returns (t : string) (months : list (nat * nat)) (k : nat)
    : list Q :=
  let c := ticker_category t in
  imap (fun i m =>
          let monthly_return :=
            default 0.007 (base_return !! c)
            + np_random_normal (k + i) 0 (default 0.04 (base_vol !! c)) in
          let monthly_return :=
            match market_events !! m with
            | Some ev => monthly_return + ev
            | None => monthly_return
            end in
          match default ∅ (category_events !! c) !! m with
          | Some ev => monthly_return + ev
          | None => monthly_return
          end)
       months.

(** Lines 900-932: the dictionary [ticker_returns]; a ticker that occurs
    twice keeps the returns drawn last. *)
Fixpoint fill_ticker_returns (tickers : list string) (months : list (nat * nat))
    (k : nat) (ticker_returns : gmap string (list Q)) : gmap string (list Q) :=
  match tickers with
  | [] => ticker_returns
  | t :: ts =>
      fill_ticker_returns ts months (k + length months)
        (<[t := ticker_monthly_returns t months k]> ticker_returns)
  end.

(** Lines 943-946. *)
Fixpoint cumulate (last : Q) (portfolio_returns : list Q) : list Q :=
  match portfolio_returns with
  | [] => []
  | ret :: rest => last * (1 + ret) :: cumulate (last * (1 + ret)) rest
  end.

(** Lines 957-965; a zero peak makes the NumPy quotient non-finite. *)
Fixpoint drawdown_loop (values : list Q) (peak max_drawdown : Q) : outcome Q :=
  match values with
  | [] => Returns max_drawdown
  | value :: rest =>
      let peak := if Qltb peak value then value else peak in
      if Qeq_bool peak 0 then Raises FloatNonFinite
      else
        let dd := (peak - value) / peak in
        drawdown_loop rest peak (if Qltb max_drawdown dd then dd else max_drawdown)
  end.

Definition generate_synthetic_backtest (tickers : list string) (weights : list Q)
    (start_date end_date : date) : outcome backtest_result :=
  let months := months_of start_date end_date in
  let ticker_returns := fill_ticker_returns tickers months 0 ∅ in
  match months with
  | [] => Raises IndexError                         (* [cumulative_returns[-1]] *)
  | _ =>
      if (length weights <? length tickers)%nat
      then Raises IndexError                        (* [weights[j]] *)
      else
        let portfolio_returns :=
          map (fun i =>
                 Qsum (zip_with
                         (fun w t => w * default 0 (default [] (ticker_returns !! t) !! i))
                         weights tickers))
              (seq 0 (length months)) in
        let cumulative_returns := cumulate 1 portfolio_returns in
        let total_return := List.last cumulative_returns 0 - 1 in
        let years := Z_of_len months / 12 in
        let annualized_return :=
          if Qltb 0 years then float_pow (1 + total_return) (1 / years) - 1 else 0 in
        let annualized_vol := np_std portfolio_returns * np_sqrt 12 in
        max_drawdown ← drawdown_loop cumulative_returns (List.hd 0 cumulative_returns) 0;
        let monthly_rf := float_pow (1 + 0.03) (1 / 12) - 1 in
        let excess_returns := map (fun r => r - monthly_rf) portfolio_returns in
        let sharpe :=
          if Qeq_bool (np_std excess_returns) 0 then None
          else Some (np_mean excess_returns / np_std excess_returns * np_sqrt 12) in
        Returns {| return_series :=
                     zip_with (fun m rc => {| row_date := m; row_return := rc.1;
                                              row_cumulative := rc.2 |})
                       months (zip portfolio_returns cumulative_returns);
                   total_return := total_return;
                   annualized_return := annualized_return;
                   annualized_vol := annualized_vol;
                   bt_max_drawdown := max_drawdown;
                   sharpe_ratio := sharpe |}
  end.

(** Lines 820-833, with [end_date] given. *)
Definition backtest_portfolio (portfolio : list holding) (start_date end_date : date)
    : outcome backtest_result :=
  generate_synthetic_backtest (p_ticker <$> portfolio) (p_weight <$> portfolio)
    start_date end_date.
End Backtest.

(** ** PortfolioAnalyzer.stress_test_portfolio (lines 987-1099) *)

(** A scenario; its display texts [name] and [description] are left out. *)
Record scenario_params : Type := {
  market_return : Q;
  volatility_multiplier : Q;
  sector_impacts : gmap string Q
}.

Definition scenarios : gmap string scenario_params :=
  list_to_map
    [("bear_market",
      {| market_return := -0.30; volatility_multiplier := 2.0;
         sector_impacts :=
           list_to_map [("DIV", -0.05); ("GRO", -0.25); ("BND", 0.05);
                        ("CC", -0.10); ("RE", -0.20); ("COM", 0.10)] |});
     ("inflation",
      {| market_return := -0.15; volatility_multiplier := 1.5;
         sector_impacts :=
           list_to_map [("DIV", -0.05); ("GRO", -0.20); ("BND", -0.10);
                        ("CC", -0.05); ("RE", -0.15); ("COM", 0.20)] |});
     ("tech_crash",
      {| market_return := -0.20; volatility_multiplier := 1.8;
         sector_impacts :=
           list_to_map [("DIV", 0.05); ("GRO", -0.30); ("BND", 0.10);
                        ("CC", -0.05); ("RE", 0.0); ("COM", 0.05)] |});
     ("fed_pivot",
      {| market_return := 0.15; volatility_multiplier := 0.7;
         sector_impacts :=
           list_to_map [("DIV", 0.05); ("GRO", 0.25); ("BND", 0.10);
                        ("CC", 0.05); ("RE", 0.15); ("COM", -0.05)] |})]%string.

Record asset_impact : Type := {
  ai_ticker : string;
  ai_name : string;
  ai_category : string;
  current_value : Q;
  impact : Q;
  value_change : Q;
  new_value : Q
}.

Record stress_report : Type := {
  sr_scenario : string;
  portfolio_impact : option Q;    (* [None]: the NumPy quotient by a zero total *)
  total_investment : Q;
  total_value_change : Q;
  new_portfolio_value : Q;
  asset_impacts : list asset_impact
}.

(** The dictionary with the single key [error], or the report. *)
Inductive stress_result : Type :=
| StressError (scenario : string)
| StressReport (r : stress_report).

(** Lines 1058-1083.  A holding always has the key [volatility]. *)
Definition asset_impact_of (scenario : scenario_params) (p : holding) : asset_impact :=
  let base_impact := market_return scenario in
  let sector_impact := default 0 (sector_impacts scenario !! p_category p) in
  let total_impact := base_impact + sector_impact in
  let vol_impact := p_volatility p / 0.15 in
  let final_impact := total_impact * vol_impact * volatility_multiplier scenario in
  {| ai_ticker := p_ticker p;
     ai_name := p_name p;
     ai_category := p_category p;
     current_value := p_invest_amount p;
     impact := final_impact;
     value_change := p_invest_amount p * final_impact;
     new_value := p_invest_amount p * (1 + final_impact) |}.

(** The amounts of a portfolio are NumPy numbers, so a zero total of a
    portfolio that is not empty divides without an exception; the total of
    the empty portfolio is the integer 0, and dividing by it raises. *)
Definition stress_test_portfolio (portfolio : list holding) (scenario : string)
    : outcome stress_result :=
  match scenarios !! scenario with
  | None => Returns (StressError scenario)
  | Some scenario_params =>
      let total_investment := Qsum (p_invest_amount <$> portfolio) in
      let asset_impacts := asset_impact_of scenario_params <$> portfolio in
      let total_value_change := Qsum (value_change <$> asset_impacts) in
      portfolio_impact ←
        match portfolio with
        | [] => Raises ZeroDivisionError
        | _ => Returns (if Qeq_bool total_investment 0 then None
                        else Some (total_value_change / total_investment))
        end;
      Returns (StressReport
                 {| sr_scenario := scenario;
                    portfolio_impact := portfolio_impact;
                    total_investment := total_investment;
                    total_value_change := total_value_change;
                    new_portfolio_value := total_investment + total_value_change;
                    asset_impacts := asset_impacts |})
  end.

(** ** PortfolioAnalyzer.monte_carlo_simulation (lines 1101-1192) *)

Record simulation_result : Type := {
  simulations : nat;
  sim_years : nat;
  initial_investment : Q;
  mean_return : Q;
  std_dev : Q;
  percentiles : list (nat * Q);          (* keys 5th, 25th, 50th, 75th, 95th *)
  percentile_values : list (nat * Q);
  expected_monthly_dividend : Q;
  monthly_dividend_per_10m : Q;
  sim_returns : list Q
}.

Section MonteCarlo.
Context `{NumPy}.

(** Lines 1135-1139: the portfolio return of the day whose first draw is
    at position [k] of the normal stream. *)
Definition daily_return_port (daily_returns_list : list (Q * Q)) (weights : list Q)
    (k : nat) : Q :=
  fold_left Qplus
    (imap (fun a mw => np_random_normal (k + a) (mw.1).1 (mw.1).2 * mw.2)
          (zip daily_returns_list weights))
    0.

(** Lines 1131-1142: one year of 252 days; the year starts at draw [k]. *)
Definition yearly_return (daily_returns_list : list (Q * Q)) (weights : list Q)
    (k : nat) : Q :=
  fold_left
    (fun acc d =>
       acc * (1 + daily_return_port daily_returns_list weights
                    (k + d * length (zip daily_returns_list weights))))
    (seq 0 252) 1.

(** Lines 1126-1148: one run; the run starts at draw [k]. *)
Definition final_return (daily_returns_list : list (Q * Q)) (weights : list Q)
    (years k : nat) : Q :=
  fold_left
    (fun portfolio_value y =>
       portfolio_value
       * yearly_return daily_returns_list weights
           (k + y * 252 * length (zip daily_returns_list weights)))
    (seq 0 years) 1
  - 1.

(** Statistics of an empty sample ([n_sim = 0]) are not numbers. *)
Definition monte_carlo_simulation (portfolio : list holding) (n_sim years : nat)
    : outcome (option simulation_result) :=
  let total_invest := Qsum (p_invest_amount <$> portfolio) in
  if Qle_bool total_invest 0 then Returns None
  else
    let daily_returns_list :=
      map (fun p => (float_pow (1 + p_annual_return p) (1 / 252) - 1,
                     p_volatility p / np_sqrt 252)) portfolio in
    let weights := map (fun p => p_invest_amount p / total_invest) portfolio in
    let draws_per_run := (years * 252 * length portfolio)%nat in
    let annual_data :=
      map (fun sim_idx =>
             final_return daily_returns_list weights years (sim_idx * draws_per_run))
          (seq 0 n_sim) in
    match annual_data with
    | [] => Raises FloatNonFinite
    | _ =>
        let pcts := map (fun q => (q, np_percentile annual_data (inject_Z (Z.of_nat q))))
                        [5; 25; 50; 75; 95]%nat in
        let monthly_dividend :=
          fold_left (fun acc p => acc + p_weight p * p_dividend_yield p / 12) portfolio 0 in
        let expected := total_invest * monthly_dividend in
        Returns (Some {| simulations := n_sim;
                         sim_years := years;
                         initial_investment := total_invest;
                         mean_return := np_mean annual_data;
                         std_dev := np_std annual_data;
                         percentiles := pcts;
                         percentile_values :=
                           map (fun qv => (qv.1, total_invest * (1 + qv.2))) pcts;
                         expected_monthly_dividend := expected;
                         monthly_dividend_per_10m := expected * 10000000 / total_invest;
                         sim_returns := annual_data |})
    end.
End MonteCarlo.

(** ** ETFDataManager (lines 72-310) *)

(** The metadata of a ticker: the inner dictionaries of [get_tickers]. *)
Record ticker_info : Type := {
  info_name : string;
  info_risk_level : Q;
  info_category : string
}.

Definition ticker_info_of (n : string) (r : Q) (c : string) : ticker_info :=
  {| info_name := n; info_risk_level := r; info_category := c |}.

(** Lines 79-227: the dictionary of the catalogue, in the order of its
    keys, which [items()] keeps.  No key occurs twice. *)
Definition get_tickers : list (string * ticker_info) :=
  [
   ("SCHD", ticker_info_of "Schwab U.S. Dividend Equity ETF" 3 "DIV");
   ("VIG", ticker_info_of "Vanguard Dividend Appreciation ETF" 3 "DIV");
   ("VYM", ticker_info_of "Vanguard High Dividend Yield ETF" 3 "DIV");
   ("DVY", ticker_info_of "iShares Select Dividend ETF" 4 "DIV");
   ("NOBL", ticker_info_of "ProShares S&P 500 Dividend Aristocrats ETF" 3 "DIV");
   ("SDY", ticker_info_of "SPDR S&P Dividend ETF" 3 "DIV");
   ("HDV", ticker_info_of "iShares Core High Dividend ETF" 3 "DIV");
   ("SPHD", ticker_info_of "Invesco S&P 500 High Dividend Low Volatility ETF" 3 "DIV");
   ("FVD", ticker_info_of "First Trust Value Line Dividend Index Fund" 3 "DIV");
   ("DGRO", ticker_info_of "iShares Core Dividend Growth ETF" 3 "DIV");
   ("DHS", ticker_info_of "WisdomTree U.S. High Dividend Fund" 4 "DIV");
   ("DLN", ticker_info_of "WisdomTree U.S. LargeCap Dividend ETF" 3 "DIV");
   ("FDVV", ticker_info_of "Fidelity High Dividend ETF" 4 "DIV");
   ("SPYD", ticker_info_of "SPDR Portfolio S&P 500 High Dividend ETF" 4 "DIV");
   ("DIV", ticker_info_of "Global X SuperDividend U.S. ETF" 5 "DIV");
   ("SDIV", ticker_info_of "Global X SuperDividend ETF" 5 "DIV");
   ("ALTY", ticker_info_of "Global X Alternative Income ETF" 4 "DIV");
   ("YYY", ticker_info_of "Amplify High Income ETF" 5 "DIV");
   ("QYLD", ticker_info_of "Global X NASDAQ 100 Covered Call ETF" 4 "CC");
   ("XYLD", ticker_info_of "Global X S&P 500 Covered Call ETF" 4 "CC");
   ("RYLD", ticker_info_of "Global X Russell 2000 Covered Call ETF" 5 "CC");
   ("JEPI", ticker_info_of "JPMorgan Equity Premium Income ETF" 4 "CC");
   ("JEPQ", ticker_info_of "JPMorgan Nasdaq Equity Premium Income ETF" 4 "CC");
   ("DIVO", ticker_info_of "Amplify CWP Enhanced Dividend Income ETF" 4 "CC");
   ("NUSI", ticker_info_of "Nationwide Nasdaq-100 Risk-Managed Income ETF" 4 "CC");
   ("PBP", ticker_info_of "Invesco S&P 500 BuyWrite ETF" 4 "CC");
   ("KNG", ticker_info_of "FT Cboe Vest S&P 500 Dividend Aristocrats Target Income ETF" 4 "CC");
   ("SPYI", ticker_info_of "NEOS S&P 500 High Income ETF" 4 "CC");
   ("APLY", ticker_info_of "YieldMax AAPL Option Income Strategy ETF" 5 "CC");
   ("SVOL", ticker_info_of "Simplify Volatility Premium ETF" 4 "CC");
   ("QYLG", ticker_info_of "Global X Nasdaq 100 Covered Call & Growth ETF" 4 "CC");
   ("NVDY", ticker_info_of "YieldMax NVDA Option Income Strategy ETF" 5 "CC");
   ("QDTE", ticker_info_of "Roundhill Innovation S&P 500 0DTE Covered Call Strategy ETF" 5 "CC");
   ("BND", ticker_info_of "Vanguard Total Bond Market ETF" 2 "BND");
   ("AGG", ticker_info_of "iShares Core U.S. Aggregate Bond ETF" 2 "BND");
   ("TIP", ticker_info_of "iShares TIPS Bond ETF" 2 "BND");
   ("BNDX", ticker_info_of "Vanguard Total International Bond ETF" 2 "BND");
   ("LQD", ticker_info_of "iShares iBoxx $ Investment Grade Corporate Bond ETF" 3 "BND");
   ("HYG", ticker_info_of "iShares iBoxx $ High Yield Corporate Bond ETF" 4 "BND");
   ("MUB", ticker_info_of "iShares National Muni Bond ETF" 2 "BND");
   ("TLT", ticker_info_of "iShares 20+ Year Treasury Bond ETF" 3 "BND");
   ("IEF", ticker_info_of "iShares 7-10 Year Treasury Bond ETF" 2 "BND");
   ("SHY", ticker_info_of "iShares 1-3 Year Treasury Bond ETF" 1 "BND");
   ("BIL", ticker_info_of "SPDR Bloomberg 1-3 Month T-Bill ETF" 1 "BND");
   ("SGOV", ticker_info_of "iShares 0-3 Month Treasury Bond ETF" 1 "BND");
   ("TLTW", ticker_info_of "iShares 20+ Year Treasury Bond LNAV ETF" 3 "BND");
   ("VOO", ticker_info_of "Vanguard S&P 500 ETF" 5 "LC");
   ("SPY", ticker_info_of "SPDR S&P 500 ETF Trust" 5 "LC");
   ("IVV", ticker_info_of "iShares Core S&P 500 ETF" 5 "LC");
   ("VTI", ticker_info_of "Vanguard Total Stock Market ETF" 6 "LC");
   ("ITOT", ticker_info_of "iShares Core S&P Total U.S. Stock Market ETF" 6 "LC");
   ("SCHX", ticker_info_of "Schwab U.S. Large-Cap ETF" 5 "LC");
   ("VV", ticker_info_of "Vanguard Large-Cap ETF" 5 "LC");
   ("IWB", ticker_info_of "iShares Russell 1000 ETF" 5 "LC");
   ("QQQ", ticker_info_of "Invesco QQQ Trust" 6 "LC");
   ("SCHG", ticker_info_of "Schwab U.S. Large-Cap Growth ETF" 6 "LC");
   ("IJH", ticker_info_of "iShares Core S&P Mid-Cap ETF" 6 "MC");
   ("MDY", ticker_info_of "SPDR S&P MidCap 400 ETF Trust" 6 "MC");
   ("VO", ticker_info_of "Vanguard Mid-Cap ETF" 6 "MC");
   ("SCHM", ticker_info_of "Schwab U.S. Mid-Cap ETF" 6 "MC");
   ("VB", ticker_info_of "Vanguard Small-Cap ETF" 6 "SC");
   ("IJR", ticker_info_of "iShares Core S&P Small-Cap ETF" 6 "SC");
   ("SCHA", ticker_info_of "Schwab U.S. Small-Cap ETF" 6 "SC");
   ("XLU", ticker_info_of "Utilities Select Sector SPDR Fund" 3 "SEC");
   ("XLP", ticker_info_of "Consumer Staples Select Sector SPDR Fund" 4 "SEC");
   ("XLV", ticker_info_of "Health Care Select Sector SPDR Fund" 5 "SEC");
   ("XLF", ticker_info_of "Financial Select Sector SPDR Fund" 6 "SEC");
   ("XLI", ticker_info_of "Industrial Select Sector SPDR Fund" 6 "SEC");
   ("XLB", ticker_info_of "Materials Select Sector SPDR Fund" 6 "SEC");
   ("XLE", ticker_info_of "Energy Select Sector SPDR Fund" 6 "SEC");
   ("VNQ", ticker_info_of "Vanguard Real Estate ETF" 5 "RE");
   ("SCHH", ticker_info_of "Schwab U.S. REIT ETF" 5 "RE");
   ("IYR", ticker_info_of "iShares U.S. Real Estate ETF" 5 "RE");
   ("XLRE", ticker_info_of "Real Estate Select Sector SPDR Fund" 5 "RE");
   ("ICF", ticker_info_of "iShares Cohen & Steers REIT ETF" 5 "RE");
   ("RWR", ticker_info_of "SPDR Dow Jones REIT ETF" 5 "RE");
   ("VEA", ticker_info_of "Vanguard FTSE Developed Markets ETF" 5 "INT");
   ("VXUS", ticker_info_of "Vanguard Total International Stock ETF" 6 "INT");
   ("EFA", ticker_info_of "iShares MSCI EAFE ETF" 5 "INT");
   ("IEFA", ticker_info_of "iShares Core MSCI EAFE ETF" 5 "INT");
   ("VEU", ticker_info_of "Vanguard FTSE All-World ex-US ETF" 6 "INT");
   ("IXUS", ticker_info_of "iShares Core MSCI Total International Stock ETF" 6 "INT");
   ("EWJ", ticker_info_of "iShares MSCI Japan ETF" 5 "INT");
   ("EWU", ticker_info_of "iShares MSCI United Kingdom ETF" 5 "INT");
   ("EZU", ticker_info_of "iShares MSCI Eurozone ETF" 5 "INT");
   ("GLD", ticker_info_of "SPDR Gold Shares" 2 "COM");
   ("SLV", ticker_info_of "iShares Silver Trust" 3 "COM");
   ("IAU", ticker_info_of "iShares Gold Trust" 2 "COM");
   ("DBC", ticker_info_of "Invesco DB Commodity Index Tracking Fund" 4 "COM");
   ("USO", ticker_info_of "United States Oil Fund LP" 5 "COM");
   ("USMV", ticker_info_of "iShares MSCI USA Min Vol Factor ETF" 3 "LV");
   ("SPLV", ticker_info_of "Invesco S&P 500 Low Volatility ETF" 3 "LV");
   ("LVHD", ticker_info_of "Franklin U.S. Low Volatility High Dividend ETF" 3 "LV");
   ("EFAV", ticker_info_of "iShares MSCI EAFE Min Vol Factor ETF" 3 "LV");
   ("ACWV", ticker_info_of "iShares MSCI Global Min Vol Factor ETF" 3 "LV");
   ("ARKK", ticker_info_of "ARK Innovation ETF" 7 "GRO");
   ("ARKW", ticker_info_of "ARK Next Generation Internet ETF" 7 "GRO");
   ("VUG", ticker_info_of "Vanguard Growth ETF" 6 "GRO");
   ("MGK", ticker_info_of "Vanguard Mega Cap Growth ETF" 6 "GRO");
   ("IWY", ticker_info_of "iShares Russell Top 200 Growth ETF" 6 "GRO");
   ("TQQQ", ticker_info_of "ProShares UltraPro QQQ" 8 "GRO");
   ("XLK", ticker_info_of "Technology Select Sector SPDR Fund" 6 "GRO");
   ("SOXL", ticker_info_of "Direxion Daily Semiconductor Bull 3X Shares" 9 "GRO");
   ("QQQM", ticker_info_of "Invesco NASDAQ 100 ETF" 6 "GRO");
   ("IWF", ticker_info_of "iShares Russell 1000 Growth ETF" 6 "GRO");
   ("PFF", ticker_info_of "iShares Preferred & Income Securities ETF" 4 "DIV");
   ("SCHZ", ticker_info_of "Schwab U.S. Aggregate Bond ETF" 2 "BND");
   ("VGSH", ticker_info_of "Vanguard Short-Term Treasury ETF" 1 "BND");
   ("VCSH", ticker_info_of "Vanguard Short-Term Corporate Bond ETF" 2 "BND");
   ("SCHB", ticker_info_of "Schwab U.S. Broad Market ETF" 6 "LC");
   ("SCHV", ticker_info_of "Schwab U.S. Large-Cap Value ETF" 5 "LC");
   ("DON", ticker_info_of "WisdomTree U.S. MidCap Dividend Fund" 5 "DIV");
   ("DES", ticker_info_of "WisdomTree U.S. SmallCap Dividend Fund" 6 "DIV");
   ("REET", ticker_info_of "iShares Global REIT ETF" 5 "RE");
   ("IDV", ticker_info_of "iShares International Select Dividend ETF" 5 "DIV");
   ("SPAB", ticker_info_of "SPDR Portfolio Aggregate Bond ETF" 2 "BND");
   ("SPTI", ticker_info_of "SPDR Portfolio Intermediate Term Treasury ETF" 2 "BND");
   ("SPTL", ticker_info_of "SPDR Portfolio Long Term Treasury ETF" 3 "BND")
  ]%string.

Definition div_yields : gmap string Q :=
  list_to_map
    [("DIV", 0.03); ("CC", 0.08); ("BND", 0.04); ("LC", 0.015);
     ("GRO", 0.005); ("RE", 0.035); ("INT", 0.025); ("COM", 0.0)]%string.

Definition returns : gmap string Q :=
  list_to_map
    [("DIV", 0.08); ("CC", 0.06); ("BND", 0.04); ("LC", 0.10);
     ("GRO", 0.12); ("RE", 0.07); ("INT", 0.07); ("COM", 0.05)]%string.

Section DataManager.
Context `{NumPy}.

(** Lines 254-303: the record of one ticker and the position of the random
    stream after it.  The generator is not seeded here: [k] is the position
    of the stream before the record.  The three conditional expressions at
    the end draw a number only when their condition holds. *)
Definition mock_record (ticker : string) (info : ticker_info) (k : nat) : raw_etf * nat :=
  let category := info_category info in
  let risk_level := info_risk_level info in
  let risk_factor := risk_level / 5 in
  let base_div_yield := default 0.02 (div_yields !! category) in
  let base_return := default 0.07 (returns !! category) in
  let dividend_yield := base_div_yield * (0.9 + 0.2 * np_random_random k) in
  let cagr_1y := base_return * (0.8 + 0.4 * np_random_random (k + 1)) in
  let cagr_3y := cagr_1y * (0.9 + 0.2 * np_random_random (k + 2)) in
  let cagr_5y := cagr_3y * (0.9 + 0.2 * np_random_random (k + 3)) in
  let volatility := 0.08 * risk_factor * (0.8 + 0.4 * np_random_random (k + 4)) in
  let beta := 0.8 + 0.4 * risk_factor in
  let max_drawdown := -0.1 - 0.2 * risk_factor * np_random_random (k + 5) in
  let div_or_cc := String.eqb category "DIV" || String.eqb category "CC" in
  let div := String.eqb category "DIV" in
  let k := (k + 6)%nat in
  let dividend_quality := if div_or_cc then 0.7 * np_random_random k + 0.3 else 0.2 in
  let k := if div_or_cc then S k else k in
  let dividend_growth := if div then 0.04 * np_random_random k else 0.01 in
  let k := if div then S k else k in
  let dividend_consistency := if div_or_cc then 0.8 * np_random_random k + 0.2 else 0.3 in
  let k := if div_or_cc then S k else k in
  ({| raw_ticker := ticker;
      raw_name := info_name info;
      raw_cagr_1y := Some cagr_1y;
      raw_dividend_yield := Some dividend_yield;
      raw_expected_dividend_yield := Some dividend_yield;
      raw_category := Some category;
      raw_risk_level := Some risk_level;
      raw_cagr_3y := Some cagr_3y;
      raw_cagr_5y := Some cagr_5y;
      raw_volatility := Some volatility;
      raw_beta := Some beta;
      raw_max_drawdown := Some max_drawdown;
      raw_dividend_quality := Some dividend_quality;
      raw_dividend_growth := Some dividend_growth;
      raw_dividend_consistency := Some dividend_consistency |}, k).

(** Lines 251-310: the list [mock_data] for the dictionary [self.tickers];
    the copy written to the CSV file is left out. *)
Fixpoint generate_mock_data (tickers : list (string * ticker_info)) (k : nat)
    : list raw_etf :=
  match tickers with
  | [] => []
  | (ticker, info) :: rest =>
      let '(record, k') := mock_record ticker info k in
      record :: generate_mock_data rest k'
  end.
End DataManager.

(** ** PortfolioVisualizer.plot_portfolio_categories (lines 1226-1280) *)

(** Lines 1231-1233, one round of the loop: [categories[cat] = 0] for a new
    key, then [categories[cat] += p['weight']].  The dictionary is the list
    of its items in the order of insertion, the order of the slices. *)
Fixpoint add_weight (categories : list (string * Q)) (cat : string) (weight : Q)
    : list (string * Q) :=
  match categories with
  | [] => [(cat, 0 + weight)]
  | (c, v) :: rest =>
      if String.eqb c cat then (c, v + weight) :: rest
      else (c, v) :: add_weight rest cat weight
  end.

(** Lines 1228-1233: the dictionary [categories], whose values the pie
    chart shows; the drawing is left out. *)
Definition portfolio_categories (portfolio : list holding) : list (string * Q) :=
  fold_left (fun categories p => add_weight categories (p_category p) (p_weight p))
    portfolio [].

(** ** Vocabulary of the properties *)

(** The keys of the dictionary [scenarios]. *)
Definition known_scenarios : list string :=
  ["bear_market"; "inflation"; "tech_crash"; "fed_pivot"]%string.

(** The validity test of [filter_valid_etfs]: a 1-year return that is
    strictly positive. *)
Definition passes_validity (r : raw_etf) : bool := Qltb 0 (default 0 (raw_cagr_1y r)).

(** The keys of the dispatch on [optimization_method]. *)
Definition known_methods : list string :=
  ["sharpe"; "risk_parity"; "min_variance"; "target_return"]%string.

(** The box and the sum that the specification asks of a weight vector. *)
Definition in_box (w : Q) : Prop := 0.05 <= w /\ w <= 0.4.

Definition weights_ok (w : list Q) : Prop :=
  Forall in_box w /\ Qabs (Qsum w - 1) <= 0.000001.

Definition weights_okb (w : list Q) : bool :=
  forallb (fun x => Qle_bool 0.05 x && Qle_bool x 0.4) w
  && Qle_bool (Qabs (Qsum w - 1)) 0.000001.

(** A call of the solver that did not produce a converged result. *)
Definition solver_failed (o : minimize_outcome) : Prop :=
  match o with
  | OptimizeResult _ true => False
  | _ => True
  end.

(** What is assumed of SciPy where a property needs it: a result reported
    as a success keeps the length of the start vector, respects the bounds
    and meets the equality constraint within 1e-6. *)
Definition solver_sound (minimize : minimizer) : Prop :=
  forall objective x0 bnds constraint x,
    minimize objective x0 bnds constraint = OptimizeResult x true ->
    length x = length x0
    /\ Forall2 (fun xi b => b.1 <= xi /\ xi <= b.2) x bnds
    /\ Qabs (constraint x) <= 0.000001.

(** The objective that [optimized_weights] hands to the solver for a
    method, [None] for a method outside the four. *)
Definition method_objective `{NumPy} (top_etfs : list etf) (focus : string)
    (seed_money target_value : Q) (optimization_method : string)
    : option (list Q -> Q) :=
  if String.eqb optimization_method "sharpe"
  then Some (negative_sharpe top_etfs 0.03)
  else if String.eqb optimization_method "risk_parity"
  then Some (risk_parity_objective top_etfs)
  else if String.eqb optimization_method "min_variance"
  then Some (portfolio_variance (cov_matrix (volatility <$> top_etfs)))
  else if String.eqb optimization_method "target_return"
  then
    if is_dividend focus
    then Some (target_dividend_objective top_etfs (target_div_yield target_value seed_money))
    else Some (target_return_objective top_etfs target_value)
  else None.

(** ** Instances for the examples *)

(** A NumPy with a crude square root and power and constant random
    streams, and two solvers: one that never converges and one that
    accepts the start vector when it is feasible.  The examples evaluated
    with them are on paths where the choice does not matter, or serve as
    instances of a hypothesis. *)
Definition sample_numpy : NumPy :=
  {| np_sqrt := fun x => x;
     np_random_random := fun _ => 0.5;
     np_random_normal := fun _ mu _ => mu;
     np_mean := fun l => Qsum l / Z_of_len l;
     np_std := fun _ => 0;
     np_percentile := fun _ _ => 0;
     float_pow := fun x _ => x |}.

Definition failing_minimize : minimizer :=
  fun _ x0 _ _ => OptimizeResult x0 false.

Definition feasible_start_minimize : minimizer :=
  fun _ x0 bnds constraint =>
    OptimizeResult x0
      ((length x0 =? length bnds)%nat
       && forallb (fun xb => Qle_bool (xb.2).1 xb.1 && Qle_bool xb.1 (xb.2).2) (zip x0 bnds)
       && Qle_bool (Qabs (constraint x0)) 0.000001).

Definition sample_etf (t c : string) (ret vol : Q) : etf :=
  {| ticker := t; name := t; dividend_yield := 0.03; cagr_1y := ret;
     cagr_3y := ret * 0.9; cagr_5y := ret * 0.8; volatility := vol; beta := 1;
     max_drawdown := -0.2; risk_level := 5; category := c;
     dividend_quality := 0.5; dividend_growth := 0.02; dividend_consistency := 0.5;
     profile_score := None |}.

Definition sample_raw (t c : string) (ret dy vol risk : Q) : raw_etf :=
  {| raw_ticker := t; raw_name := t; raw_cagr_1y := Some ret;
     raw_dividend_yield := Some dy; raw_expected_dividend_yield := None;
     raw_category := Some c; raw_risk_level := Some risk;
     raw_cagr_3y := None; raw_cagr_5y := None; raw_volatility := Some vol;
     raw_beta := None; raw_max_drawdown := None; raw_dividend_quality := None;
     raw_dividend_growth := None; raw_dividend_consistency := None |}.

(** Ten valid assets in three categories, eight of them dividend funds,
    and a dividend-seeking profile as the form builds it. *)
Definition dividend_heavy_pool : list raw_etf :=
  [sample_raw "D1" "DIV" 0.08 0.04 0.12 3; sample_raw "D2" "DIV" 0.08 0.04 0.12 3;
   sample_raw "D3" "DIV" 0.08 0.04 0.12 3; sample_raw "D4" "DIV" 0.08 0.04 0.12 3;
   sample_raw "D5" "DIV" 0.08 0.04 0.12 3; sample_raw "D6" "DIV" 0.08 0.04 0.12 3;
   sample_raw "D7" "DIV" 0.08 0.04 0.12 3; sample_raw "D8" "DIV" 0.08 0.04 0.12 3;
   sample_raw "B1" "BND" 0.03 0.03 0.05 2; sample_raw "G1" "GRO" 0.15 0.01 0.25 7].

Definition dividend_profile : profile :=
  {| risk_tolerance := Some "moderate"%string;
     investment_horizon := Some "medium"%string;
     income_needs := Some "medium"%string;
     investment_focus := Some "dividend"%string |}.

(** The number of assets of a category in a list. *)
Definition count_cat (c : string) (l : list etf) : nat :=
  length (filter (fun e => category e = c) l).

(** [category_count] counts the categories of the list built so far. *)
Definition counts_match (category_count : gmap string nat) (l : list etf) : Prop :=
  forall c, count_of category_count c = count_cat c l.

(** The sort key of [select_top_etfs] (lines 407, 418): the distance of an
    asset to the target. *)
Definition target_distance (focus : string) (target_value seed_money : Q) (x : etf) : Q :=
  if is_dividend focus
  then Qabs (dividend_yield x - target_div_yield target_value seed_money)
  else Qabs (cagr_1y x - target_value).

(** An asset that the second pass of the growth branch cannot add: it is
    in the list already or its category is full. *)
Definition covered (selected : list etf) (category_count : gmap string nat) (e : etf) : Prop :=
  etf_in e selected = true \/ (2 <= count_of category_count (category e))%nat.

(** A holding moved to another category, everything else unchanged. *)
Definition with_category (c : string) (p : holding) : holding :=
  {| p_name := p_name p; p_ticker := p_ticker p; p_weight := p_weight p;
     p_invest_amount := p_invest_amount p; p_dividend_yield := p_dividend_yield p;
     p_annual_return := p_annual_return p; p_risk_level := p_risk_level p;
     p_category := c; p_volatility := p_volatility p; p_beta := p_beta p;
     p_expected_monthly_dividend := p_expected_monthly_dividend p;
     p_expected_annual_return_value := p_expected_annual_return_value p;
     p_dividend_quality := p_dividend_quality p;
     p_efficient_frontier := p_efficient_frontier p |}.

(** The categories that the backtest knows. *)
Definition backtest_categories : list string :=
  ["DIV"; "CC"; "BND"; "GRO"; "RE"; "INT"; "COM"; "LC"]%string.

(** The position of a month on the time line. *)
Definition month_index (d : date) : nat := (12 * year d + month d)%nat.

(** A product of numbers. *)
Definition Qprod (l : list Q) : Q := fold_right Qmult 1 l.

(** The monthly returns of the portfolio in the backtest (lines 935-940),
    as [generate_synthetic_backtest] computes them. *)
Definition portfolio_returns_of `{NumPy} (tickers : list string) (weights : list Q)
    (months : list (nat * nat)) : list Q :=
  map (fun i =>
         Qsum (zip_with
                 (fun w t =>
                    w * default 0 (default [] (fill_ticker_returns tickers months 0 ∅ !! t)
                                     !! i))
                 weights tickers))
      (seq 0 (length months)).

(** The ranges in which [generate_mock_data] draws the figures of an asset. *)
Definition mock_ranges (e : etf) : Prop :=
  0.032 <= cagr_1y e /\ cagr_1y e < 0.144
  /\ 0 <= dividend_yield e /\ dividend_yield e < 0.088
  /\ 0.2 <= dividend_quality e /\ dividend_quality e < 1
  /\ 0 <= dividend_growth e /\ dividend_growth e < 0.04
  /\ 0.2 <= dividend_consistency e /\ dividend_consistency e < 1
  /\ 0 <= volatility e /\ max_drawdown e <= -0.1
  /\ beta e == 0.8 + 0.08 * risk_level e.

(** The risk limit of a profile (line 473). *)
Definition max_risk_of (investor_profile : profile) : Q :=
  default 6 (risk_limits !! default "moderate"%string (risk_tolerance investor_profile)).

(** The weight that a portfolio holds in a category. *)
Definition category_weight_of (portfolio : list holding) (c : string) : Q :=
  Qsum (p_weight <$> filter (fun p => p_category p = c) portfolio).

(** * Properties *)

(** ** Sums *)

Lemma fold_left_Qplus_acc (l : list Q) (a : Q) : fold_left Qplus l a == a + Qsum l.
Proof.
  unfold Qsum. revert a.
  induction l as [|x l IH]; intros a; simpl.
  - lra.
  - rewrite IH, (IH (0 + x)). lra.
Qed.

Lemma Qsum_nil : Qsum [] = 0.
Proof. reflexivity. Qed.

Lemma Qsum_cons (x : Q) (l : list Q) : Qsum (x :: l) == x + Qsum l.
Proof. unfold Qsum at 1. simpl. rewrite fold_left_Qplus_acc. lra. Qed.

Lemma Qsum_app (l1 l2 : list Q) : Qsum (l1 ++ l2) == Qsum l1 + Qsum l2.
Proof.
  induction l1 as [|x l1 IH]; simpl.
  - rewrite Qsum_nil. lra.
  - rewrite !Qsum_cons, IH. lra.
Qed.

Lemma Qsum_map_div (l : list Q) (t : Q) : Qsum (map (fun w => w / t) l) == Qsum l / t.
Proof.
  induction l as [|x l IH]; simpl.
  - rewrite Qsum_nil. unfold Qdiv. lra.
  - rewrite !Qsum_cons, IH. unfold Qdiv. lra.
Qed.

Lemma Qsum_map_scale {A} (f : A -> Q) (c : Q) (l : list A) :
  Qsum (map (fun x => c * f x) l) == c * Qsum (map f l).
Proof.
  induction l as [|x l IH]; simpl.
  - rewrite Qsum_nil. lra.
  - rewrite !Qsum_cons, IH. lra.
Qed.

Lemma Qsum_replicate (n : nat) (x : Q) :
  Qsum (replicate n x) == inject_Z (Z.of_nat n) * x.
Proof.
  induction n as [|n IH].
  - cbn [replicate]. rewrite Qsum_nil.
    change (inject_Z (Z.of_nat 0)) with 0. ring.
  - cbn [replicate]. rewrite Qsum_cons, IH, Nat2Z.inj_succ.
    unfold Z.succ. rewrite inject_Z_plus. ring.
Qed.

Lemma Qsum_Permutation (l l' : list Q) : Permutation l l' -> Qsum l == Qsum l'.
Proof.
  induction 1 as [|x l l' _ IH|x y l|l l' l'' _ IH1 _ IH2].
  - reflexivity.
  - rewrite !Qsum_cons, IH. reflexivity.
  - rewrite !Qsum_cons. lra.
  - rewrite IH1. exact IH2.
Qed.

Lemma Qsum_pos (l : list Q) : l <> [] -> Forall (fun x => 0 < x) l -> 0 < Qsum l.
Proof.
  intros Hne Hall. destruct l as [|x l]; [congruence|]. clear Hne.
  revert x Hall. induction l as [|y l IH]; intros x Hall.
  - inversion Hall; subst. rewrite Qsum_cons, Qsum_nil. lra.
  - inversion Hall as [|? ? Hx Hrest]; subst.
    rewrite Qsum_cons. specialize (IH y Hrest). lra.
Qed.

(** ** Booleans of [Q] *)

Lemma Qltb_true (a b : Q) : Qltb a b = true <-> a < b.
Proof.
  unfold Qltb. rewrite negb_true_iff. split.
  - intros Hb. apply Qnot_le_lt. intros Hle. apply Qle_bool_iff in Hle. congruence.
  - intros Hlt. destruct (Qle_bool b a) eqn:E; [|reflexivity].
    apply Qle_bool_iff in E. lra.
Qed.

Lemma Qltb_false (a b : Q) : Qltb a b = false <-> b <= a.
Proof.
  unfold Qltb. rewrite negb_false_iff. apply Qle_bool_iff.
Qed.

Lemma Qeq_bool_false (a b : Q) : ~ a == b -> Qeq_bool a b = false.
Proof.
  intros Hne. destruct (Qeq_bool a b) eqn:E; [|reflexivity].
  apply Qeq_bool_iff in E. contradiction.
Qed.

(** ** Stress test *)

Lemma scenarios_dom : dom scenarios = list_to_set known_scenarios.
Proof.
  unfold scenarios, known_scenarios. cbn [list_to_map foldr list_to_set curry fst snd].
  rewrite !dom_insert_L, dom_empty_L. reflexivity.
Qed.

Lemma scenarios_unknown (s : string) : s ∉ known_scenarios -> scenarios !! s = None.
Proof.
  intros Hs. apply not_elem_of_dom. rewrite scenarios_dom.
  rewrite elem_of_list_to_set. exact Hs.
Qed.

Lemma scenarios_known (s : string) : s ∈ known_scenarios -> is_Some (scenarios !! s).
Proof.
  intros Hs. apply elem_of_dom. rewrite scenarios_dom.
  rewrite elem_of_list_to_set. exact Hs.
Qed.

Lemma Forall2_fmap_diag {A B} (R : A -> B -> Prop) (f : A -> B) (l : list A) :
  (forall x, R x (f x)) -> Forall2 R l (f <$> l).
Proof.
  intros HR. induction l as [|x l IH]; constructor; [apply HR | exact IH].
Qed.

(** C7.  For every portfolio, a scenario name that is not one of the four
    keys of [scenarios] makes [stress_test_portfolio] return the error
    dictionary for that name: no total, no impact and no division is
    computed, also for the empty portfolio, whose report would raise. *)
Theorem stress_test_unknown_scenario (portfolio : list holding) (scenario : string) :
  scenario ∉ known_scenarios ->
  stress_test_portfolio portfolio scenario = Returns (StressError scenario).
Proof.
  intros Hs. unfold stress_test_portfolio.
  rewrite (scenarios_unknown _ Hs). reflexivity.
Qed.

Lemma stress_test_unknown_scenario_witness :
  ("recession"%string ∉ known_scenarios)
  /\ stress_test_portfolio [] "recession" = Returns (StressError "recession").
Proof.
  assert (Hs : "recession"%string ∉ known_scenarios).
  { unfold known_scenarios. rewrite !not_elem_of_cons.
    repeat split; try discriminate. apply not_elem_of_nil. }
  split; [exact Hs | exact (stress_test_unknown_scenario [] "recession" Hs)].
Defined.

(** C5.  For every portfolio and each of the four scenarios, a report of
    the stress test has
    [new_portfolio_value = total_investment + total_value_change], where
    [total_value_change] is the sum of the assets' [value_change], each
    being the invested amount times the asset's [impact]; and a portfolio
    that is not empty does get a report. *)
Theorem stress_test_conservation (portfolio : list holding) (scenario : string) :
  scenario ∈ known_scenarios ->
  (portfolio <> [] ->
   exists r, stress_test_portfolio portfolio scenario = Returns (StressReport r))
  /\ (forall r, stress_test_portfolio portfolio scenario = Returns (StressReport r) ->
      new_portfolio_value r = total_investment r + total_value_change r
      /\ total_investment r = Qsum (p_invest_amount <$> portfolio)
      /\ total_value_change r = Qsum (value_change <$> asset_impacts r)
      /\ Forall2 (fun p a => current_value a = p_invest_amount p
                             /\ value_change a = p_invest_amount p * impact a)
           portfolio (asset_impacts r)).
Proof.
  intros Hs. destruct (scenarios_known _ Hs) as [sp Hsp].
  unfold stress_test_portfolio. rewrite Hsp. split.
  - intros Hne. destruct portfolio as [|p portfolio]; [congruence|].
    eexists. reflexivity.
  - intros r Hr. destruct portfolio as [|p portfolio]; [discriminate Hr|].
    cbn [mbind outcome_bind] in Hr. injection Hr as <-. cbn [new_portfolio_value
      total_investment total_value_change asset_impacts].
    repeat split.
    apply (Forall2_fmap_diag _ (asset_impact_of sp) (p :: portfolio)).
    intros q. split; reflexivity.
Qed.

Lemma stress_test_conservation_witness :
  exists r,
    stress_test_portfolio
      [make_holding 1000 {| ticker := "BND"; name := "Bond"; dividend_yield := 0.03;
                            cagr_1y := 0.04; cagr_3y := 0.04; cagr_5y := 0.04;
                            volatility := 0.05; beta := 1; max_drawdown := -0.1;
                            risk_level := 2; category := "BND"; dividend_quality := 0.5;
                            dividend_growth := 0.02; dividend_consistency := 0.5;
                            profile_score := None |} 1]
      "bear_market" = Returns (StressReport r)
    /\ new_portfolio_value r = total_investment r + total_value_change r.
Proof.
  assert (Hs : "bear_market"%string ∈ known_scenarios) by (left).
  match goal with
  | |- exists r, stress_test_portfolio ?p ?s = _ /\ _ =>
      destruct (stress_test_conservation p s Hs) as [Hex Hall];
      destruct (Hex ltac:(discriminate)) as [r Hr];
      exists r; split; [exact Hr | exact (proj1 (Hall r Hr))]
  end.
Defined.

(** ** Guards of the Monte Carlo simulation and of the backtest *)

Lemma monte_carlo_guard `{NumPy} (portfolio : list holding) (n_sim years : nat) :
  Qsum (p_invest_amount <$> portfolio) <= 0 ->
  monte_carlo_simulation portfolio n_sim years = Returns None.
Proof.
  intros Hle. unfold monte_carlo_simulation.
  apply Qle_bool_iff in Hle. rewrite Hle. reflexivity.
Qed.

Lemma months_loop_nonempty (fuel : nat) (start end_ : date) :
  date_leb start end_ = true -> months_loop (S fuel) start end_ <> [].
Proof. intros Hle. cbn [months_loop]. rewrite Hle. discriminate. Qed.

Lemma months_of_nonempty (start end_ : date) :
  date_leb start end_ = true -> months_of start end_ <> [].
Proof.
  intros Hle. unfold months_of.
  replace (12 * (year end_ - year start) + 13)%nat
    with (S (12 * (year end_ - year start) + 12)) by lia.
  now apply months_loop_nonempty.
Qed.

Lemma next_month_valid (current : date) :
  (1 <= month current <= 12)%nat ->
  (1 <= month (next_month current) <= 12)%nat
  /\ (12 * year (next_month current) + month (next_month current)
      = 12 * year current + month current + 1)%nat.
Proof.
  intros Hm. unfold next_month.
  destruct (month current =? 12)%nat eqn:E; cbn [year month].
  - apply Nat.eqb_eq in E. lia.
  - apply Nat.eqb_neq in E. lia.
Qed.

Lemma date_leb_past (current end_ : date) :
  (month current <= 12)%nat ->
  (12 * year end_ + month end_ < 12 * year current + month current)%nat ->
  date_leb current end_ = false.
Proof.
  intros Hm Hlt. unfold date_leb.
  destruct (year current <? year end_)%nat eqn:E1; [apply Nat.ltb_lt in E1; lia|].
  destruct (year current =? year end_)%nat eqn:E2; [|reflexivity].
  apply Nat.eqb_eq in E2.
  destruct (month current <? month end_)%nat eqn:E3; [apply Nat.ltb_lt in E3; lia|].
  destruct (month current =? month end_)%nat eqn:E4; [apply Nat.eqb_eq in E4; lia|].
  reflexivity.
Qed.

(** The [while] loop of lines 842-848 ends: once the fuel covers the
    months from [current] to [end_], more fuel changes nothing. *)
Lemma months_loop_enough_fuel (fuel fuel' : nat) (current end_ : date) :
  (1 <= month current <= 12)%nat ->
  (12 * year end_ + month end_ + 1 <= fuel + (12 * year current + month current))%nat ->
  (fuel <= fuel')%nat ->
  months_loop fuel' current end_ = months_loop fuel current end_.
Proof.
  revert fuel' current. induction fuel as [|fuel IH]; intros fuel' current Hm Hfuel Hle.
  - cbn [months_loop]. destruct fuel' as [|fuel']; [reflexivity|].
    cbn [months_loop]. rewrite date_leb_past by lia. reflexivity.
  - destruct fuel' as [|fuel']; [lia|]. cbn [months_loop].
    destruct (date_leb current end_); [|reflexivity].
    destruct (next_month_valid current Hm) as [Hm' Hnext].
    f_equal. apply IH; [exact Hm' | lia | lia].
Qed.

Lemma months_of_enough_fuel (fuel : nat) (start end_ : date) :
  (1 <= month start <= 12)%nat -> (month end_ <= 12)%nat ->
  (12 * (year end_ - year start) + 13 <= fuel)%nat ->
  months_loop fuel start end_ = months_of start end_.
Proof.
  intros Hs He Hfuel. unfold months_of.
  destruct (Nat.le_gt_cases (year start) (year end_)) as [Hy|Hy].
  - apply months_loop_enough_fuel; [exact Hs | lia | exact Hfuel].
  - assert (Hpast : date_leb start end_ = false) by (apply date_leb_past; lia).
    replace (12 * (year end_ - year start) + 13)%nat with 13%nat by lia.
    destruct fuel as [|fuel]; [lia|]. cbn [months_loop]. rewrite Hpast. reflexivity.
Qed.

Section BacktestFacts.
Context `{NumPy}.

Lemma cumulate_length (rets : list Q) (last : Q) :
  length (cumulate last rets) = length rets.
Proof.
  revert last. induction rets as [|r rets IH]; intros last; simpl; [|rewrite IH]; reflexivity.
Qed.

Lemma cumulate_ones (rets : list Q) (last : Q) :
  last == 1 -> Forall (fun r => r == 0) rets ->
  Forall (fun c => c == 1) (cumulate last rets).
Proof.
  revert last. induction rets as [|r rets IH]; intros last Hlast Hall; simpl.
  - constructor.
  - inversion Hall as [|? ? Hr Hrest]; subst.
    assert (Hnext : last * (1 + r) == 1) by (rewrite Hlast, Hr; ring).
    constructor; [exact Hnext | apply IH; assumption].
Qed.

Lemma drawdown_loop_ones (values : list Q) (peak max_drawdown : Q) :
  peak == 1 -> Forall (fun c => c == 1) values ->
  exists d, drawdown_loop values peak max_drawdown = Returns d.
Proof.
  revert peak max_drawdown.
  induction values as [|v values IH]; intros peak md Hpeak Hall; simpl.
  - eexists. reflexivity.
  - inversion Hall as [|? ? Hv Hrest]; subst.
    set (peak' := if Qltb peak v then v else peak).
    assert (Hpeak' : peak' == 1) by (unfold peak'; destruct (Qltb peak v); assumption).
    rewrite Qeq_bool_false by (rewrite Hpeak'; discriminate).
    apply IH; assumption.
Qed.

Lemma rows_Forall (P1 P2 : Q -> Prop) (months : list (nat * nat)) (rets cums : list Q) :
  Forall P1 rets -> Forall P2 cums ->
  Forall (fun row => P1 (row_return row) /\ P2 (row_cumulative row))
    (zip_with (fun m rc => {| row_date := m; row_return := rc.1;
                              row_cumulative := rc.2 |})
       months (zip rets cums)).
Proof.
  intros H1. revert months cums.
  induction H1 as [|r rets Hr _ IH]; intros months cums H2.
  - destruct months; constructor.
  - destruct H2 as [|c cums Hc H2]; [destruct months; constructor|].
    destruct months as [|m months]; [constructor|].
    cbn. constructor; [split; assumption | apply IH; assumption].
Qed.

(** The backtest has no guard for an empty portfolio: it walks through
    every month with a portfolio return of 0. *)
Lemma backtest_empty_portfolio (start_date end_date : date) :
  date_leb start_date end_date = true ->
  exists r,
    backtest_portfolio [] start_date end_date = Returns r
    /\ length (return_series r) = length (months_of start_date end_date)
    /\ return_series r <> []
    /\ Forall (fun row => row_return row == 0 /\ row_cumulative row == 1)
         (return_series r).
Proof.
  intros Hle. pose proof (months_of_nonempty _ _ Hle) as Hne.
  unfold backtest_portfolio, generate_synthetic_backtest.
  cbn [fmap list_fmap length Nat.ltb Nat.leb].
  destruct (months_of start_date end_date) as [|m months] eqn:Em; [congruence|].
  set (rets := map _ (seq 0 (length (m :: months)))).
  assert (Hrets : Forall (fun r => r == 0) rets).
  { unfold rets. apply Forall_forall. intros r Hr.
    apply list_elem_of_In, in_map_iff in Hr. destruct Hr as [i [<- _]].
    reflexivity. }
  assert (Hlen : length rets = length (m :: months)).
  { unfold rets. rewrite length_map, length_seq. reflexivity. }
  assert (Hcums : Forall (fun c => c == 1) (cumulate 1 rets))
    by (apply cumulate_ones; [reflexivity | exact Hrets]).
  assert (Hhd : List.hd 0 (cumulate 1 rets) == 1).
  { destruct rets as [|r rets']; [discriminate Hlen|].
    inversion Hcums; subst. assumption. }
  destruct (drawdown_loop_ones (cumulate 1 rets) (List.hd 0 (cumulate 1 rets)) 0 Hhd Hcums)
    as [d Hd].
  rewrite Hd. cbn [mbind outcome_bind].
  eexists. split; [reflexivity|]. cbn [return_series].
  assert (Hrows : length (zip_with (fun m0 rc => {| row_date := m0; row_return := rc.1;
                                                    row_cumulative := rc.2 |})
                            (m :: months) (zip rets (cumulate 1 rets)))
                  = length (m :: months)).
  { rewrite length_zip_with, length_zip_with, cumulate_length, Hlen. lia. }
  split; [exact Hrows|]. split.
  - intros Hnil. rewrite Hnil in Hrows. discriminate Hrows.
  - apply (rows_Forall (fun r => r == 0) (fun c => c == 1)); assumption.
Qed.
End BacktestFacts.

(** C6, as the code has it.  The Monte Carlo simulation returns [None]
    whenever the invested total is not positive, the empty portfolio
    included.  The backtest has no such guard: for the empty portfolio and
    a start date not after the end date it returns a full result, one row a
    month, every monthly return 0 and every cumulative value 1; it raises
    nothing, and the Sharpe quotient by a zero deviation is a NumPy
    quotient, not an exception. *)
Theorem empty_portfolio_guards `{NumPy} :
  (forall portfolio n_sim years,
      Qsum (p_invest_amount <$> portfolio) <= 0 ->
      monte_carlo_simulation portfolio n_sim years = Returns None)
  /\ (forall n_sim years, monte_carlo_simulation [] n_sim years = Returns None)
  /\ (forall start_date end_date,
        date_leb start_date end_date = true ->
        exists r,
          backtest_portfolio [] start_date end_date = Returns r
          /\ length (return_series r) = length (months_of start_date end_date)
          /\ return_series r <> []
          /\ Forall (fun row => row_return row == 0 /\ row_cumulative row == 1)
               (return_series r)).
Proof.
  split; [|split].
  - intros portfolio n_sim years. apply monte_carlo_guard.
  - intros n_sim years. apply monte_carlo_guard. change (0 <= 0). lra.
  - apply backtest_empty_portfolio.
Qed.

Lemma empty_portfolio_guards_witness :
  monte_carlo_simulation (H := sample_numpy) [] 1000 10 = Returns None
  /\ exists r,
      backtest_portfolio (H := sample_numpy) []
        {| year := 2018; month := 1; day := 1 |} {| year := 2018; month := 3; day := 1 |}
      = Returns r
      /\ return_series r <> [].
Proof.
  destruct (@empty_portfolio_guards sample_numpy) as [_ [Hmc Hbt]].
  split; [exact (Hmc 1000%nat 10%nat)|].
  destruct (Hbt {| year := 2018; month := 1; day := 1 |}
                {| year := 2018; month := 3; day := 1 |} eq_refl) as [r [Hr [_ [Hne _]]]].
  exists r. split; [exact Hr | exact Hne].
Defined.

(** The claim C6 fails on the backtest: for the empty portfolio over
    January to March 2018 the result is not an empty one, it has three
    rows. *)
Lemma backtest_empty_portfolio_not_short_circuited :
  exists r,
    backtest_portfolio (H := sample_numpy) []
      {| year := 2018; month := 1; day := 1 |} {| year := 2018; month := 3; day := 1 |}
    = Returns r
    /\ length (return_series r) = 3%nat
    /\ total_return r == 0.
Proof.
  eexists. split; [vm_compute; reflexivity|].
  cbn [return_series total_return length].
  repeat split.
Qed.

(** ** Weight vectors of the optimizers *)

Lemma weights_okb_iff (w : list Q) : weights_okb w = true <-> weights_ok w.
Proof.
  unfold weights_okb, weights_ok, in_box.
  rewrite andb_true_iff, forallb_forall, Qle_bool_iff, Forall_forall.
  split; intros [Hbox Hsum]; (split; [|exact Hsum]); intros x Hx.
  - apply list_elem_of_In in Hx. specialize (Hbox x Hx).
    apply andb_true_iff in Hbox. rewrite !Qle_bool_iff in Hbox. exact Hbox.
  - apply list_elem_of_In in Hx. specialize (Hbox x Hx).
    apply andb_true_iff. rewrite !Qle_bool_iff. exact Hbox.
Qed.

Lemma Z_of_len_bounds {A} (l : list A) (lo hi : nat) :
  (lo <= length l <= hi)%nat ->
  inject_Z (Z.of_nat lo) <= Z_of_len l /\ Z_of_len l <= inject_Z (Z.of_nat hi).
Proof.
  intros [Hlo Hhi]. unfold Z_of_len. rewrite <- !Zle_Qle. lia.
Qed.

Lemma initial_weights_sum (n : nat) : (0 < n)%nat -> Qsum (initial_weights n) == 1.
Proof.
  intros Hn. unfold initial_weights. rewrite Qsum_replicate.
  assert (Hz : 0 < inject_Z (Z.of_nat n)).
  { change 0 with (inject_Z 0). rewrite <- Zlt_Qlt. lia. }
  field. lra.
Qed.

Lemma initial_weights_ok (n : nat) : (3 <= n <= 20)%nat -> weights_ok (initial_weights n).
Proof.
  intros [Hlo Hhi]. split.
  - unfold initial_weights. apply Forall_replicate.
    assert (H3 : 3 <= inject_Z (Z.of_nat n)).
    { change 3 with (inject_Z 3). rewrite <- Zle_Qle. lia. }
    assert (H20 : inject_Z (Z.of_nat n) <= 20).
    { change 20 with (inject_Z 20). rewrite <- Zle_Qle. lia. }
    split.
    + apply Qle_shift_div_l; lra.
    + apply Qle_shift_div_r; lra.
  - pose proof (initial_weights_sum n ltac:(lia)) as Hs.
    apply Qabs_Qle_condition. lra.
Qed.

Lemma bounds_in_box (x : list Q) (n : nat) :
  Forall2 (fun xi b => b.1 <= xi /\ xi <= b.2) x (bounds n) -> Forall in_box x.
Proof.
  unfold bounds. revert x. induction n as [|n IH]; intros x Hx; cbn [replicate] in Hx.
  - inversion Hx. constructor.
  - inversion Hx as [|xi b x' bs Hxi Hrest]; subst.
    constructor; [exact Hxi | apply IH; exact Hrest].
Qed.

Lemma box_sum_le (x : list Q) : Forall in_box x -> Qsum x <= 0.4 * Z_of_len x.
Proof.
  unfold Z_of_len. induction 1 as [|xi x [_ Hhi] _ IH].
  - rewrite Qsum_nil. change (inject_Z (Z.of_nat (length (@nil Q)))) with 0. lra.
  - rewrite Qsum_cons. cbn [length]. rewrite Nat2Z.inj_succ.
    unfold Z.succ. rewrite inject_Z_plus. change (inject_Z 1) with 1. lra.
Qed.

Section OptimizerFacts.
Context `{NumPy} (minimize : minimizer).

Lemma slsqp_cases (objective : list Q -> Q) (n : nat) (warning : message) :
  (exists x,
      minimize objective (initial_weights n) (bounds n) sum_constraint = OptimizeResult x true
      /\ slsqp minimize objective n warning = (x, []))
  \/ (solver_failed (minimize objective (initial_weights n) (bounds n) sum_constraint)
      /\ exists log, slsqp minimize objective n warning = (initial_weights n, log)).
Proof.
  unfold slsqp.
  destruct (minimize objective (initial_weights n) (bounds n) sum_constraint)
    as [x [|]|].
  - left. exists x. split; reflexivity.
  - right. split; [exact I | eexists; reflexivity].
  - right. split; [exact I | eexists; reflexivity].
Qed.

(** The dispatch on a candidate set that is not empty is one call of
    the solver on the method's objective, or the equal weights. *)
Lemma optimized_weights_unfold (top_etfs : list etf) (focus : string)
    (seed_money target_value : Q) (optimization_method : string) :
  top_etfs <> [] ->
  match method_objective top_etfs focus seed_money target_value optimization_method with
  | Some objective =>
      exists warning,
        optimized_weights minimize top_etfs focus seed_money target_value optimization_method
        = Returns (slsqp minimize objective (length top_etfs) warning)
  | None =>
      optimized_weights minimize top_etfs focus seed_money target_value optimization_method
      = Returns (initial_weights (length top_etfs), [])
  end.
Proof.
  intros Hne. destruct top_etfs as [|e top]; [congruence|].
  unfold method_objective, optimized_weights.
  destruct (String.eqb optimization_method "sharpe"); [eexists; reflexivity|].
  destruct (String.eqb optimization_method "risk_parity"); [eexists; reflexivity|].
  destruct (String.eqb optimization_method "min_variance"); [eexists; reflexivity|].
  destruct (String.eqb optimization_method "target_return").
  - destruct (is_dividend focus); eexists; reflexivity.
  - reflexivity.
Qed.

Lemma method_objective_unknown (top_etfs : list etf) (focus : string)
    (seed_money target_value : Q) (optimization_method : string) :
  optimization_method ∉ known_methods ->
  method_objective top_etfs focus seed_money target_value optimization_method = None.
Proof.
  unfold known_methods. rewrite !not_elem_of_cons. intros (H1 & H2 & H3 & H4 & _).
  unfold method_objective.
  apply String.eqb_neq in H1, H2, H3, H4. rewrite H1, H2, H3, H4. reflexivity.
Qed.

(** Under the bounds and the sum constraint, a sound solver cannot
    report a success for one or two assets: 0.4 + 0.4 < 1. *)
Lemma sound_solver_fails_small (objective : list Q -> Q) (n : nat) :
  solver_sound minimize -> (n <= 2)%nat ->
  solver_failed (minimize objective (initial_weights n) (bounds n) sum_constraint).
Proof.
  intros Hsound Hn.
  destruct (minimize objective (initial_weights n) (bounds n) sum_constraint)
    as [x [|]|] eqn:E; try exact I.
  destruct (Hsound _ _ _ _ _ E) as (Hlen & Hbox & Hsum).
  apply bounds_in_box in Hbox. apply box_sum_le in Hbox.
  unfold initial_weights in Hlen. rewrite length_replicate in Hlen.
  assert (Hz : Z_of_len x <= 2).
  { unfold Z_of_len. change 2 with (inject_Z 2). rewrite <- Zle_Qle. lia. }
  unfold sum_constraint in Hsum. apply Qabs_Qle_condition in Hsum. cbn. lra.
Qed.
End OptimizerFacts.

(** C3.  For a candidate set of [n] assets: when the method is outside
    the four known names, or when the call of the solver that the method
    makes does not converge or raises, the weights are exactly [[1/n] * n]
    and nothing is raised.  The candidate set is not empty, as inside
    [recommend_portfolio], or the method is one of the four, whose
    optimizers return the empty vector for no candidates. *)
Theorem fallback_equal_weights `{NumPy} (minimize : minimizer) (top_etfs : list etf)
    (focus : string) (seed_money target_value : Q) (optimization_method : string) :
  top_etfs <> [] \/ optimization_method ∈ known_methods ->
  (optimization_method ∉ known_methods)
  \/ (exists objective,
         method_objective top_etfs focus seed_money target_value optimization_method
         = Some objective
         /\ solver_failed (minimize objective (initial_weights (length top_etfs))
                             (bounds (length top_etfs)) sum_constraint)) ->
  exists log,
    optimized_weights minimize top_etfs focus seed_money target_value optimization_method
    = Returns (replicate (length top_etfs) (1 / Z_of_len top_etfs), log).
Proof.
  intros Hdom Hcase.
  destruct top_etfs as [|e top].
  - destruct Hdom as [Hne|Hknown]; [congruence|].
    exists []. unfold known_methods in Hknown.
    rewrite !elem_of_cons in Hknown.
    destruct Hknown as [->|[->|[->|[->|Hnil]]]];
      [reflexivity | reflexivity | reflexivity | | inversion Hnil].
    unfold optimized_weights. cbn [String.eqb Ascii.eqb Bool.eqb].
    destruct (is_dividend focus); reflexivity.
  - pose proof (optimized_weights_unfold minimize (e :: top) focus seed_money target_value
                  optimization_method ltac:(discriminate)) as Hun.
    destruct Hcase as [Hunknown | (objective & Hobj & Hfail)].
    + rewrite (method_objective_unknown _ _ _ _ _ Hunknown) in Hun.
      exists []. exact Hun.
    + rewrite Hobj in Hun. destruct Hun as [warning Hun]. rewrite Hun.
      destruct (slsqp_cases minimize objective (length (e :: top)) warning)
        as [(x & Hx & _) | (_ & log & Hlog)].
      * rewrite Hx in Hfail. contradiction.
      * exists log. rewrite Hlog. reflexivity.
Qed.

Lemma fallback_equal_weights_witness :
  exists log,
    optimized_weights (H := sample_numpy) failing_minimize
      [sample_etf "A" "DIV" 0.06 0.15; sample_etf "B" "GRO" 0.08 0.20; sample_etf "C" "BND" 0.03 0.05]
      "growth" 1000 0.1 "sharpe"
    = Returns (replicate 3 (1 / inject_Z 3), log).
Proof.
  apply (@fallback_equal_weights sample_numpy failing_minimize
           [sample_etf "A" "DIV" 0.06 0.15; sample_etf "B" "GRO" 0.08 0.20;
            sample_etf "C" "BND" 0.03 0.05]
           "growth" 1000 0.1 "sharpe").
  - left. discriminate.
  - right. eexists. split; [reflexivity | exact I].
Defined.

Lemma feasible_start_minimize_sound : solver_sound feasible_start_minimize.
Proof.
  intros objective x0 bnds constraint x Hx. unfold feasible_start_minimize in Hx.
  injection Hx as <- Hok.
  apply andb_true_iff in Hok. destruct Hok as [Hok Hsum].
  apply andb_true_iff in Hok. destruct Hok as [Hlen Hbox].
  apply Nat.eqb_eq in Hlen. apply Qle_bool_iff in Hsum.
  split; [reflexivity|]. split; [|exact Hsum].
  clear Hsum. revert bnds Hlen Hbox.
  induction x0 as [|xi x0 IH]; intros [|b bnds] Hlen Hbox; try discriminate Hlen.
  - constructor.
  - cbn in Hbox. apply andb_true_iff in Hbox. destruct Hbox as [Hb Hrest].
    apply andb_true_iff in Hb. rewrite !Qle_bool_iff in Hb.
    constructor; [exact Hb|]. apply IH; [now injection Hlen | exact Hrest].
Qed.

(** C1, as the code has it.  For a candidate set of 3 to 20 assets, and a
    solver whose successes respect the bounds and the sum constraint,
    every method, the fallback to the initial weights and the
    unknown-method branch included, yields one weight per asset, each in
    [0.05, 0.40], with a sum within 1e-6 of 1. *)
Theorem optimizer_weights_in_box `{NumPy} (minimize : minimizer) (top_etfs : list etf)
    (focus : string) (seed_money target_value : Q) (optimization_method : string) :
  solver_sound minimize ->
  (3 <= length top_etfs <= 20)%nat ->
  exists w log,
    optimized_weights minimize top_etfs focus seed_money target_value optimization_method
    = Returns (w, log)
    /\ length w = length top_etfs
    /\ weights_ok w.
Proof.
  intros Hsound Hn.
  assert (Hne : top_etfs <> []) by (destruct top_etfs; [cbn in Hn; lia | discriminate]).
  pose proof (optimized_weights_unfold minimize top_etfs focus seed_money target_value
                optimization_method Hne) as Hun.
  assert (Hinit : length (initial_weights (length top_etfs)) = length top_etfs)
    by (unfold initial_weights; apply length_replicate).
  destruct (method_objective top_etfs focus seed_money target_value optimization_method)
    as [objective|].
  - destruct Hun as [warning Hun]. rewrite Hun.
    destruct (slsqp_cases minimize objective (length top_etfs) warning)
      as [(x & Hx & Hres) | (_ & log & Hlog)].
    + exists x, []. split; [rewrite Hres; reflexivity|].
      destruct (Hsound _ _ _ _ _ Hx) as (Hlen & Hbox & Hsum).
      split; [rewrite Hlen; exact Hinit|].
      split; [exact (bounds_in_box _ _ Hbox) | exact Hsum].
    + exists (initial_weights (length top_etfs)), log.
      split; [rewrite Hlog; reflexivity|].
      split; [exact Hinit | exact (initial_weights_ok _ Hn)].
  - exists (initial_weights (length top_etfs)), [].
    split; [exact Hun|]. split; [exact Hinit | exact (initial_weights_ok _ Hn)].
Qed.

Lemma optimizer_weights_in_box_witness :
  exists w log,
    optimized_weights (H := sample_numpy) feasible_start_minimize
      [sample_etf "A" "DIV" 0.06 0.15; sample_etf "B" "GRO" 0.08 0.20;
       sample_etf "C" "BND" 0.03 0.05]
      "growth" 1000 0.1 "min_variance"
    = Returns (w, log)
    /\ length w = 3%nat
    /\ weights_ok w.
Proof.
  apply (@optimizer_weights_in_box sample_numpy feasible_start_minimize
           [sample_etf "A" "DIV" 0.06 0.15; sample_etf "B" "GRO" 0.08 0.20;
            sample_etf "C" "BND" 0.03 0.05]
           "growth" 1000 0.1 "min_variance").
  - exact feasible_start_minimize_sound.
  - cbn [length]. lia.
Defined.

(** The claim C1 fails for one and for two candidates: the unknown-method
    branch gives a single asset the weight 1, and a known method whose
    solver does not converge gives two assets 0.5 each; both are above
    0.40. *)
Lemma equal_weights_outside_box :
  (exists log,
      optimized_weights (H := sample_numpy) failing_minimize
        [sample_etf "A" "DIV" 0.06 0.15] "growth" 1000 0.1 "equal"
      = Returns ([1 / 1], log)
      /\ weights_okb [1 / 1] = false /\ 0.4 < 1 / 1)
  /\ (exists log,
         optimized_weights (H := sample_numpy) failing_minimize
           [sample_etf "A" "DIV" 0.06 0.15; sample_etf "B" "GRO" 0.08 0.20]
           "growth" 1000 0.1 "min_variance"
         = Returns ([1 / 2; 1 / 2], log)
         /\ weights_okb [1 / 2; 1 / 2] = false /\ 0.4 < 1 / 2).
Proof.
  split; eexists; (split; [reflexivity|]); split; reflexivity.
Qed.

(** C8.  For the two candidates A (return 0.06, volatility 0.15) and
    B (return 0.08, volatility 0.20), and a solver whose successes respect
    the bounds and the sum constraint, [optimize_min_variance] gives A a
    weight that is not below the weight of B: two weights of at most 0.40
    cannot sum to 1, so the initial weights are returned. *)
Theorem min_variance_two_assets (minimize : minimizer) (a b : etf) :
  solver_sound minimize ->
  cagr_1y a == 0.06 -> volatility a == 0.15 ->
  cagr_1y b == 0.08 -> volatility b == 0.20 ->
  exists wa wb log,
    optimize_min_variance minimize [a; b] = ([wa; wb], log) /\ wb <= wa.
Proof.
  intros Hsound _ _ _ _. unfold optimize_min_variance.
  destruct (slsqp_cases minimize (portfolio_variance (cov_matrix (volatility <$> [a; b])))
              (length [a; b]) st_warning_min_variance)
    as [(x & Hx & _) | (_ & log & Hlog)].
  - pose proof (sound_solver_fails_small minimize
                  (portfolio_variance (cov_matrix (volatility <$> [a; b])))
                  (length [a; b]) Hsound ltac:(cbn; lia)) as Hfail.
    rewrite Hx in Hfail. contradiction.
  - rewrite Hlog. cbn [length initial_weights replicate].
    eexists _, _, log. split; [reflexivity | apply Qle_refl].
Qed.

Lemma min_variance_two_assets_witness :
  exists wa wb log,
    optimize_min_variance feasible_start_minimize
      [sample_etf "A" "LC" 0.06 0.15; sample_etf "B" "LC" 0.08 0.20]
    = ([wa; wb], log) /\ wb <= wa.
Proof.
  apply (min_variance_two_assets feasible_start_minimize
           (sample_etf "A" "LC" 0.06 0.15) (sample_etf "B" "LC" 0.08 0.20)).
  - exact feasible_start_minimize_sound.
  - reflexivity.
  - reflexivity.
  - reflexivity.
  - reflexivity.
Defined.

(** ** Sorting keeps the elements *)

Lemma sort_insert_Permutation {A} (ltb : Q -> Q -> bool) (key : A -> Q) (x : A) (l : list A) :
  Permutation (sort_insert ltb key x l) (x :: l).
Proof.
  induction l as [|y l IH]; simpl.
  - reflexivity.
  - destruct (ltb (key y) (key x)).
    + rewrite IH. apply perm_swap.
    + reflexivity.
Qed.

Lemma sort_by_Permutation {A} (ltb : Q -> Q -> bool) (key : A -> Q) (l : list A) :
  Permutation (sort_by ltb key l) l.
Proof.
  induction l as [|x l IH]; simpl.
  - reflexivity.
  - rewrite sort_insert_Permutation. now constructor.
Qed.

Lemma sort_by_length {A} (ltb : Q -> Q -> bool) (key : A -> Q) (l : list A) :
  length (sort_by ltb key l) = length l.
Proof. apply Permutation_length, sort_by_Permutation. Qed.

Lemma sort_by_nonempty {A} (ltb : Q -> Q -> bool) (key : A -> Q) (l : list A) :
  l <> [] -> sort_by ltb key l <> [].
Proof.
  intros Hne Hnil. apply Hne. apply length_zero_iff_nil.
  rewrite <- (sort_by_length ltb key), Hnil. reflexivity.
Qed.

(** ** The candidate set is never empty *)

Lemma dividend_pass_extends (l : list etf) (cc : gmap string nat) (selected : list etf) :
  exists suffix, (dividend_pass l cc selected).1 = selected ++ suffix.
Proof.
  revert cc selected. induction l as [|e l IH]; intros cc selected; cbn [dividend_pass growth_pass growth_fill top_pass extra_pass diversity_pass fst].
  - exists []. now rewrite app_nil_r.
  - destruct (count_of cc (category e) <? 3)%nat.
    + destruct (IH (count_incr cc (category e)) (selected ++ [e])) as [suffix Hs].
      exists (e :: suffix). rewrite Hs, <- app_assoc. reflexivity.
    + apply IH.
Qed.

Lemma growth_pass_extends (l : list etf) (cc : gmap string nat) (selected : list etf) :
  exists suffix, (growth_pass l cc selected).1 = selected ++ suffix.
Proof.
  revert cc selected. induction l as [|e l IH]; intros cc selected; cbn [dividend_pass growth_pass growth_fill top_pass extra_pass diversity_pass fst].
  - exists []. now rewrite app_nil_r.
  - destruct (5 <=? length selected)%nat; [exists []; now rewrite app_nil_r|].
    destruct (count_of cc (category e) <? 2)%nat.
    + destruct (IH (count_incr cc (category e)) (selected ++ [e])) as [suffix Hs].
      exists (e :: suffix). rewrite Hs, <- app_assoc. reflexivity.
    + apply IH.
Qed.

Lemma growth_fill_extends (l : list etf) (cc : gmap string nat) (selected : list etf) :
  exists suffix, (growth_fill l cc selected).1 = selected ++ suffix.
Proof.
  revert cc selected. induction l as [|e l IH]; intros cc selected; cbn [dividend_pass growth_pass growth_fill top_pass extra_pass diversity_pass fst].
  - exists []. now rewrite app_nil_r.
  - destruct (negb (etf_in e selected) && (count_of cc (category e) <? 2)%nat).
    + destruct (3 <=? length (selected ++ [e]))%nat.
      * exists [e]. reflexivity.
      * destruct (IH (count_incr cc (category e)) (selected ++ [e])) as [suffix Hs].
        exists (e :: suffix). rewrite Hs, <- app_assoc. reflexivity.
    + apply IH.
Qed.

Lemma top_pass_extends (dividend : bool) (l : list etf) (cc : gmap string nat)
    (top_etfs : list etf) :
  exists suffix, (top_pass dividend l cc top_etfs).1 = top_etfs ++ suffix.
Proof.
  revert cc top_etfs. induction l as [|e l IH]; intros cc top_etfs; cbn [dividend_pass growth_pass growth_fill top_pass extra_pass diversity_pass fst].
  - exists []. now rewrite app_nil_r.
  - destruct (8 <=? length top_etfs)%nat; [exists []; now rewrite app_nil_r|].
    destruct (dividend && (3 <=? count_of cc (category e))%nat).
    + apply IH.
    + destruct (IH (count_incr cc (category e)) (top_etfs ++ [e])) as [suffix Hs].
      exists (e :: suffix). rewrite Hs, <- app_assoc. reflexivity.
Qed.

Lemma extra_pass_extends (dividend : bool) (l : list etf) (cc : gmap string nat)
    (top_etfs : list etf) (extra_needed : nat) :
  exists suffix, extra_pass dividend l cc top_etfs extra_needed = top_etfs ++ suffix.
Proof.
  revert cc top_etfs extra_needed.
  induction l as [|e l IH]; intros cc top_etfs extra_needed; cbn [dividend_pass growth_pass growth_fill top_pass extra_pass diversity_pass fst].
  - exists []. now rewrite app_nil_r.
  - destruct ((8 <=? length top_etfs)%nat
              || dividend && (3 <=? count_of cc (category e))%nat);
      [exists []; now rewrite app_nil_r|].
    destruct (extra_needed - 1 <=? 0)%nat; [exists [e]; reflexivity|].
    destruct (IH (count_incr cc (category e)) (top_etfs ++ [e]) (extra_needed - 1)%nat)
      as [suffix Hs].
    exists (e :: suffix). rewrite Hs, <- app_assoc. reflexivity.
Qed.

Lemma diversity_pass_extends (l : list etf) (cats : gset string) (selected : list etf) :
  exists suffix, diversity_pass l cats selected = selected ++ suffix.
Proof.
  revert cats selected. induction l as [|e l IH]; intros cats selected; cbn [dividend_pass growth_pass growth_fill top_pass extra_pass diversity_pass fst].
  - exists []. now rewrite app_nil_r.
  - destruct ((3 <=? size cats)%nat || (8 <=? length selected)%nat);
      [exists []; now rewrite app_nil_r|].
    destruct (IH ({[category e]} ∪ cats) (selected ++ [e])) as [suffix Hs].
    exists (e :: suffix). rewrite Hs, <- app_assoc. reflexivity.
Qed.

Lemma count_of_empty (c : string) : count_of ∅ c = 0%nat.
Proof. unfold count_of. rewrite lookup_empty. reflexivity. Qed.

Lemma select_top_etfs_nonempty (valid_etfs : list etf) (focus : string)
    (target_value seed_money : Q) :
  valid_etfs <> [] -> select_top_etfs valid_etfs focus target_value seed_money <> [].
Proof.
  intros Hne. unfold select_top_etfs.
  set (distance := fun x : etf => if is_dividend focus then _ else _).
  pose proof (sort_by_nonempty Qltb distance valid_etfs Hne) as Hsorted.
  fold (sort_ascending distance valid_etfs) in Hsorted.
  destruct (sort_ascending distance valid_etfs) as [|e sorted] eqn:Es; [congruence|].
  set (valid' := if is_dividend focus then _ else _).
  assert (Hvalid' : exists rest, valid' = e :: rest).
  { unfold valid'. destruct (is_dividend focus).
    - cbn [dividend_pass]. rewrite count_of_empty.
      change (0 <? 3)%nat with true. cbv iota.
      destruct (dividend_pass_extends sorted (count_incr ∅ (category e)) ([] ++ [e]))
        as [suffix Hs].
      rewrite Hs. eexists. reflexivity.
    - cbn [growth_pass length]. rewrite count_of_empty.
      change (5 <=? 0)%nat with false. change (0 <? 2)%nat with true. cbv iota.
      destruct (growth_pass_extends sorted (count_incr ∅ (category e)) ([] ++ [e]))
        as [suffix Hs].
      destruct (growth_pass sorted (count_incr ∅ (category e)) ([] ++ [e]))
        as [selected cc] eqn:Eg.
      cbn [fst] in Hs. subst selected.
      destruct (length (([] ++ [e]) ++ suffix) <? 3)%nat.
      + destruct (growth_fill_extends (e :: sorted) cc (([] ++ [e]) ++ suffix))
          as [suffix' Hs'].
        rewrite Hs'. eexists. reflexivity.
      + eexists. reflexivity. }
  destruct Hvalid' as [rest ->].
  cbn [top_pass length]. rewrite count_of_empty.
  change (8 <=? 0)%nat with false. change (3 <=? 0)%nat with false.
  rewrite andb_false_r. cbv iota.
  destruct (top_pass_extends (is_dividend focus) rest (count_incr ∅ (category e)) ([] ++ [e]))
    as [suffix Hs].
  destruct (top_pass (is_dividend focus) rest (count_incr ∅ (category e)) ([] ++ [e]))
    as [top_etfs cc] eqn:Et.
  cbn [fst] in Hs. subst top_etfs.
  destruct (length (([] ++ [e]) ++ suffix) <? 3)%nat.
  - match goal with
    | |- extra_pass ?d ?l ?c ?t ?n <> [] =>
        destruct (extra_pass_extends d l c t n) as [suffix' Hs']; rewrite Hs'
    end.
    discriminate.
  - discriminate.
Qed.

Lemma select_etfs_by_profile_nonempty (valid_etfs : list etf) (investor_profile : profile)
    (target_value seed_money : Q) :
  valid_etfs <> [] ->
  select_etfs_by_profile valid_etfs investor_profile target_value seed_money <> [].
Proof.
  intros Hne. unfold select_etfs_by_profile.
  set (scored := map _ valid_etfs).
  assert (Hscored : scored <> []) by (unfold scored; destruct valid_etfs; [congruence|discriminate]).
  pose proof (sort_by_nonempty (fun a b => Qltb b a) score_key scored Hscored) as Hsorted.
  fold (sort_descending score_key scored) in Hsorted.
  destruct (sort_descending score_key scored) as [|e sorted]; [congruence|].
  cbn [take].
  match goal with
  | |- (if ?c then diversity_pass ?l ?cats ?sel else _) <> [] =>
      destruct c; [destruct (diversity_pass_extends l cats sel) as [suffix Hs]; rewrite Hs|]
  end; discriminate.
Qed.

(** ** Errors of the selection *)

Lemma filter_valid_etfs_length (etf_list : list raw_etf) :
  length (filter_valid_etfs etf_list) = length (List.filter passes_validity etf_list).
Proof.
  induction etf_list as [|r l IH]; [reflexivity|].
  cbn [filter_valid_etfs foldr List.filter]. fold (filter_valid_etfs l).
  unfold passes_validity at 1, Qltb.
  destruct (Qle_bool (default 0 (raw_cagr_1y r)) 0); cbn [negb length]; congruence.
Qed.

Lemma slsqp_log (minimize : minimizer) (objective : list Q -> Q) (n : nat)
    (warning : message) :
  is_st_error warning = false ->
  Forall (fun m => is_st_error m = false) (slsqp minimize objective n warning).2.
Proof.
  intros Hw. unfold slsqp.
  destruct (minimize objective (initial_weights n) (bounds n) sum_constraint) as [x [|]|];
    cbn [snd]; repeat constructor. exact Hw.
Qed.

Lemma optimized_weights_log `{NumPy} (minimize : minimizer) (top_etfs : list etf)
    (focus : string) (seed_money target_value : Q) (optimization_method : string)
    (result : list Q * list message) :
  optimized_weights minimize top_etfs focus seed_money target_value optimization_method
  = Returns result ->
  Forall (fun m => is_st_error m = false) result.2.
Proof.
  unfold optimized_weights, optimize_weights_sharpe, optimize_risk_parity,
    optimize_min_variance, optimize_target_dividend, optimize_target_return.
  intros Hw. destruct top_etfs as [|e top];
    repeat match type of Hw with
           | context [if ?c then _ else _] => destruct c
           end;
    try discriminate Hw; injection Hw as <-;
    first [ apply slsqp_log; reflexivity | constructor ].
Qed.

(** C2, as the code has it.  The validity filter keeps the assets whose
    1-year return is strictly positive.  [recommend_portfolio] shows its
    error message, and returns the empty portfolio, when no asset passes
    the filter; when at least one passes, one or two included, it shows no
    error and goes on with a candidate set that is not empty. *)
Theorem recommend_error_only_without_valid `{NumPy} (minimize : minimizer)
    (etf_list : list raw_etf) (focus : string) (seed_money target_value : Q)
    (investor_profile : option profile) (optimization_method : string) :
  length (filter_valid_etfs etf_list) = length (List.filter passes_validity etf_list)
  /\ (filter_valid_etfs etf_list = [] ->
      recommend_portfolio minimize etf_list focus seed_money target_value
        investor_profile optimization_method
      = (Returns [], [st_error_no_valid_etfs]))
  /\ (filter_valid_etfs etf_list <> [] ->
      Forall (fun m => is_st_error m = false)
        (recommend_portfolio minimize etf_list focus seed_money target_value
           investor_profile optimization_method).2
      /\ select_candidates (filter_valid_etfs etf_list) focus seed_money target_value
           investor_profile <> []).
Proof.
  split; [apply filter_valid_etfs_length|]. split.
  - intros Hnil. unfold recommend_portfolio. rewrite Hnil. reflexivity.
  - intros Hne. split.
    + unfold recommend_portfolio.
      destruct (filter_valid_etfs etf_list) as [|e valid] eqn:Ev; [congruence|].
      destruct (optimized_weights minimize _ focus seed_money target_value optimization_method)
        as [[w log]|err] eqn:Ew; cbn [snd].
      * exact (optimized_weights_log _ _ _ _ _ _ _ Ew).
      * constructor.
    + unfold select_candidates.
      destruct investor_profile as [pr|].
      * destruct (profile_truthy (Some pr)).
        -- now apply select_etfs_by_profile_nonempty.
        -- now apply select_top_etfs_nonempty.
      * now apply select_top_etfs_nonempty.
Qed.

Lemma recommend_error_only_without_valid_witness :
  recommend_portfolio (H := sample_numpy) failing_minimize
    [sample_raw "X" "DIV" (-0.02) 0.03 0.1 3] "growth" 1000000 0.1 None "sharpe"
  = (Returns [], [st_error_no_valid_etfs]).
Proof.
  apply (@recommend_error_only_without_valid sample_numpy failing_minimize
           [sample_raw "X" "DIV" (-0.02) 0.03 0.1 3] "growth" 1000000 0.1 None "sharpe").
  reflexivity.
Defined.

(** The claim C2 fails with two valid assets out of three: no error is
    shown and a portfolio of the two assets is returned. *)
Lemma two_valid_assets_no_error :
  length (List.filter passes_validity
            [sample_raw "A" "DIV" 0.06 0.03 0.15 3; sample_raw "B" "GRO" 0.08 0.01 0.20 6;
             sample_raw "X" "BND" (-0.02) 0.03 0.1 3]) = 2%nat
  /\ exists h1 h2,
      recommend_portfolio (H := sample_numpy) failing_minimize
        [sample_raw "A" "DIV" 0.06 0.03 0.15 3; sample_raw "B" "GRO" 0.08 0.01 0.20 6;
         sample_raw "X" "BND" (-0.02) 0.03 0.1 3]
        "growth" 1000000 0.1 None "sharpe"
      = (Returns [h1; h2], []).
Proof.
  split; [reflexivity|]. eexists _, _. vm_compute. reflexivity.
Qed.

(** ** Efficient frontier *)

Lemma max_by_spec {A} (key : A -> Q) (first : A) (rest : list A) :
  max_by key first rest ∈ first :: rest
  /\ Forall (fun y => key y <= key (max_by key first rest)) (first :: rest).
Proof.
  unfold max_by. revert first.
  induction rest as [|y rest IH]; intros first; cbn [fold_left].
  - split; [left | constructor; [apply Qle_refl | constructor]].
  - destruct (Qltb (key first) (key y)) eqn:E.
    + destruct (IH y) as [Hin Hall]. split; [right; exact Hin|].
      apply Qltb_true in E. inversion Hall as [|? ? Hy _]; subst.
      constructor; [lra | exact Hall].
    + destruct (IH first) as [Hin Hall]. split.
      * apply elem_of_cons in Hin. destruct Hin as [-> | Hin]; [left | right; right; exact Hin].
      * apply Qltb_false in E. inversion Hall as [|? ? Hf Hrest]; subst.
        constructor; [exact Hf|]. constructor; [lra | exact Hrest].
Qed.

Lemma min_by_spec {A} (key : A -> Q) (first : A) (rest : list A) :
  min_by key first rest ∈ first :: rest
  /\ Forall (fun y => key (min_by key first rest) <= key y) (first :: rest).
Proof.
  unfold min_by. revert first.
  induction rest as [|y rest IH]; intros first; cbn [fold_left].
  - split; [left | constructor; [apply Qle_refl | constructor]].
  - destruct (Qltb (key y) (key first)) eqn:E.
    + destruct (IH y) as [Hin Hall]. split; [right; exact Hin|].
      apply Qltb_true in E. inversion Hall as [|? ? Hy _]; subst.
      constructor; [lra | exact Hall].
    + destruct (IH first) as [Hin Hall]. split.
      * apply elem_of_cons in Hin. destruct Hin as [-> | Hin]; [left | right; right; exact Hin].
      * apply Qltb_false in E. inversion Hall as [|? ? Hf Hrest]; subst.
        constructor; [exact Hf|]. constructor; [lra | exact Hrest].
Qed.

Lemma mapM_Returns {A B} (f : A -> outcome B) (P : B -> Prop) (l : list A) :
  (forall x, x ∈ l -> exists y, f x = Returns y /\ P y) ->
  exists ys, mapM f l = Returns ys /\ length ys = length l /\ Forall P ys.
Proof.
  induction l as [|x l IH]; intros Hf.
  - exists []. repeat split. constructor.
  - destruct (Hf x ltac:(left)) as (y & Hy & HP).
    destruct IH as (ys & Hys & Hlen & Hall); [intros z Hz; apply Hf; now right|].
    exists (y :: ys). cbn [mapM]. rewrite Hy. cbn [mbind outcome_bind].
    rewrite Hys. cbn [mbind outcome_bind mret outcome_ret].
    repeat split; [cbn; congruence | constructor; assumption].
Qed.

Section FrontierFacts.
Context `{NumPy}.

Lemma random_portfolio_sum (etfs : list etf) (i : nat) :
  etfs <> [] ->
  (forall k, 0 < np_random_random k) ->
  exists p, random_portfolio etfs i = Returns p
            /\ Qsum (fp_weights p) == 1
            /\ length (fp_weights p) = length etfs.
Proof.
  intros Hne Hpos. unfold random_portfolio.
  set (raw := random_draw (length etfs) i).
  assert (Hlen : length raw = length etfs)
    by (unfold raw, random_draw; rewrite length_map, length_seq; reflexivity).
  assert (Hraw : 0 < Qsum raw).
  { apply Qsum_pos.
    - intros Hnil. rewrite Hnil in Hlen. destruct etfs; [congruence | discriminate Hlen].
    - unfold raw, random_draw. apply Forall_forall. intros x Hx.
      apply list_elem_of_In, in_map_iff in Hx. destruct Hx as [j [<- _]]. apply Hpos. }
  rewrite Qeq_bool_false by lra.
  eexists. split; [reflexivity|]. cbn [fp_weights]. split.
  - rewrite Qsum_map_div. field. lra.
  - rewrite length_map. exact Hlen.
Qed.

(** C9.  With fewer than two candidates the sampler returns the empty
    result.  With two or more, and a random stream of positive numbers,
    it returns 100 portfolios whose weight vectors each sum to 1; the
    reported [max_sharpe] is one of them and no sampled portfolio has a
    larger Sharpe ratio, and the reported [min_volatility] is one of
    them and none has a smaller volatility. *)
Theorem frontier_sampler (etfs : list etf) :
  ((length etfs < 2)%nat -> generate_efficient_frontier etfs 100 = Returns None)
  /\ ((2 <= length etfs)%nat ->
      (forall k, 0 < np_random_random k) ->
      exists d,
        generate_efficient_frontier etfs 100 = Returns (Some d)
        /\ length (portfolios d) = 100%nat
        /\ Forall (fun p => Qsum (fp_weights p) == 1
                            /\ length (fp_weights p) = length etfs) (portfolios d)
        /\ max_sharpe d ∈ portfolios d
        /\ Forall (fun p => fp_sharpe p <= fp_sharpe (max_sharpe d)) (portfolios d)
        /\ min_volatility d ∈ portfolios d
        /\ Forall (fun p => fp_volatility (min_volatility d) <= fp_volatility p)
             (portfolios d)).
Proof.
  unfold generate_efficient_frontier. split.
  - intros Hlt. apply Nat.ltb_lt in Hlt. rewrite Hlt. reflexivity.
  - intros Hge Hpos.
    assert (Hlt : (length etfs <? 2)%nat = false) by (apply Nat.ltb_ge; exact Hge).
    rewrite Hlt.
    assert (Hne : etfs <> []) by (destruct etfs; [cbn in Hge; lia | discriminate]).
    destruct (mapM_Returns (random_portfolio etfs)
                (fun p => Qsum (fp_weights p) == 1 /\ length (fp_weights p) = length etfs)
                (seq 0 100)) as (results & Hres & Hlen & Hall).
    { intros i _. destruct (random_portfolio_sum etfs i Hne Hpos) as (p & Hp & Hs).
      exists p. split; assumption. }
    rewrite Hres. cbn [mbind outcome_bind].
    rewrite length_seq in Hlen.
    destruct results as [|r rs]; [discriminate Hlen|].
    eexists. split; [reflexivity|].
    cbn [portfolios max_sharpe min_volatility].
    destruct (max_by_spec fp_sharpe r rs) as [Hmax_in Hmax].
    destruct (min_by_spec fp_volatility r rs) as [Hmin_in Hmin].
    repeat split; assumption.
Qed.
End FrontierFacts.

Lemma frontier_sampler_witness :
  exists d,
    generate_efficient_frontier (H := sample_numpy)
      [sample_etf "A" "DIV" 0.06 0.15; sample_etf "B" "GRO" 0.08 0.20] 100
    = Returns (Some d)
    /\ length (portfolios d) = 100%nat
    /\ max_sharpe d ∈ portfolios d
    /\ min_volatility d ∈ portfolios d.
Proof.
  destruct (@frontier_sampler sample_numpy
              [sample_etf "A" "DIV" 0.06 0.15; sample_etf "B" "GRO" 0.08 0.20])
    as [_ Hsample].
  destruct (Hsample ltac:(cbn; lia) ltac:(intros k; reflexivity))
    as (d & Hd & Hlen & _ & Hmax & _ & Hmin & _).
  exists d. repeat split; assumption.
Defined.

(** ** Holdings built from the weights *)

Lemma invest_amounts (etfs : list etf) (weights : list Q) (seed_money : Q) :
  length weights = length etfs ->
  p_invest_amount <$> zip_with (make_holding seed_money) etfs weights
  = map (fun w => seed_money * w) weights.
Proof.
  revert weights. induction etfs as [|e etfs IH]; intros [|w weights] Hlen;
    try discriminate Hlen; [reflexivity|].
  cbn. f_equal. apply IH. now injection Hlen.
Qed.

Lemma normalized_weights_length (weights weights' : list Q) :
  normalized_weights weights = Returns weights' -> length weights' = length weights.
Proof.
  unfold normalized_weights.
  destruct (Qltb 0.000001 (Qabs (Qsum weights - 1)));
    [destruct weights as [|w ws]; [|destruct (Qeq_bool (Qsum (w :: ws)) 0)]|];
    intros E; try discriminate E; injection E as <-;
    cbn [length]; rewrite ?length_map; reflexivity.
Qed.

Lemma build_portfolio_invested (etfs : list etf) (weights : list Q) (seed_money : Q)
    (portfolio : list holding) :
  length weights = length etfs ->
  build_portfolio etfs weights seed_money = Returns portfolio ->
  exists weights',
    normalized_weights weights = Returns weights'
    /\ length portfolio = length weights'
    /\ Qsum (p_invest_amount <$> portfolio) == seed_money * Qsum weights'.
Proof.
  intros Hlen. unfold build_portfolio.
  destruct (normalized_weights weights) as [weights'|err] eqn:En; [|discriminate].
  cbn [mbind outcome_bind]. intros Hp. injection Hp as <-.
  exists weights'. split; [reflexivity|].
  assert (Hlen' : length weights' = length etfs)
    by (rewrite (normalized_weights_length _ _ En); exact Hlen).
  split.
  - unfold sort_descending. rewrite sort_by_length, length_zip_with. lia.
  - rewrite (Qsum_Permutation _ (p_invest_amount <$>
                                   zip_with (make_holding seed_money) etfs weights')).
    + rewrite invest_amounts by exact Hlen'.
      rewrite (Qsum_map_scale (fun w => w) seed_money weights'), map_id. reflexivity.
    + unfold sort_descending. apply Permutation_map, sort_by_Permutation.
Qed.

(** C10, as the code has it.  For a candidate list that is not empty,
    positive weights of the same length and any capital, the builder
    returns one holding per candidate; when the weights' sum is further
    than 1e-6 from 1 they are renormalized and the invested amounts sum to
    the capital, and otherwise the invested total differs from the capital
    by at most [|capital| * 1e-6]. *)
Theorem build_portfolio_total (etfs : list etf) (weights : list Q) (seed_money : Q) :
  etfs <> [] ->
  length weights = length etfs ->
  Forall (fun w => 0 < w) weights ->
  exists portfolio,
    build_portfolio etfs weights seed_money = Returns portfolio
    /\ length portfolio = length etfs
    /\ (0.000001 < Qabs (Qsum weights - 1) ->
        Qsum (p_invest_amount <$> portfolio) == seed_money)
    /\ (Qabs (Qsum weights - 1) <= 0.000001 ->
        Qabs (Qsum (p_invest_amount <$> portfolio) - seed_money)
        <= Qabs seed_money * 0.000001).
Proof.
  intros Hne Hlen Hpos.
  assert (Hwne : weights <> []).
  { intros Hnil. rewrite Hnil in Hlen. destruct etfs; [congruence | discriminate Hlen]. }
  pose proof (Qsum_pos weights Hwne Hpos) as Htotal.
  assert (Hnorm : exists weights',
             normalized_weights weights = Returns weights'
             /\ (0.000001 < Qabs (Qsum weights - 1) -> Qsum weights' == 1)
             /\ (Qabs (Qsum weights - 1) <= 0.000001 -> weights' = weights)).
  { unfold normalized_weights.
    destruct (Qltb 0.000001 (Qabs (Qsum weights - 1))) eqn:E.
    - destruct weights as [|w ws]; [congruence|].
      rewrite Qeq_bool_false by lra.
      eexists. split; [reflexivity|]. split.
      + intros _. rewrite Qsum_map_div. field. lra.
      + intros Hle. apply Qltb_true in E. lra.
    - exists weights. split; [reflexivity|]. split.
      + intros Hlt. apply Qltb_false in E. lra.
      + reflexivity. }
  destruct Hnorm as (weights' & Hw' & Hfar & Hnear).
  destruct (build_portfolio etfs weights seed_money) as [portfolio|err] eqn:Eb.
  - destruct (build_portfolio_invested _ _ _ _ Hlen Eb) as (w2 & Hw2 & Hplen & Hsum).
    rewrite Hw' in Hw2. injection Hw2 as <-.
    exists portfolio. split; [reflexivity|]. split.
    + rewrite Hplen, (normalized_weights_length _ _ Hw'). exact Hlen.
    + split.
      * intros Hlt. rewrite Hsum, (Hfar Hlt). ring.
      * intros Hle. rewrite Hsum, (Hnear Hle).
        setoid_replace (seed_money * Qsum weights - seed_money)
          with (seed_money * (Qsum weights - 1)) using relation Qeq by ring.
        rewrite Qabs_Qmult.
        rewrite (Qmult_comm (Qabs seed_money)), (Qmult_comm (Qabs seed_money)).
        apply Qmult_le_compat_r; [exact Hle | apply Qabs_nonneg].
  - unfold build_portfolio in Eb. rewrite Hw' in Eb. discriminate Eb.
Qed.

Lemma build_portfolio_total_witness :
  exists portfolio,
    build_portfolio
      [sample_etf "A" "DIV" 0.06 0.15; sample_etf "B" "GRO" 0.08 0.20;
       sample_etf "C" "BND" 0.03 0.05] [0.5; 0.75; 0.25] 1000000
    = Returns portfolio
    /\ length portfolio = 3%nat
    /\ Qsum (p_invest_amount <$> portfolio) == 1000000.
Proof.
  destruct (build_portfolio_total
              [sample_etf "A" "DIV" 0.06 0.15; sample_etf "B" "GRO" 0.08 0.20;
               sample_etf "C" "BND" 0.03 0.05] [0.5; 0.75; 0.25] 1000000
              ltac:(discriminate) eq_refl
              ltac:(repeat constructor))
    as (portfolio & Hp & Hlen & Hfar & _).
  exists portfolio. split; [exact Hp|]. split; [exact Hlen|].
  apply Hfar. reflexivity.
Defined.

(** The claim C10 fails for the empty candidate list: the portfolio is
    empty, its invested amounts sum to 0, and 0 is further from a capital
    of 1000 than the tolerance. *)
Lemma build_portfolio_empty_total :
  build_portfolio [] [] 1000 = Returns []
  /\ Qsum (p_invest_amount <$> []) == 0
  /\ 1000 * 0.000001 < Qabs (Qsum (p_invest_amount <$> []) - 1000).
Proof. repeat split. Qed.

(** ** Selection by profile *)

(** The loop that should add assets of missing categories never adds one:
    it is entered only when some valid asset was left out, that is when
    eight assets are already selected, and it leaves at once when eight
    are selected. *)
Lemma select_etfs_by_profile_top8 (valid_etfs : list etf) (investor_profile : profile)
    (target_value seed_money : Q) :
  select_etfs_by_profile valid_etfs investor_profile target_value seed_money
  = take 8 (sort_descending score_key
              (map (fun e => with_profile_score e
                               (final_score investor_profile target_value seed_money e))
                   valid_etfs)).
Proof.
  unfold select_etfs_by_profile.
  set (scored := map _ valid_etfs).
  set (selected := take 8 (sort_descending score_key scored)).
  destruct ((size (categories selected) <? 3)%nat
            && (length selected <? length valid_etfs)%nat) eqn:E; [|reflexivity].
  apply andb_true_iff in E. destruct E as [_ Hlt]. apply Nat.ltb_lt in Hlt.
  assert (Hlen : length selected = 8%nat).
  { unfold selected in *. rewrite length_take in *.
    unfold sort_descending in *. rewrite sort_by_length in *.
    unfold scored in *. rewrite length_map in *. lia. }
  match goal with
  | |- diversity_pass ?l _ _ = _ => destruct l as [|e l']
  end; cbn [diversity_pass]; [reflexivity|].
  rewrite Hlen. rewrite orb_true_r. reflexivity.
Qed.

(** X2.  The selection by profile is the first eight assets in the order
    of their scores, whatever their categories. *)
Theorem profile_selection_is_top_eight (valid_etfs : list etf) (investor_profile : profile)
    (target_value seed_money : Q) :
  select_etfs_by_profile valid_etfs investor_profile target_value seed_money
  = take 8 (sort_descending score_key
              (map (fun e => with_profile_score e
                               (final_score investor_profile target_value seed_money e))
                   valid_etfs))
  /\ (length (select_etfs_by_profile valid_etfs investor_profile target_value seed_money)
      <= 8)%nat.
Proof.
  split; [apply select_etfs_by_profile_top8|].
  rewrite select_etfs_by_profile_top8, length_take. lia.
Qed.

(** C4 on the profile path, at a pool that breaks it.  The ten valid
    assets of [dividend_heavy_pool] span three categories; the eight
    candidates selected for a dividend-seeking profile are the eight
    dividend funds, one category only. *)
Theorem profile_selection_one_category :
  length (filter_valid_etfs dividend_heavy_pool) = 10%nat
  /\ size (categories (filter_valid_etfs dividend_heavy_pool)) = 3%nat
  /\ profile_truthy (Some dividend_profile) = true
  /\ length (select_candidates (filter_valid_etfs dividend_heavy_pool) "dividend"
               10000000 50000 (Some dividend_profile)) = 8%nat
  /\ size (categories (select_candidates (filter_valid_etfs dividend_heavy_pool) "dividend"
                         10000000 50000 (Some dividend_profile))) = 1%nat
  /\ ticker <$> select_candidates (filter_valid_etfs dividend_heavy_pool) "dividend"
                  10000000 50000 (Some dividend_profile)
     = ["D1"; "D2"; "D3"; "D4"; "D5"; "D6"; "D7"; "D8"]%string.
Proof. repeat split; vm_compute; reflexivity. Qed.

(** ** Selection by focus: categories *)

Lemma count_cat_app (c : string) (l1 l2 : list etf) :
  count_cat c (l1 ++ l2) = (count_cat c l1 + count_cat c l2)%nat.
Proof. unfold count_cat. rewrite filter_app, length_app. reflexivity. Qed.

Lemma count_cat_cons (c : string) (e : etf) (l : list etf) :
  count_cat c (e :: l)
  = ((if decide (category e = c) then 1 else 0) + count_cat c l)%nat.
Proof.
  unfold count_cat. rewrite filter_cons.
  destruct (decide (category e = c)); reflexivity.
Qed.

Lemma counts_match_empty : counts_match ∅ [].
Proof. intros c. rewrite count_of_empty. reflexivity. Qed.

Lemma counts_match_incr (cc : gmap string nat) (l : list etf) (e : etf) :
  counts_match cc l -> counts_match (count_incr cc (category e)) (l ++ [e]).
Proof.
  intros Hm c. rewrite count_cat_app, count_cat_cons. unfold count_incr, count_of at 1.
  destruct (decide (category e = c)) as [<-|Hne].
  - rewrite lookup_insert_eq. cbn [default]. rewrite (Hm (category e)).
    unfold count_cat at 3. cbn. lia.
  - rewrite lookup_insert_ne by exact Hne. fold (count_of cc c). rewrite (Hm c).
    unfold count_cat at 3. cbn. lia.
Qed.

Lemma categories_nil : categories [] = ∅.
Proof. reflexivity. Qed.

Lemma categories_cons (e : etf) (l : list etf) :
  categories (e :: l) = {[category e]} ∪ categories l.
Proof. reflexivity. Qed.

Lemma categories_app (l1 l2 : list etf) :
  categories (l1 ++ l2) = categories l1 ∪ categories l2.
Proof. unfold categories. rewrite fmap_app, list_to_set_app_L. reflexivity. Qed.

Lemma categories_Permutation (l1 l2 : list etf) :
  Permutation l1 l2 -> categories l1 = categories l2.
Proof. intros Hp. unfold categories. now rewrite Hp. Qed.

Lemma elem_of_categories (c : string) (l : list etf) :
  c ∈ categories l <-> (0 < count_cat c l)%nat.
Proof.
  induction l as [|e l IH].
  - rewrite categories_nil. unfold count_cat. cbn. split; [set_solver | lia].
  - rewrite categories_cons, count_cat_cons, elem_of_union, elem_of_singleton, IH.
    destruct (decide (category e = c)) as [Heq|Hne].
    + split; intros _; [lia | left; symmetry; exact Heq].
    + split; intros Hc; [destruct Hc as [Hc|Hc]; [congruence | lia] | right; lia].
Qed.

Lemma size_categories_le_length (l : list etf) : (size (categories l) <= length l)%nat.
Proof.
  induction l as [|e l IH].
  - rewrite categories_nil, size_empty. cbn. lia.
  - rewrite categories_cons, size_union_alt, size_singleton. cbn [length].
    assert (Hsub : categories l ∖ {[category e]} ⊆ categories l)
      by (apply subseteq_difference_l; reflexivity).
    apply subseteq_size in Hsub. lia.
Qed.

Lemma filter_category_union (c : string) (S : gset string) (l : list etf) :
  c ∉ S ->
  length (filter (fun e => category e ∈ {[c]} ∪ S) l)
  = (count_cat c l + length (filter (fun e => category e ∈ S) l))%nat.
Proof.
  intros Hc. induction l as [|e l IH]; [reflexivity|].
  rewrite count_cat_cons, !filter_cons.
  destruct (decide (category e ∈ {[c]} ∪ S)) as [Hin|Hout];
    destruct (decide (category e = c)) as [Heq|Hne];
    destruct (decide (category e ∈ S)) as [HS|HS];
    cbn [length]; try lia; exfalso.
  - apply Hc. rewrite <- Heq. exact HS.
  - apply elem_of_union in Hin. destruct Hin as [Hin|Hin]; [|contradiction].
    apply elem_of_singleton in Hin. contradiction.
  - apply Hout, elem_of_union. left. apply elem_of_singleton. exact Heq.
  - apply Hout, elem_of_union. left. apply elem_of_singleton. exact Heq.
  - apply Hout, elem_of_union. right. exact HS.
Qed.

(** When no category occurs more than [k] times, a list is at most [k]
    times as long as the number of its categories. *)
Lemma length_le_categories (k : nat) (l : list etf) :
  (forall c, (count_cat c l <= k)%nat) ->
  (length l <= k * size (categories l))%nat.
Proof.
  intros Hk.
  assert (Hall : forall S : gset string,
             (length (filter (fun e => category e ∈ S) l) <= k * size S)%nat).
  { intros S. induction S as [|c S Hc IH] using set_ind_L.
    - rewrite size_empty. clear Hk.
      induction l as [|e l IHl]; [cbn; lia|].
      rewrite filter_cons_False by (apply not_elem_of_empty). exact IHl.
    - rewrite filter_category_union by exact Hc.
      rewrite size_union by set_solver. rewrite size_singleton.
      specialize (Hk c). lia. }
  specialize (Hall (categories l)).
  assert (Hfull : filter (fun e => category e ∈ categories l) l = l).
  { assert (Hsub : forall l', l' ⊆ l -> filter (fun e => category e ∈ categories l) l' = l').
    { induction l' as [|e l' IHl']; intros Hl'; [reflexivity|].
      rewrite filter_cons_True.
      - f_equal. apply IHl'. set_solver.
      - unfold categories. rewrite elem_of_list_to_set, list_elem_of_fmap.
        exists e. split; [reflexivity | set_solver]. }
    apply Hsub. reflexivity. }
  rewrite Hfull in Hall. exact Hall.
Qed.

Lemma count_cat_snoc_le (c : string) (cc : gmap string nat) (selected : list etf)
    (e : etf) (k : nat) :
  counts_match cc selected ->
  (forall c', (count_cat c' selected <= k)%nat) ->
  (count_of cc (category e) <? k)%nat = true ->
  (count_cat c (selected ++ [e]) <= k)%nat.
Proof.
  intros Hm Hk Hlt. apply Nat.ltb_lt in Hlt. rewrite (Hm (category e)) in Hlt.
  rewrite count_cat_app, count_cat_cons. unfold count_cat at 2. cbn [filter list_filter length].
  specialize (Hk c). destruct (decide (category e = c)) as [<-|Hne]; lia.
Qed.

Lemma full_category_selected (cc : gmap string nat) (selected : list etf) (e : etf)
    (k : nat) :
  counts_match cc selected -> (0 < k)%nat ->
  (count_of cc (category e) <? k)%nat = false ->
  category e ∈ categories selected.
Proof.
  intros Hm Hk Hge. apply Nat.ltb_ge in Hge. rewrite (Hm (category e)) in Hge.
  apply elem_of_categories. lia.
Qed.

Lemma dividend_pass_spec (l : list etf) (cc : gmap string nat) (selected : list etf) :
  counts_match cc selected ->
  (forall c, (count_cat c selected <= 3)%nat) ->
  (forall c, (count_cat c (dividend_pass l cc selected).1 <= 3)%nat)
  /\ categories (dividend_pass l cc selected).1 = categories selected ∪ categories l.
Proof.
  revert cc selected. induction l as [|e l IH]; intros cc selected Hm Hk;
    cbn [dividend_pass].
  - split; [exact Hk|]. rewrite categories_nil, union_empty_r_L. reflexivity.
  - destruct (count_of cc (category e) <? 3)%nat eqn:E.
    + destruct (IH (count_incr cc (category e)) (selected ++ [e])) as [Hk' Hcats].
      * now apply counts_match_incr.
      * intros c. now apply (count_cat_snoc_le c cc).
      * split; [exact Hk'|]. rewrite Hcats, categories_app, !categories_cons,
          categories_nil, union_empty_r_L, union_assoc_L. reflexivity.
    + destruct (IH cc selected Hm Hk) as [Hk' Hcats].
      split; [exact Hk'|]. rewrite Hcats, categories_cons.
      pose proof (full_category_selected cc selected e 3 Hm ltac:(lia) E) as Hin.
      apply set_eq. intros c. rewrite !elem_of_union, elem_of_singleton.
      split; [intros [Hc|Hc]; [left | right; right]; exact Hc|].
      intros [Hc|[->|Hc]]; [left; exact Hc | left; exact Hin | right; exact Hc].
Qed.

Lemma growth_pass_spec (l : list etf) (cc : gmap string nat) (selected : list etf) :
  counts_match cc selected ->
  (forall c, (count_cat c selected <= 2)%nat) ->
  (length selected <= 5)%nat ->
  (forall c, (count_cat c (growth_pass l cc selected).1 <= 2)%nat)
  /\ (length (growth_pass l cc selected).1 <= 5)%nat
  /\ (length (growth_pass l cc selected).1 = 5%nat
      \/ categories (growth_pass l cc selected).1 = categories selected ∪ categories l).
Proof.
  revert cc selected. induction l as [|e l IH]; intros cc selected Hm Hk Hlen;
    cbn [growth_pass].
  - split; [exact Hk|]. split; [exact Hlen|]. right.
    rewrite categories_nil, union_empty_r_L. reflexivity.
  - destruct (5 <=? length selected)%nat eqn:E5.
    + apply Nat.leb_le in E5. cbn [fst]. split; [exact Hk|]. split; [exact Hlen|]. left. lia.
    + apply Nat.leb_gt in E5.
      destruct (count_of cc (category e) <? 2)%nat eqn:E.
      * destruct (IH (count_incr cc (category e)) (selected ++ [e])) as (Hk' & Hlen' & Hcats).
        -- now apply counts_match_incr.
        -- intros c. now apply (count_cat_snoc_le c cc).
        -- rewrite length_app. cbn. lia.
        -- split; [exact Hk'|]. split; [exact Hlen'|].
           destruct Hcats as [H5|Hcats]; [left; exact H5 | right].
           rewrite Hcats, categories_app, !categories_cons, categories_nil,
             union_empty_r_L, union_assoc_L. reflexivity.
      * destruct (IH cc selected Hm Hk Hlen) as (Hk' & Hlen' & Hcats).
        split; [exact Hk'|]. split; [exact Hlen'|].
        destruct Hcats as [H5|Hcats]; [left; exact H5 | right].
        rewrite Hcats, categories_cons.
        pose proof (full_category_selected cc selected e 2 Hm ltac:(lia) E) as Hin.
        apply set_eq. intros c. rewrite !elem_of_union, elem_of_singleton.
        split; [intros [Hc|Hc]; [left | right; right]; exact Hc|].
        intros [Hc|[->|Hc]]; [left; exact Hc | left; exact Hin | right; exact Hc].
Qed.

(** On a list in which no category occurs more than three times, the
    loop of lines 439-445 skips nothing: it takes the first eight. *)
Lemma top_pass_take (dividend : bool) (l : list etf) (cc : gmap string nat)
    (top_etfs : list etf) :
  counts_match cc top_etfs ->
  (forall c, (count_cat c (top_etfs ++ l) <= 3)%nat) ->
  (top_pass dividend l cc top_etfs).1 = top_etfs ++ take (8 - length top_etfs) l.
Proof.
  revert cc top_etfs. induction l as [|e l IH]; intros cc top_etfs Hm Hk; cbn [top_pass].
  - rewrite take_nil, app_nil_r. reflexivity.
  - destruct (8 <=? length top_etfs)%nat eqn:E8.
    + apply Nat.leb_le in E8. replace (8 - length top_etfs)%nat with 0%nat by lia.
      cbn. rewrite app_nil_r. reflexivity.
    + apply Nat.leb_gt in E8.
      assert (Hskip : (3 <=? count_of cc (category e))%nat = false).
      { apply Nat.leb_gt. rewrite (Hm (category e)).
        specialize (Hk (category e)). rewrite count_cat_app, count_cat_cons in Hk.
        destruct (decide (category e = category e)); [lia | congruence]. }
      rewrite Hskip, andb_false_r.
      rewrite IH.
      * rewrite length_app. cbn [length].
        replace (8 - length top_etfs)%nat with (S (8 - (length top_etfs + 1)))%nat by lia.
        cbn [take]. rewrite <- app_assoc. reflexivity.
      * now apply counts_match_incr.
      * intros c. rewrite <- app_assoc. apply Hk.
Qed.

Lemma count_cat_take_le (c : string) (n : nat) (l : list etf) :
  (count_cat c (take n l) <= count_cat c l)%nat.
Proof.
  rewrite <- (take_drop n l) at 2. rewrite count_cat_app. lia.
Qed.

(** The first eight of a list with at least three categories, none of
    them more than three times, still span three categories. *)
Lemma take_8_diverse (l : list etf) :
  (forall c, (count_cat c l <= 3)%nat) ->
  (3 <= size (categories l))%nat ->
  (3 <= size (categories (take 8 l)))%nat.
Proof.
  intros Hk H3. destruct (Nat.le_gt_cases (length l) 8) as [Hle|Hgt].
  - rewrite take_ge by exact Hle. exact H3.
  - pose proof (length_le_categories 3 (take 8 l)
                  ltac:(intros c; etransitivity; [apply count_cat_take_le | apply Hk]))
      as Hp.
    rewrite length_take_le in Hp by lia. lia.
Qed.

(** X1, the part of C4 that the code keeps: the selection by focus.  For
    every valid pool whose categories are at least three, [select_top_etfs]
    returns at most eight candidates and they span at least three
    categories, for the dividend focus and for any other focus. *)
Theorem select_top_etfs_diverse (valid_etfs : list etf) (focus : string)
    (target_value seed_money : Q) :
  (3 <= size (categories valid_etfs))%nat ->
  (length (select_top_etfs valid_etfs focus target_value seed_money) <= 8)%nat
  /\ (3 <= size (categories (select_top_etfs valid_etfs focus target_value seed_money)))%nat.
Proof.
  intros H3. unfold select_top_etfs.
  set (distance := fun x : etf => if is_dividend focus then _ else _).
  set (sorted := sort_ascending distance valid_etfs).
  assert (Hsorted : categories sorted = categories valid_etfs)
    by (apply categories_Permutation, sort_by_Permutation).
  set (valid' := if is_dividend focus then _ else _).
  assert (Hvalid' : (forall c, (count_cat c valid' <= 3)%nat)
                    /\ (3 <= size (categories valid'))%nat).
  { unfold valid'. destruct (is_dividend focus).
    - destruct (dividend_pass_spec sorted ∅ [] counts_match_empty
                  ltac:(intros c; cbn; lia)) as [Hk Hcats].
      split; [exact Hk|]. rewrite Hcats, categories_nil, union_empty_l_L, Hsorted. exact H3.
    - destruct (growth_pass_spec sorted ∅ [] counts_match_empty
                  ltac:(intros c; cbn; lia) ltac:(cbn; lia)) as (Hk & Hlen & Hcats).
      destruct (growth_pass sorted ∅ []) as [selected cc]. cbn [fst] in Hk, Hlen, Hcats.
      assert (Hsel3 : (3 <= size (categories selected))%nat).
      { destruct Hcats as [H5|Hcats].
        - pose proof (length_le_categories 2 selected Hk). lia.
        - rewrite Hcats, categories_nil, union_empty_l_L, Hsorted. exact H3. }
      pose proof (size_categories_le_length selected) as Hsz.
      assert (Hno_fill : (length selected <? 3)%nat = false) by (apply Nat.ltb_ge; lia).
      rewrite Hno_fill. split; [|exact Hsel3].
      intros c. specialize (Hk c). lia. }
  destruct Hvalid' as [Hk Hcat3].
  pose proof (top_pass_take (is_dividend focus) valid' ∅ [] counts_match_empty Hk) as Htop.
  destruct (top_pass (is_dividend focus) valid' ∅ []) as [top_etfs cc].
  cbn [fst length app] in Htop. rewrite Nat.sub_0_r in Htop. subst top_etfs.
  pose proof (take_8_diverse valid' Hk Hcat3) as Hdiv.
  pose proof (size_categories_le_length (take 8 valid')) as Hsz.
  assert (Hno_extra : (length (take 8 valid') <? 3)%nat = false) by (apply Nat.ltb_ge; lia).
  rewrite Hno_extra. split; [rewrite length_take; lia | exact Hdiv].
Qed.

Lemma select_top_etfs_diverse_witness :
  (length (select_top_etfs (filter_valid_etfs dividend_heavy_pool) "dividend"
             50000 10000000) <= 8)%nat
  /\ (3 <= size (categories (select_top_etfs (filter_valid_etfs dividend_heavy_pool)
                               "dividend" 50000 10000000)))%nat.
Proof.
  apply (select_top_etfs_diverse (filter_valid_etfs dividend_heavy_pool) "dividend"
           50000 10000000).
  vm_compute. lia.
Defined.

(** ** Sorted output of the stable sort *)

Section SortFacts.
Context {A : Type} (ltb : Q -> Q -> bool) (le : Q -> Q -> Prop) (key : A -> Q).
Hypothesis ltb_le : forall a b, ltb a b = true -> le a b.
Hypothesis nltb_le : forall a b, ltb a b = false -> le b a.
Hypothesis le_trans : forall a b c, le a b -> le b c -> le a c.

Lemma sort_insert_StronglySorted (x : A) (l : list A) :
  StronglySorted (fun a b => le (key a) (key b)) l ->
  StronglySorted (fun a b => le (key a) (key b)) (sort_insert ltb key x l).
Proof.
  induction 1 as [|y ys Hss IH Hall]; cbn [sort_insert].
  - constructor; constructor.
  - destruct (ltb (key y) (key x)) eqn:E.
    + constructor; [exact IH|].
      rewrite Forall_forall in Hall. apply Forall_forall. intros z Hz.
      rewrite sort_insert_Permutation in Hz. apply elem_of_cons in Hz.
      destruct Hz as [->|Hz]; [apply ltb_le; exact E | apply Hall; exact Hz].
    + constructor; [constructor; assumption|].
      constructor; [apply nltb_le; exact E|].
      rewrite Forall_forall in Hall. apply Forall_forall. intros z Hz.
      apply (le_trans _ (key y)); [apply nltb_le; exact E | apply Hall; exact Hz].
Qed.

Lemma sort_by_StronglySorted (l : list A) :
  StronglySorted (fun a b => le (key a) (key b)) (sort_by ltb key l).
Proof.
  induction l as [|x l IH]; cbn [sort_by foldr].
  - constructor.
  - apply sort_insert_StronglySorted. exact IH.
Qed.
End SortFacts.

Lemma sort_ascending_sorted {A} (key : A -> Q) (l : list A) :
  StronglySorted (fun a b => key a <= key b) (sort_ascending key l).
Proof.
  apply (sort_by_StronglySorted Qltb Qle key).
  - intros a b Hlt. apply Qltb_true in Hlt. lra.
  - intros a b Hge. apply Qltb_false in Hge. exact Hge.
  - intros a b c. apply Qle_trans.
Qed.

Lemma sort_descending_sorted {A} (key : A -> Q) (l : list A) :
  StronglySorted (fun a b => key b <= key a) (sort_descending key l).
Proof.
  apply (sort_by_StronglySorted (fun a b => Qltb b a) (fun a b => b <= a) key).
  - intros a b Hlt. apply Qltb_true in Hlt. lra.
  - intros a b Hge. apply Qltb_false in Hge. exact Hge.
  - intros a b c Hab Hbc. apply (Qle_trans _ b); assumption.
Qed.

(** ** Selection by focus: what the loops do *)

Lemma etf_eqb_refl (e : etf) : etf_eqb e e = true.
Proof.
  unfold etf_eqb. rewrite !String.eqb_refl.
  rewrite !(proj2 (Qeq_bool_iff _ _) (Qeq_refl _)).
  destruct (profile_score e) as [q|]; cbn [option_Q_eqb andb];
    [apply Qeq_bool_iff; reflexivity | reflexivity].
Qed.

Lemma etf_in_elem (e : etf) (l : list etf) : e ∈ l -> etf_in e l = true.
Proof.
  intros He. unfold etf_in. apply existsb_exists.
  exists e. split; [apply list_elem_of_In; exact He | apply etf_eqb_refl].
Qed.

Lemma etf_in_app_l (e : etf) (l1 l2 : list etf) :
  etf_in e l1 = true -> etf_in e (l1 ++ l2) = true.
Proof. intros He. unfold etf_in in *. rewrite existsb_app, He. reflexivity. Qed.

Lemma count_incr_mono (cc : gmap string nat) (c c' : string) :
  (count_of cc c <= count_of (count_incr cc c') c)%nat.
Proof.
  destruct (decide (c' = c)) as [->|Hne].
  - assert (Heq : count_of (count_incr cc c) c = S (count_of cc c))
      by (unfold count_incr; unfold count_of at 1; rewrite lookup_insert_eq; reflexivity).
    lia.
  - assert (Heq : count_of (count_incr cc c') c = count_of cc c)
      by (unfold count_incr; unfold count_of at 1;
          rewrite lookup_insert_ne by exact Hne; reflexivity).
    lia.
Qed.

Lemma covered_snoc (selected : list etf) (cc : gmap string nat) (e e' : etf) :
  covered selected cc e -> covered (selected ++ [e']) (count_incr cc (category e')) e.
Proof.
  intros [Hin|Hfull]; [left; now apply etf_in_app_l | right].
  pose proof (count_incr_mono cc (category e) (category e')). lia.
Qed.

Lemma growth_pass_covered_mono (l : list etf) (cc : gmap string nat) (selected : list etf)
    (e : etf) :
  covered selected cc e ->
  covered (growth_pass l cc selected).1 (growth_pass l cc selected).2 e.
Proof.
  revert cc selected. induction l as [|e0 l IH]; intros cc selected Hc; cbn [growth_pass].
  - exact Hc.
  - destruct (5 <=? length selected)%nat; [exact Hc|].
    destruct (count_of cc (category e0) <? 2)%nat; [|apply IH; exact Hc].
    apply IH, covered_snoc, Hc.
Qed.

Lemma growth_pass_length (l : list etf) (cc : gmap string nat) (selected : list etf) :
  (length selected <= length (growth_pass l cc selected).1)%nat.
Proof.
  destruct (growth_pass_extends l cc selected) as [suffix Hs].
  rewrite Hs, length_app. lia.
Qed.

(** A first pass that stopped short of five assets looked at every asset:
    each one was taken or its category was full. *)
Lemma growth_pass_covered (l : list etf) (cc : gmap string nat) (selected : list etf) :
  (length (growth_pass l cc selected).1 < 5)%nat ->
  Forall (covered (growth_pass l cc selected).1 (growth_pass l cc selected).2) l.
Proof.
  revert cc selected. induction l as [|e0 l IH]; intros cc selected Hlen;
    cbn [growth_pass] in *; [constructor|].
  destruct (5 <=? length selected)%nat eqn:E5.
  - apply Nat.leb_le in E5. cbn [fst] in Hlen. lia.
  - destruct (count_of cc (category e0) <? 2)%nat eqn:E.
    + constructor; [|apply IH; exact Hlen].
      apply growth_pass_covered_mono. left.
      apply etf_in_elem, elem_of_app. right. left.
    + constructor; [|apply IH; exact Hlen].
      apply growth_pass_covered_mono. right. apply Nat.ltb_ge in E. exact E.
Qed.

(** The pass of lines 428-433 adds nothing after such a first pass. *)
Lemma growth_fill_noop (l : list etf) (cc : gmap string nat) (selected : list etf) :
  Forall (covered selected cc) l -> growth_fill l cc selected = (selected, cc).
Proof.
  induction 1 as [|e l Hc _ IH]; cbn [growth_fill]; [reflexivity|].
  assert (Hcond : negb (etf_in e selected) && (count_of cc (category e) <? 2)%nat = false).
  { destruct Hc as [Hin|Hfull].
    - rewrite Hin. reflexivity.
    - apply andb_false_iff. right. apply Nat.ltb_ge. exact Hfull. }
  rewrite Hcond. exact IH.
Qed.

Lemma growth_branch_selected (sorted : list etf) :
  (let '(selected, category_count) := growth_pass sorted ∅ [] in
   if (length selected <? 3)%nat
   then (growth_fill sorted category_count selected).1
   else selected)
  = (growth_pass sorted ∅ []).1.
Proof.
  pose proof (growth_pass_covered sorted ∅ []) as Hcov.
  destruct (growth_pass sorted ∅ []) as [selected cc]. cbn [fst snd] in *.
  destruct (length selected <? 3)%nat eqn:E; [|reflexivity].
  apply Nat.ltb_lt in E. rewrite growth_fill_noop by (apply Hcov; lia). reflexivity.
Qed.

Lemma not_in_self_nil (l : list etf) :
  filter (fun e => negb (etf_in e l) = true) l = [].
Proof.
  assert (Hgen : forall l', l' ⊆ l -> filter (fun e => negb (etf_in e l) = true) l' = []).
  { induction l' as [|e l' IH]; intros Hsub; [reflexivity|].
    rewrite filter_cons_False.
    - apply IH. intros x Hx. apply Hsub. now right.
    - rewrite etf_in_elem by (apply Hsub; left). discriminate. }
  apply Hgen. reflexivity.
Qed.

(** The capped list of [select_top_etfs]: lines 409-415 for the dividend
    focus, lines 419-434 otherwise. *)
Lemma capped_list_counts (focus : string) (sorted : list etf) :
  forall c,
    (count_cat c (if is_dividend focus then (dividend_pass sorted ∅ []).1
                  else (growth_pass sorted ∅ []).1) <= 3)%nat.
Proof.
  intros c. destruct (is_dividend focus).
  - apply (dividend_pass_spec sorted ∅ [] counts_match_empty). intros c'. cbn. lia.
  - destruct (growth_pass_spec sorted ∅ [] counts_match_empty
                ltac:(intros c'; cbn; lia) ltac:(cbn; lia)) as [Hk _].
    specialize (Hk c). lia.
Qed.

(** The blocks that should fill the selection up to three assets never
    add one: the selection is the first eight of the capped list. *)
Lemma select_top_etfs_normal_form (valid_etfs : list etf) (focus : string)
    (target_value seed_money : Q) :
  select_top_etfs valid_etfs focus target_value seed_money
  = take 8 (if is_dividend focus
            then (dividend_pass
                    (sort_ascending (target_distance focus target_value seed_money)
                       valid_etfs) ∅ []).1
            else (growth_pass
                    (sort_ascending (target_distance focus target_value seed_money)
                       valid_etfs) ∅ []).1).
Proof.
  unfold select_top_etfs.
  change (fun x : etf =>
            if is_dividend focus
            then Qabs (dividend_yield x - target_div_yield target_value seed_money)
            else Qabs (cagr_1y x - target_value))
    with (target_distance focus target_value seed_money).
  set (sorted := sort_ascending (target_distance focus target_value seed_money) valid_etfs).
  rewrite growth_branch_selected.
  set (valid' := if is_dividend focus then _ else _).
  pose proof (top_pass_take (is_dividend focus) valid' ∅ [] counts_match_empty
                (capped_list_counts focus sorted)) as Htop.
  destruct (top_pass (is_dividend focus) valid' ∅ []) as [top_etfs cc].
  cbn [fst length app] in Htop. rewrite Nat.sub_0_r in Htop. subst top_etfs.
  destruct (length (take 8 valid') <? 3)%nat eqn:E; [|reflexivity].
  apply Nat.ltb_lt in E. rewrite length_take in E.
  assert (Hall : take 8 valid' = valid') by (apply take_ge; lia).
  rewrite Hall, not_in_self_nil. reflexivity.
Qed.

Lemma dividend_pass_sublist (l : list etf) (cc : gmap string nat) (selected : list etf) :
  exists taken, (dividend_pass l cc selected).1 = selected ++ taken /\ taken `sublist_of` l.
Proof.
  revert cc selected. induction l as [|e l IH]; intros cc selected; cbn [dividend_pass].
  - exists []. split; [now rewrite app_nil_r | constructor].
  - destruct (count_of cc (category e) <? 3)%nat.
    + destruct (IH (count_incr cc (category e)) (selected ++ [e])) as (taken & Hs & Hsub).
      exists (e :: taken). split; [rewrite Hs, <- app_assoc; reflexivity|].
      now constructor.
    + destruct (IH cc selected) as (taken & Hs & Hsub).
      exists taken. split; [exact Hs | now constructor].
Qed.

Lemma growth_pass_sublist (l : list etf) (cc : gmap string nat) (selected : list etf) :
  exists taken, (growth_pass l cc selected).1 = selected ++ taken /\ taken `sublist_of` l.
Proof.
  revert cc selected. induction l as [|e l IH]; intros cc selected; cbn [growth_pass].
  - exists []. split; [now rewrite app_nil_r | constructor].
  - destruct (5 <=? length selected)%nat.
    + exists []. split; [now rewrite app_nil_r | apply sublist_nil_l].
    + destruct (count_of cc (category e) <? 2)%nat.
      * destruct (IH (count_incr cc (category e)) (selected ++ [e])) as (taken & Hs & Hsub).
        exists (e :: taken). split; [rewrite Hs, <- app_assoc; reflexivity|].
        now constructor.
      * destruct (IH cc selected) as (taken & Hs & Hsub).
        exists taken. split; [exact Hs | now constructor].
Qed.

Lemma capped_list_sublist (focus : string) (sorted : list etf) :
  (if is_dividend focus then (dividend_pass sorted ∅ []).1
   else (growth_pass sorted ∅ []).1) `sublist_of` sorted.
Proof.
  destruct (is_dividend focus).
  - destruct (dividend_pass_sublist sorted ∅ []) as (taken & -> & Hsub). exact Hsub.
  - destruct (growth_pass_sublist sorted ∅ []) as (taken & -> & Hsub). exact Hsub.
Qed.

Lemma count_cat_le_length (c : string) (l : list etf) : (count_cat c l <= length l)%nat.
Proof. apply length_filter. Qed.

Lemma dividend_pass_all (l : list etf) (cc : gmap string nat) (selected : list etf) :
  counts_match cc selected ->
  (length selected + length l <= 3)%nat ->
  (dividend_pass l cc selected).1 = selected ++ l.
Proof.
  revert cc selected. induction l as [|e l IH]; intros cc selected Hm Hlen;
    cbn [dividend_pass length] in *.
  - now rewrite app_nil_r.
  - assert (Htake : (count_of cc (category e) <? 3)%nat = true).
    { apply Nat.ltb_lt. rewrite (Hm (category e)).
      pose proof (count_cat_le_length (category e) selected). lia. }
    rewrite Htake, IH.
    + rewrite <- app_assoc. reflexivity.
    + now apply counts_match_incr.
    + rewrite length_app. cbn [length]. lia.
Qed.

Lemma growth_pass_all (l : list etf) (cc : gmap string nat) (selected : list etf) :
  counts_match cc selected ->
  (length selected + length l <= 2)%nat ->
  (growth_pass l cc selected).1 = selected ++ l.
Proof.
  revert cc selected. induction l as [|e l IH]; intros cc selected Hm Hlen;
    cbn [growth_pass length] in *.
  - now rewrite app_nil_r.
  - assert (H5 : (5 <=? length selected)%nat = false) by (apply Nat.leb_gt; lia).
    assert (Htake : (count_of cc (category e) <? 2)%nat = true).
    { apply Nat.ltb_lt. rewrite (Hm (category e)).
      pose proof (count_cat_le_length (category e) selected). lia. }
    rewrite H5, Htake, IH.
    + rewrite <- app_assoc. reflexivity.
    + now apply counts_match_incr.
    + rewrite length_app. cbn [length]. lia.
Qed.


(** X4.  For every valid pool and focus, the candidates of
    [select_top_etfs] are at most eight assets of the pool, none taken more
    often than it occurs there, with at most three of a category; for a
    focus other than dividend they are at most five, with at most two of a
    category. *)
Theorem select_top_etfs_capped (valid_etfs : list etf) (focus : string)
    (target_value seed_money : Q) :
  (length (select_top_etfs valid_etfs focus target_value seed_money) <= 8)%nat
  /\ select_top_etfs valid_etfs focus target_value seed_money ⊆+ valid_etfs
  /\ (forall c, (count_cat c (select_top_etfs valid_etfs focus target_value seed_money)
                 <= 3)%nat)
  /\ (is_dividend focus = false ->
      (length (select_top_etfs valid_etfs focus target_value seed_money) <= 5)%nat
      /\ forall c, (count_cat c (select_top_etfs valid_etfs focus target_value seed_money)
                    <= 2)%nat).
Proof.
  rewrite select_top_etfs_normal_form.
  set (sorted := sort_ascending (target_distance focus target_value seed_money) valid_etfs).
  split; [rewrite length_take; lia|]. split; [|split].
  - transitivity sorted.
    + apply sublist_submseteq. etransitivity; [apply sublist_take|].
      apply capped_list_sublist.
    + apply Permutation_submseteq, sort_by_Permutation.
  - intros c. etransitivity; [apply count_cat_take_le | apply capped_list_counts].
  - intros Hfocus. rewrite Hfocus.
    destruct (growth_pass_spec sorted ∅ [] counts_match_empty
                ltac:(intros c'; cbn; lia) ltac:(cbn; lia)) as (Hk & Hlen & _).
    split.
    + rewrite length_take. lia.
    + intros c. etransitivity; [apply count_cat_take_le | apply Hk].
Qed.

(** X5.  A valid pool of one or two assets is selected whole, whatever
    the focus: the candidate set is a permutation of the pool. *)
Theorem select_top_etfs_small_pool (valid_etfs : list etf) (focus : string)
    (target_value seed_money : Q) :
  (length valid_etfs <= 2)%nat ->
  select_top_etfs valid_etfs focus target_value seed_money ≡ₚ valid_etfs.
Proof.
  intros Hlen. rewrite select_top_etfs_normal_form.
  set (sorted := sort_ascending (target_distance focus target_value seed_money) valid_etfs).
  assert (Hsorted : length sorted = length valid_etfs) by apply sort_by_length.
  assert (Hall : (if is_dividend focus then (dividend_pass sorted ∅ []).1
                  else (growth_pass sorted ∅ []).1) = sorted).
  { destruct (is_dividend focus).
    - rewrite dividend_pass_all; [reflexivity | apply counts_match_empty | cbn; lia].
    - rewrite growth_pass_all; [reflexivity | apply counts_match_empty | cbn; lia]. }
  rewrite Hall, take_ge by lia. apply sort_by_Permutation.
Qed.

Lemma select_top_etfs_small_pool_witness :
  select_top_etfs [sample_etf "A" "DIV" 0.06 0.15; sample_etf "B" "DIV" 0.08 0.20]
    "growth" 0.1 1000000
  ≡ₚ [sample_etf "A" "DIV" 0.06 0.15; sample_etf "B" "DIV" 0.08 0.20].
Proof.
  apply (select_top_etfs_small_pool
           [sample_etf "A" "DIV" 0.06 0.15; sample_etf "B" "DIV" 0.08 0.20]
           "growth" 0.1 1000000).
  cbn [length]. lia.
Defined.

(** X6.  When the valid pool is not empty, the first candidate of
    [select_top_etfs] is an asset of the pool that is nearest to the target:
    no asset of the pool has a smaller distance (of its dividend yield to
    the target yield for the dividend focus, of its 1-year return to the
    target return otherwise). *)
Theorem select_top_etfs_nearest_first (valid_etfs : list etf) (focus : string)
    (target_value seed_money : Q) :
  valid_etfs <> [] ->
  exists e rest,
    select_top_etfs valid_etfs focus target_value seed_money = e :: rest
    /\ e ∈ valid_etfs
    /\ Forall (fun x => target_distance focus target_value seed_money e
                        <= target_distance focus target_value seed_money x) valid_etfs.
Proof.
  intros Hne. rewrite select_top_etfs_normal_form.
  pose proof (sort_ascending_sorted (target_distance focus target_value seed_money)
                valid_etfs) as Hsorted.
  pose proof (sort_by_Permutation Qltb (target_distance focus target_value seed_money)
                valid_etfs) as Hperm.
  pose proof (sort_by_nonempty Qltb (target_distance focus target_value seed_money)
                valid_etfs Hne) as Hnonempty.
  fold (sort_ascending (target_distance focus target_value seed_money) valid_etfs)
    in Hperm, Hnonempty.
  destruct (sort_ascending (target_distance focus target_value seed_money) valid_etfs)
    as [|e sorted]; [congruence|].
  assert (Hhead : exists rest,
             (if is_dividend focus then (dividend_pass (e :: sorted) ∅ []).1
              else (growth_pass (e :: sorted) ∅ []).1) = e :: rest).
  { destruct (is_dividend focus).
    - cbn [dividend_pass]. rewrite count_of_empty.
      change (0 <? 3)%nat with true. cbv iota.
      destruct (dividend_pass_extends sorted (count_incr ∅ (category e)) ([] ++ [e]))
        as [suffix ->]. eexists. reflexivity.
    - cbn [growth_pass length]. rewrite count_of_empty.
      change (5 <=? 0)%nat with false. change (0 <? 2)%nat with true. cbv iota.
      destruct (growth_pass_extends sorted (count_incr ∅ (category e)) ([] ++ [e]))
        as [suffix ->]. eexists. reflexivity. }
  destruct Hhead as [rest ->].
  exists e, (take 7 rest). split; [reflexivity|]. split.
  - rewrite <- Hperm. left.
  - apply StronglySorted_inv in Hsorted. destruct Hsorted as [_ Hmin].
    rewrite <- Hperm. constructor; [apply Qle_refl | exact Hmin].
Qed.

Lemma select_top_etfs_nearest_first_witness :
  exists e rest,
    select_top_etfs [sample_etf "A" "DIV" 0.06 0.15; sample_etf "B" "GRO" 0.08 0.20]
      "growth" 0.08 1000000 = e :: rest
    /\ e ∈ [sample_etf "A" "DIV" 0.06 0.15; sample_etf "B" "GRO" 0.08 0.20].
Proof.
  destruct (select_top_etfs_nearest_first
              [sample_etf "A" "DIV" 0.06 0.15; sample_etf "B" "GRO" 0.08 0.20]
              "growth" 0.08 1000000 ltac:(discriminate))
    as (e & rest & Hsel & Hin & _).
  exists e, rest. split; assumption.
Defined.

(** X7.  The candidates of [select_etfs_by_profile] are assets of the
    pool, each with its profile score attached, in descending order of
    score; and no asset that was left out has a higher score than a
    selected one. *)
Theorem profile_selection_ranked (valid_etfs : list etf) (investor_profile : profile)
    (target_value seed_money : Q) :
  StronglySorted (fun a b => score_key b <= score_key a)
    (select_etfs_by_profile valid_etfs investor_profile target_value seed_money)
  /\ Forall (fun e => exists v,
                 v ∈ valid_etfs
                 /\ e = with_profile_score v
                          (final_score investor_profile target_value seed_money v))
       (select_etfs_by_profile valid_etfs investor_profile target_value seed_money)
  /\ exists left_out,
      select_etfs_by_profile valid_etfs investor_profile target_value seed_money ++ left_out
      ≡ₚ map (fun v => with_profile_score v
                         (final_score investor_profile target_value seed_money v))
           valid_etfs
      /\ forall a b,
          a ∈ select_etfs_by_profile valid_etfs investor_profile target_value seed_money ->
          b ∈ left_out -> score_key b <= score_key a.
Proof.
  rewrite select_etfs_by_profile_top8.
  set (scored := map _ valid_etfs).
  pose proof (sort_descending_sorted score_key scored) as Hsorted.
  pose proof (sort_by_Permutation (fun a b => Qltb b a) score_key scored) as Hperm.
  fold (sort_descending score_key scored) in Hperm.
  rewrite <- (take_drop 8 (sort_descending score_key scored)) in Hsorted.
  apply StronglySorted_app in Hsorted. destruct Hsorted as (Hcross & Htake & _).
  split; [exact Htake|]. split.
  - apply Forall_forall. intros e He.
    assert (Hin : e ∈ scored).
    { rewrite <- Hperm. rewrite <- (take_drop 8 (sort_descending score_key scored)).
      apply elem_of_app. left. exact He. }
    unfold scored in Hin. apply list_elem_of_In, in_map_iff in Hin.
    destruct Hin as (v & <- & Hv). exists v. split; [apply list_elem_of_In; exact Hv|].
    reflexivity.
  - exists (drop 8 (sort_descending score_key scored)). split.
    + rewrite take_drop. exact Hperm.
    + intros a b Ha Hb. apply (Hcross a b Ha Hb).
Qed.

(** ** Optimizers: small candidate sets and the shape of the result *)

Lemma initial_weights_positive (n : nat) :
  (0 < n)%nat -> Forall (fun w => 0 < w) (initial_weights n).
Proof.
  intros Hn. unfold initial_weights. apply Forall_replicate.
  assert (Hz : 0 < inject_Z (Z.of_nat n)).
  { change 0 with (inject_Z 0). rewrite <- Zlt_Qlt. lia. }
  apply Qlt_shift_div_l; lra.
Qed.

(** For a candidate set that is not empty and a sound solver, the
    dispatch returns one positive weight per candidate. *)
Lemma optimized_weights_positive `{NumPy} (minimize : minimizer) (top_etfs : list etf)
    (focus : string) (seed_money target_value : Q) (optimization_method : string) :
  solver_sound minimize ->
  top_etfs <> [] ->
  exists w log,
    optimized_weights minimize top_etfs focus seed_money target_value optimization_method
    = Returns (w, log)
    /\ length w = length top_etfs
    /\ Forall (fun x => 0 < x) w.
Proof.
  intros Hsound Hne.
  pose proof (optimized_weights_unfold minimize top_etfs focus seed_money target_value
                optimization_method Hne) as Hun.
  assert (Hn : (0 < length top_etfs)%nat) by (destruct top_etfs; [congruence | cbn; lia]).
  assert (Hinit : length (initial_weights (length top_etfs)) = length top_etfs)
    by (unfold initial_weights; apply length_replicate).
  destruct (method_objective top_etfs focus seed_money target_value optimization_method)
    as [objective|].
  - destruct Hun as [warning Hun]. rewrite Hun.
    destruct (slsqp_cases minimize objective (length top_etfs) warning)
      as [(x & Hx & Hres) | (_ & log & Hlog)].
    + exists x, []. split; [rewrite Hres; reflexivity|].
      destruct (Hsound _ _ _ _ _ Hx) as (Hlen & Hbox & _).
      split; [rewrite Hlen; exact Hinit|].
      apply bounds_in_box in Hbox. rewrite Forall_forall in Hbox.
      apply Forall_forall. intros xi Hxi. destruct (Hbox xi Hxi) as [Hlo _]. lra.
    + exists (initial_weights (length top_etfs)), log.
      split; [rewrite Hlog; reflexivity|].
      split; [exact Hinit | exact (initial_weights_positive _ Hn)].
  - exists (initial_weights (length top_etfs)), [].
    split; [exact Hun|]. split; [exact Hinit | exact (initial_weights_positive _ Hn)].
Qed.

(** X8.  With one or two candidates and a solver whose successes respect
    the bounds and the sum constraint, every optimization method, known or
    not, returns the equal weights: the bounds leave the solver nothing
    feasible. *)
Theorem small_candidate_sets_equal_weights `{NumPy} (minimize : minimizer)
    (top_etfs : list etf) (focus : string) (seed_money target_value : Q)
    (optimization_method : string) :
  solver_sound minimize ->
  (1 <= length top_etfs <= 2)%nat ->
  exists log,
    optimized_weights minimize top_etfs focus seed_money target_value optimization_method
    = Returns (initial_weights (length top_etfs), log).
Proof.
  intros Hsound [Hlo Hhi].
  assert (Hne : top_etfs <> []) by (destruct top_etfs; [cbn in Hlo; lia | discriminate]).
  pose proof (optimized_weights_unfold minimize top_etfs focus seed_money target_value
                optimization_method Hne) as Hun.
  destruct (method_objective top_etfs focus seed_money target_value optimization_method)
    as [objective|].
  - destruct Hun as [warning Hun]. rewrite Hun.
    destruct (slsqp_cases minimize objective (length top_etfs) warning)
      as [(x & Hx & _) | (_ & log & Hlog)].
    + pose proof (sound_solver_fails_small minimize objective (length top_etfs)
                    Hsound Hhi) as Hfail.
      rewrite Hx in Hfail. contradiction.
    + exists log. rewrite Hlog. reflexivity.
  - exists []. exact Hun.
Qed.

Lemma small_candidate_sets_equal_weights_witness :
  exists log,
    optimized_weights (H := sample_numpy) feasible_start_minimize
      [sample_etf "A" "DIV" 0.06 0.15; sample_etf "B" "GRO" 0.08 0.20]
      "dividend" 1000000 5000 "target_return"
    = Returns (initial_weights 2, log).
Proof.
  apply (@small_candidate_sets_equal_weights sample_numpy feasible_start_minimize
           [sample_etf "A" "DIV" 0.06 0.15; sample_etf "B" "GRO" 0.08 0.20]
           "dividend" 1000000 5000 "target_return").
  - exact feasible_start_minimize_sound.
  - cbn [length]. lia.
Defined.

(** ** Holdings: order and contents *)

Lemma normalized_weights_raises (weights : list Q) (e : exn) :
  normalized_weights weights = Raises e ->
  e = FloatNonFinite /\ weights <> [] /\ Qsum weights == 0.
Proof.
  unfold normalized_weights.
  destruct (Qltb 0.000001 (Qabs (Qsum weights - 1))); [|discriminate].
  destruct weights as [|w ws]; [discriminate|].
  destruct (Qeq_bool (Qsum (w :: ws)) 0) eqn:E; [|discriminate].
  intros [= <-]. split; [reflexivity|]. split; [discriminate|].
  apply Qeq_bool_iff. exact E.
Qed.

(** X9.  A portfolio returned by [build_portfolio] lists its holdings in
    descending order of weight; it holds one entry per pair of candidate
    and weight (the shorter of the two lists decides), each entry being a
    candidate with its normalized weight, its amount the capital times the
    weight, its monthly dividend the amount times the yield over 12 and its
    annual return value the amount times the 1-year return.  The only
    failure is the division by a zero total of weights. *)
Theorem build_portfolio_holdings (etfs : list etf) (weights : list Q) (seed_money : Q) :
  (forall portfolio,
      build_portfolio etfs weights seed_money = Returns portfolio ->
      StronglySorted (fun a b => p_weight b <= p_weight a) portfolio
      /\ length portfolio = Nat.min (length etfs) (length weights)
      /\ (exists weights',
             normalized_weights weights = Returns weights'
             /\ portfolio ≡ₚ zip_with (make_holding seed_money) etfs weights')
      /\ Forall (fun p =>
                   p_invest_amount p = seed_money * p_weight p
                   /\ p_expected_monthly_dividend p
                      = p_invest_amount p * p_dividend_yield p / 12
                   /\ p_expected_annual_return_value p
                      = p_invest_amount p * p_annual_return p
                   /\ exists e, e ∈ etfs /\ p_ticker p = ticker e
                                /\ p_category p = category e) portfolio)
  /\ (forall e,
         build_portfolio etfs weights seed_money = Raises e ->
         e = FloatNonFinite /\ weights <> [] /\ Qsum weights == 0).
Proof.
  unfold build_portfolio. split.
  - intros portfolio.
    destruct (normalized_weights weights) as [weights'|err] eqn:En; [|discriminate].
    cbn [mbind outcome_bind]. intros [= <-].
    pose proof (sort_by_Permutation (fun a b => Qltb b a) p_weight
                  (zip_with (make_holding seed_money) etfs weights')) as Hperm.
    fold (sort_descending p_weight (zip_with (make_holding seed_money) etfs weights'))
      in Hperm.
    split; [apply sort_descending_sorted|]. split.
    + rewrite Hperm, length_zip_with, (normalized_weights_length _ _ En). reflexivity.
    + split; [exists weights'; split; [reflexivity | exact Hperm]|].
      rewrite Hperm. clear Hperm En. revert weights'.
      induction etfs as [|e etfs IH]; intros [|w ws]; cbn [zip_with]; try constructor.
      * cbn. repeat split. exists e. split; [left | split; reflexivity].
      * eapply Forall_impl; [apply IH|].
        intros p (H1 & H2 & H3 & e' & He' & Ht & Hc).
        repeat split; try assumption. exists e'. split; [now right | split; assumption].
  - intros e.
    destruct (normalized_weights weights) as [weights'|err] eqn:En; [discriminate|].
    cbn [mbind outcome_bind]. intros [= <-]. now apply normalized_weights_raises.
Qed.

Lemma build_portfolio_holdings_witness :
  exists p1 p2,
    build_portfolio [sample_etf "A" "DIV" 0.06 0.15; sample_etf "B" "GRO" 0.08 0.20]
      [0.25; 0.75] 1000000 = Returns [p1; p2]
    /\ p_weight p2 <= p_weight p1.
Proof.
  destruct (build_portfolio_holdings
              [sample_etf "A" "DIV" 0.06 0.15; sample_etf "B" "GRO" 0.08 0.20]
              [0.25; 0.75] 1000000) as [Hok _].
  eexists _, _. split; [reflexivity|].
  specialize (Hok _ eq_refl). destruct Hok as [Hsorted _].
  apply StronglySorted_inv in Hsorted. destruct Hsorted as [_ Hhd].
  inversion Hhd; subst. assumption.
Defined.

(** ** Stress test: values and directions *)

Lemma Qsum_map_plus {A} (f g : A -> Q) (l : list A) :
  Qsum (map (fun x => f x + g x) l) == Qsum (map f l) + Qsum (map g l).
Proof.
  induction l as [|x l IH]; cbn [map].
  - rewrite !Qsum_nil. lra.
  - rewrite !Qsum_cons, IH. lra.
Qed.

Lemma Qsum_map_le {A} (f g : A -> Q) (l : list A) :
  Forall (fun x => f x <= g x) l -> Qsum (map f l) <= Qsum (map g l).
Proof.
  induction 1 as [|x l Hx _ IH]; cbn [map].
  - rewrite !Qsum_nil. lra.
  - rewrite !Qsum_cons. lra.
Qed.

Lemma Qsum_map_lt {A} (f g : A -> Q) (l : list A) :
  l <> [] -> Forall (fun x => f x < g x) l -> Qsum (map f l) < Qsum (map g l).
Proof.
  intros Hne Hall.
  destruct Hall as [|x l Hx Hrest]; [congruence|]. cbn [map]. rewrite !Qsum_cons.
  assert (Hle : Qsum (map f l) <= Qsum (map g l)).
  { apply Qsum_map_le. eapply Forall_impl; [exact Hrest|].
    intros y Hy. cbn beta in Hy |- *. lra. }
  lra.
Qed.

Lemma Qsum_map_zero {A} (l : list A) : Qsum (map (fun _ => 0) l) == 0.
Proof.
  induction l as [|x l IH]; cbn [map]; [rewrite Qsum_nil | rewrite Qsum_cons, IH]; lra.
Qed.

Lemma stress_sums (sp : scenario_params) (pf : list holding) :
  Qsum (new_value <$> (asset_impact_of sp <$> pf))
  == Qsum (p_invest_amount <$> pf) + Qsum (value_change <$> (asset_impact_of sp <$> pf)).
Proof.
  induction pf as [|x pf IH]; cbn [fmap list_fmap].
  - rewrite !Qsum_nil. lra.
  - rewrite !Qsum_cons, IH.
    cbn [asset_impact_of new_value value_change]. ring.
Qed.

Lemma bear_market_params (sp : scenario_params) :
  scenarios !! "bear_market"%string = Some sp ->
  market_return sp = -0.30 /\ volatility_multiplier sp = 2.0
  /\ sector_impacts sp !! "BND"%string = Some 0.05
  /\ sector_impacts sp !! "GRO"%string = Some (-0.25)
  /\ forall c, default 0 (sector_impacts sp !! c) <= 0.10.
Proof.
  unfold scenarios. cbn [list_to_map foldr curry fst snd uncurry].
  rewrite lookup_insert_eq. intros [= <-].
  cbn [market_return volatility_multiplier sector_impacts list_to_map foldr curry fst snd
         uncurry].
  repeat split.
  intros c. repeat (rewrite lookup_insert; case_decide; [cbn; lra|]).
  rewrite lookup_empty. cbn. lra.
Qed.

Lemma tech_crash_params (sp : scenario_params) :
  scenarios !! "tech_crash"%string = Some sp ->
  market_return sp = -0.20 /\ volatility_multiplier sp = 1.8
  /\ forall c, default 0 (sector_impacts sp !! c) <= 0.10.
Proof.
  unfold scenarios. cbn [list_to_map foldr curry fst snd uncurry].
  rewrite !lookup_insert_ne by discriminate.
  rewrite lookup_insert_eq. intros [= <-].
  cbn [market_return volatility_multiplier sector_impacts list_to_map foldr curry fst snd
         uncurry].
  repeat split.
  intros c. repeat (rewrite lookup_insert; case_decide; [cbn; lra|]).
  rewrite lookup_empty. cbn. lra.
Qed.

Lemma fed_pivot_params (sp : scenario_params) :
  scenarios !! "fed_pivot"%string = Some sp ->
  market_return sp = 0.15 /\ volatility_multiplier sp = 0.7
  /\ forall c, -0.05 <= default 0 (sector_impacts sp !! c).
Proof.
  unfold scenarios. cbn [list_to_map foldr curry fst snd uncurry].
  rewrite !lookup_insert_ne by discriminate.
  rewrite lookup_insert_eq. intros [= <-].
  cbn [market_return volatility_multiplier sector_impacts list_to_map foldr curry fst snd
         uncurry].
  repeat split.
  intros c. repeat (rewrite lookup_insert; case_decide; [cbn; lra|]).
  rewrite lookup_empty. cbn. lra.
Qed.

(** The report of a portfolio that is not empty, spelled out. *)
Lemma stress_test_report (portfolio : list holding) (scenario : string)
    (sp : scenario_params) :
  scenarios !! scenario = Some sp ->
  portfolio <> [] ->
  exists r,
    stress_test_portfolio portfolio scenario = Returns (StressReport r)
    /\ total_investment r = Qsum (p_invest_amount <$> portfolio)
    /\ total_value_change r = Qsum (value_change <$> (asset_impact_of sp <$> portfolio))
    /\ new_portfolio_value r = total_investment r + total_value_change r
    /\ asset_impacts r = asset_impact_of sp <$> portfolio
    /\ portfolio_impact r
       = if Qeq_bool (total_investment r) 0 then None
         else Some (total_value_change r / total_investment r).
Proof.
  intros Hsp Hne. unfold stress_test_portfolio. rewrite Hsp.
  destruct portfolio as [|p portfolio]; [congruence|].
  cbn [mbind outcome_bind]. eexists. split; [reflexivity|].
  cbn [total_investment total_value_change new_portfolio_value asset_impacts
         portfolio_impact].
  repeat split.
Qed.

Lemma value_change_sign (sp : scenario_params) (p : holding) (bound : Q) :
  0 <= p_invest_amount p -> 0 <= p_volatility p -> 0 <= volatility_multiplier sp ->
  (market_return sp + default 0 (sector_impacts sp !! p_category p) <= bound ->
   bound <= 0 -> value_change (asset_impact_of sp p) <= 0)
  /\ (bound <= market_return sp + default 0 (sector_impacts sp !! p_category p) ->
      0 <= bound -> 0 <= value_change (asset_impact_of sp p)).
Proof.
  intros Hinv Hvol Hmult. cbn [asset_impact_of value_change].
  set (t := market_return sp + default 0 (sector_impacts sp !! p_category p)).
  assert (Hscale : 0 <= p_invest_amount p * (p_volatility p / 0.15 * volatility_multiplier sp)).
  { apply Qmult_le_0_compat; [exact Hinv|].
    apply Qmult_le_0_compat; [|exact Hmult].
    apply Qle_shift_div_l; lra. }
  setoid_replace (p_invest_amount p * (t * (p_volatility p / 0.15) * volatility_multiplier sp))
    with (t * (p_invest_amount p * (p_volatility p / 0.15 * volatility_multiplier sp)))
    using relation Qeq by ring.
  set (k := p_invest_amount p * (p_volatility p / 0.15 * volatility_multiplier sp)) in *.
  split; intros Ht Hb.
  - assert (H0 : 0 <= (- t) * k) by (apply Qmult_le_0_compat; lra).
    setoid_replace (t * k) with (- ((- t) * k)) using relation Qeq by ring. lra.
  - apply Qmult_le_0_compat; lra.
Qed.

(** X10.  In a stress report the new portfolio value is the sum of the
    assets' new values, each the asset's current value plus its value
    change, and the reported portfolio impact times the total investment is
    the total value change. *)
Theorem stress_test_new_values (portfolio : list holding) (scenario : string)
    (r : stress_report) :
  stress_test_portfolio portfolio scenario = Returns (StressReport r) ->
  new_portfolio_value r == Qsum (new_value <$> asset_impacts r)
  /\ Forall (fun a => new_value a == current_value a + value_change a) (asset_impacts r)
  /\ (forall q, portfolio_impact r = Some q ->
                q * total_investment r == total_value_change r).
Proof.
  intros Hr.
  destruct (scenarios !! scenario) as [sp|] eqn:Hsp;
    [|unfold stress_test_portfolio in Hr; rewrite Hsp in Hr; discriminate].
  assert (Hne : portfolio <> []).
  { intros ->. unfold stress_test_portfolio in Hr. rewrite Hsp in Hr. discriminate. }
  destruct (stress_test_report portfolio scenario sp Hsp Hne)
    as (r' & Hr' & Hti & Htc & Hnv & Hai & Hpi).
  rewrite Hr' in Hr. injection Hr as <-. split; [|split].
  - rewrite Hnv, Hti, Htc, Hai. symmetry. apply stress_sums.
  - rewrite Hai. apply Forall_forall. intros a Ha.
    apply list_elem_of_fmap in Ha. destruct Ha as (x & -> & _).
    cbn [asset_impact_of new_value current_value value_change]. ring.
  - intros q. rewrite Hpi.
    destruct (Qeq_bool (total_investment r') 0) eqn:E; [discriminate|].
    intros [= <-]. field. intros H0. apply Qeq_bool_iff in H0. congruence.
Qed.

Lemma stress_test_new_values_witness :
  exists r,
    stress_test_portfolio [make_holding 1000 (sample_etf "BND" "BND" 0.04 0.05) 1]
      "inflation" = Returns (StressReport r)
    /\ new_portfolio_value r == Qsum (new_value <$> asset_impacts r).
Proof.
  eexists. split; [reflexivity|].
  apply (stress_test_new_values [make_holding 1000 (sample_etf "BND" "BND" 0.04 0.05) 1]
           "inflation").
  reflexivity.
Defined.

Lemma total_value_change_le (sp : scenario_params) (pf : list holding) :
  Forall (fun p => value_change (asset_impact_of sp p) <= 0) pf ->
  Qsum (value_change <$> (asset_impact_of sp <$> pf)) <= 0.
Proof.
  unfold fmap. induction 1 as [|p pf Hp _ IH]; cbn [list_fmap].
  - rewrite Qsum_nil. lra.
  - rewrite Qsum_cons. lra.
Qed.

Lemma total_value_change_ge (sp : scenario_params) (pf : list holding) :
  Forall (fun p => 0 <= value_change (asset_impact_of sp p)) pf ->
  0 <= Qsum (value_change <$> (asset_impact_of sp <$> pf)).
Proof.
  unfold fmap. induction 1 as [|p pf Hp _ IH]; cbn [list_fmap].
  - rewrite Qsum_nil. lra.
  - rewrite Qsum_cons. lra.
Qed.

(** X11.  For a portfolio that is not empty, with amounts and
    volatilities that are not negative: the bear-market and the tech-crash
    scenarios never raise its value (every category's shock stays at or
    below -0.20 and -0.10), and the fed-pivot scenario never lowers it
    (every category's shock stays at or above +0.10). *)
Theorem stress_scenario_directions (portfolio : list holding) :
  portfolio <> [] ->
  Forall (fun p => 0 <= p_invest_amount p /\ 0 <= p_volatility p) portfolio ->
  (exists r,
      stress_test_portfolio portfolio "bear_market" = Returns (StressReport r)
      /\ total_value_change r <= 0 /\ new_portfolio_value r <= total_investment r)
  /\ (exists r,
         stress_test_portfolio portfolio "tech_crash" = Returns (StressReport r)
         /\ total_value_change r <= 0 /\ new_portfolio_value r <= total_investment r)
  /\ (exists r,
         stress_test_portfolio portfolio "fed_pivot" = Returns (StressReport r)
         /\ 0 <= total_value_change r /\ total_investment r <= new_portfolio_value r).
Proof.
  intros Hne Hall. split; [|split].
  - destruct (scenarios_known "bear_market" ltac:(left)) as [sp Hsp].
    destruct (bear_market_params sp Hsp) as (Hm & Hv & _ & _ & Hsec).
    destruct (stress_test_report portfolio "bear_market" sp Hsp Hne)
      as (r & Hr & _ & Htc & Hnv & _).
    exists r. split; [exact Hr|].
    assert (Hle : total_value_change r <= 0).
    { rewrite Htc. apply total_value_change_le.
      eapply Forall_impl; [exact Hall|]. intros p [Hi Hvol].
      apply (value_change_sign sp p (-0.20) Hi Hvol); [rewrite Hv; lra | | lra].
      rewrite Hm. specialize (Hsec (p_category p)). lra. }
    split; [exact Hle | rewrite Hnv; lra].
  - destruct (scenarios_known "tech_crash" ltac:(right; right; left)) as [sp Hsp].
    destruct (tech_crash_params sp Hsp) as (Hm & Hv & Hsec).
    destruct (stress_test_report portfolio "tech_crash" sp Hsp Hne)
      as (r & Hr & _ & Htc & Hnv & _).
    exists r. split; [exact Hr|].
    assert (Hle : total_value_change r <= 0).
    { rewrite Htc. apply total_value_change_le.
      eapply Forall_impl; [exact Hall|]. intros p [Hi Hvol].
      apply (value_change_sign sp p (-0.10) Hi Hvol); [rewrite Hv; lra | | lra].
      rewrite Hm. specialize (Hsec (p_category p)). lra. }
    split; [exact Hle | rewrite Hnv; lra].
  - destruct (scenarios_known "fed_pivot" ltac:(right; right; right; left)) as [sp Hsp].
    destruct (fed_pivot_params sp Hsp) as (Hm & Hv & Hsec).
    destruct (stress_test_report portfolio "fed_pivot" sp Hsp Hne)
      as (r & Hr & _ & Htc & Hnv & _).
    exists r. split; [exact Hr|].
    assert (Hge : 0 <= total_value_change r).
    { rewrite Htc. apply total_value_change_ge.
      eapply Forall_impl; [exact Hall|]. intros p [Hi Hvol].
      apply (value_change_sign sp p 0.10 Hi Hvol); [rewrite Hv; lra | | lra].
      rewrite Hm. specialize (Hsec (p_category p)). lra. }
    split; [exact Hge | rewrite Hnv; lra].
Qed.

Lemma stress_scenario_directions_witness :
  exists r,
    stress_test_portfolio [make_holding 1000 (sample_etf "GLD" "COM" 0.05 0.15) 1]
      "bear_market" = Returns (StressReport r)
    /\ total_value_change r <= 0.
Proof.
  destruct (stress_scenario_directions
              [make_holding 1000 (sample_etf "GLD" "COM" 0.05 0.15) 1]
              ltac:(discriminate)
              ltac:(repeat constructor; discriminate))
    as [(r & Hr & Hle & _) _].
  exists r. split; assumption.
Defined.

Lemma with_category_sums (c : string) (pf : list holding) :
  Qsum (p_invest_amount <$> (with_category c <$> pf)) = Qsum (p_invest_amount <$> pf).
Proof.
  f_equal. induction pf as [|p pf IH]; cbn [fmap list_fmap]; [reflexivity|].
  f_equal. exact IH.
Qed.

Lemma bond_growth_value_change (sb sg : scenario_params) (pf : list holding) :
  pf <> [] ->
  Forall (fun p => value_change (asset_impact_of sg (with_category "GRO" p))
                   < value_change (asset_impact_of sb (with_category "BND" p))
                   /\ value_change (asset_impact_of sb (with_category "BND" p)) < 0) pf ->
  Qsum (value_change <$> (asset_impact_of sg <$> (with_category "GRO" <$> pf)))
  < Qsum (value_change <$> (asset_impact_of sb <$> (with_category "BND" <$> pf)))
  /\ Qsum (value_change <$> (asset_impact_of sb <$> (with_category "BND" <$> pf))) < 0.
Proof.
  intros Hne Hall. destruct Hall as [|p pf [Hp1 Hp2] Hrest]; [congruence|]. clear Hne.
  unfold fmap.
  revert p Hp1 Hp2. induction Hrest as [|q pf [Hq1 Hq2] _ IH]; intros p Hp1 Hp2;
    cbn [list_fmap] in *.
  - rewrite !Qsum_cons, !Qsum_nil. lra.
  - specialize (IH q Hq1 Hq2). rewrite (Qsum_cons (value_change _)).
    rewrite (Qsum_cons (value_change (asset_impact_of sb (with_category "BND" p)))).
    lra.
Qed.

(** X12.  Under the bear-market scenario, a portfolio moved wholly into
    bonds loses less than the same portfolio moved wholly into growth
    funds: for positive amounts and volatilities both lose value, and the
    portfolio impact of the bond version is the less negative one. *)
Theorem bear_market_bonds_lose_less (portfolio : list holding) :
  portfolio <> [] ->
  Forall (fun p => 0 < p_invest_amount p /\ 0 < p_volatility p) portfolio ->
  exists rb rg qb qg,
    stress_test_portfolio (with_category "BND" <$> portfolio) "bear_market"
    = Returns (StressReport rb)
    /\ stress_test_portfolio (with_category "GRO" <$> portfolio) "bear_market"
       = Returns (StressReport rg)
    /\ total_investment rb = total_investment rg
    /\ total_value_change rg < total_value_change rb /\ total_value_change rb < 0
    /\ portfolio_impact rb = Some qb /\ portfolio_impact rg = Some qg
    /\ qg < qb /\ qb < 0.
Proof.
  intros Hne Hall.
  destruct (scenarios_known "bear_market" ltac:(left)) as [sp Hsp].
  destruct (bear_market_params sp Hsp) as (Hm & Hv & Hbnd & Hgro & _).
  assert (Hneb : with_category "BND" <$> portfolio <> [])
    by (destruct portfolio; [congruence | discriminate]).
  assert (Hneg : with_category "GRO" <$> portfolio <> [])
    by (destruct portfolio; [congruence | discriminate]).
  destruct (stress_test_report _ "bear_market" sp Hsp Hneb)
    as (rb & Hrb & Htib & Htcb & _ & _ & Hpib).
  destruct (stress_test_report _ "bear_market" sp Hsp Hneg)
    as (rg & Hrg & Htig & Htcg & _ & _ & Hpig).
  rewrite with_category_sums in Htib, Htig.
  assert (Htotal : 0 < Qsum (p_invest_amount <$> portfolio)).
  { apply Qsum_pos; [destruct portfolio; [congruence | discriminate]|].
    apply Forall_fmap. eapply Forall_impl; [exact Hall|]. intros p [Hi _]. exact Hi. }
  destruct (bond_growth_value_change sp sp portfolio Hne) as [Hlt Hneg0].
  { eapply Forall_impl; [exact Hall|]. intros p [Hi Hvol].
    cbn [asset_impact_of value_change with_category p_category p_invest_amount
           p_volatility].
    rewrite Hm, Hv, Hbnd, Hgro. cbn [default].
    assert (Hk : 0 < p_invest_amount p * (p_volatility p / 0.15)).
    { apply Qmult_lt_0_compat; [exact Hi|]. apply Qlt_shift_div_l; lra. }
    setoid_replace (p_invest_amount p * ((-0.30 + -0.25) * (p_volatility p / 0.15) * 2.0))
      with (-1.1 * (p_invest_amount p * (p_volatility p / 0.15)))
      using relation Qeq by ring.
    setoid_replace (p_invest_amount p * ((-0.30 + 0.05) * (p_volatility p / 0.15) * 2.0))
      with (-0.5 * (p_invest_amount p * (p_volatility p / 0.15)))
      using relation Qeq by ring.
    lra. }
  rewrite <- Htcb in Hlt, Hneg0. rewrite <- Htcg in Hlt.
  assert (Hnzb : Qeq_bool (total_investment rb) 0 = false)
    by (apply Qeq_bool_false; rewrite Htib; lra).
  assert (Hnzg : Qeq_bool (total_investment rg) 0 = false)
    by (apply Qeq_bool_false; rewrite Htig; lra).
  rewrite Hnzb in Hpib. rewrite Hnzg in Hpig.
  exists rb, rg, (total_value_change rb / total_investment rb),
    (total_value_change rg / total_investment rg).
  split; [exact Hrb|]. split; [exact Hrg|]. split; [congruence|].
  split; [exact Hlt|]. split; [exact Hneg0|]. split; [exact Hpib|]. split; [exact Hpig|].
  rewrite Htib, Htig. unfold Qdiv.
  assert (Hinv : 0 < / Qsum (p_invest_amount <$> portfolio))
    by (apply Qinv_lt_0_compat; exact Htotal).
  split.
  - apply Qmult_lt_compat_r; assumption.
  - setoid_replace 0 with (0 * / Qsum (p_invest_amount <$> portfolio))
      using relation Qeq by ring.
    apply Qmult_lt_compat_r; assumption.
Qed.

Lemma bear_market_bonds_lose_less_witness :
  exists rb rg,
    stress_test_portfolio
      (with_category "BND" <$> [make_holding 1000 (sample_etf "X" "LC" 0.05 0.15) 1])
      "bear_market" = Returns (StressReport rb)
    /\ stress_test_portfolio
         (with_category "GRO" <$> [make_holding 1000 (sample_etf "X" "LC" 0.05 0.15) 1])
         "bear_market" = Returns (StressReport rg)
    /\ total_value_change rg < total_value_change rb.
Proof.
  destruct (bear_market_bonds_lose_less
              [make_holding 1000 (sample_etf "X" "LC" 0.05 0.15) 1]
              ltac:(discriminate)
              ltac:(repeat constructor))
    as (rb & rg & qb & qg & Hrb & Hrg & _ & Hlt & _).
  exists rb, rg. repeat split; assumption.
Defined.

(** ** Backtest: categories of tickers *)

Lemma prefix_app_l (a b s : string) :
  String.prefix (a ++ b) s = true -> String.prefix a s = true.
Proof.
  revert s. induction a as [|c a IH]; intros s Hp.
  - destruct s; reflexivity.
  - destruct s as [|d s]; [discriminate Hp|].
    simpl in Hp |- *.
    destruct (Ascii.ascii_dec c d); [apply IH; exact Hp | discriminate Hp].
Qed.

Lemma contains_app_l (a b s : string) :
  contains (a ++ b) s = true -> contains a s = true.
Proof.
  induction s as [|d s IH]; cbn [contains]; intros Hc.
  - apply orb_true_iff in Hc. destruct Hc as [Hc|Hc]; [|discriminate Hc].
    rewrite (prefix_app_l a b _ Hc). reflexivity.
  - apply orb_true_iff in Hc. destruct Hc as [Hc|Hc].
    + rewrite (prefix_app_l a b _ Hc). reflexivity.
    + rewrite (IH Hc). apply orb_true_r.
Qed.

(** X13.  [ticker_category] always answers one of the eight categories of
    the backtest, and a ticker that contains [DIVO] is taken for a dividend
    fund, never for a covered-call fund: the test for [DIV] comes first and
    [DIVO] contains [DIV]. *)
Theorem ticker_category_range (t : string) :
  ticker_category t ∈ backtest_categories
  /\ (contains "DIVO" t = true -> ticker_category t = "DIV"%string).
Proof.
  split.
  - unfold ticker_category, backtest_categories.
    repeat match goal with
           | |- context [if ?c then _ else _] => destruct c
           end;
      repeat (first [left | right]).
  - intros Hd. unfold ticker_category.
    rewrite (contains_app_l "DIV" "O" t Hd). reflexivity.
Qed.

(** ** Backtest: the months of the path *)

Lemma date_leb_index (current end_ : date) :
  (1 <= month current <= 12)%nat -> (1 <= month end_ <= 12)%nat ->
  (day current <= day end_)%nat ->
  date_leb current end_ = (month_index current <=? month_index end_)%nat.
Proof.
  intros Hc He Hd. unfold date_leb, month_index.
  destruct (year current <? year end_)%nat eqn:E1.
  - apply Nat.ltb_lt in E1. symmetry. apply Nat.leb_le. lia.
  - apply Nat.ltb_ge in E1. cbn [orb].
    destruct (year current =? year end_)%nat eqn:E2.
    + apply Nat.eqb_eq in E2. cbn [andb].
      destruct (month current <? month end_)%nat eqn:E3.
      * apply Nat.ltb_lt in E3. symmetry. apply Nat.leb_le. lia.
      * apply Nat.ltb_ge in E3. cbn [orb].
        destruct (month current =? month end_)%nat eqn:E4.
        -- apply Nat.eqb_eq in E4. cbn [andb].
           assert (Hdd : (day current <=? day end_)%nat = true) by (apply Nat.leb_le; exact Hd).
           rewrite Hdd. symmetry. apply Nat.leb_le. lia.
        -- apply Nat.eqb_neq in E4. cbn [andb]. symmetry. apply Nat.leb_gt. lia.
    + apply Nat.eqb_neq in E2. cbn [andb]. symmetry. apply Nat.leb_gt. lia.
Qed.

Lemma date_leb_true_index (start end_ : date) :
  (1 <= month start <= 12)%nat -> (1 <= month end_ <= 12)%nat ->
  date_leb start end_ = true ->
  (year start <= year end_)%nat /\ (month_index start <= month_index end_)%nat.
Proof.
  intros Hs He Hle. unfold month_index.
  destruct (Nat.le_gt_cases (12 * year start + month start) (12 * year end_ + month end_))
    as [Hi|Hi].
  - split; [|exact Hi].
    destruct (Nat.le_gt_cases (year start) (year end_)) as [Hy|Hy]; [exact Hy|].
    rewrite date_leb_past in Hle by lia. discriminate Hle.
  - rewrite date_leb_past in Hle by lia. discriminate Hle.
Qed.

Lemma next_month_day (current : date) : day (next_month current) = 1%nat.
Proof. unfold next_month. destruct (month current =? 12)%nat; reflexivity. Qed.

Lemma months_loop_span (fuel : nat) (current end_ : date) :
  (1 <= month current <= 12)%nat -> (1 <= month end_ <= 12)%nat ->
  (1 <= day end_)%nat -> (day current <= day end_)%nat ->
  (month_index end_ + 1 <= fuel + month_index current)%nat ->
  (fun m => (12 * m.1 + m.2)%nat) <$> months_loop fuel current end_
  = seq (month_index current) (month_index end_ + 1 - month_index current)
  /\ Forall (fun m => (1 <= m.2 <= 12)%nat) (months_loop fuel current end_).
Proof.
  intros Hc He Hd1 Hd Hfuel. revert current Hc Hd Hfuel.
  induction fuel as [|fuel IH]; intros current Hc Hd Hfuel.
  - replace (month_index end_ + 1 - month_index current)%nat with 0%nat by lia.
    split; [reflexivity | constructor].
  - cbn [months_loop]. rewrite (date_leb_index current end_ Hc He Hd).
    destruct (month_index current <=? month_index end_)%nat eqn:E.
    + apply Nat.leb_le in E.
      destruct (next_month_valid current Hc) as [Hc' Hnext].
      destruct (IH (next_month current)) as [IH1 IH2];
        [exact Hc' | rewrite next_month_day; lia
        | unfold month_index in *; lia |].
      split.
      * rewrite fmap_cons, IH1.
        replace (month_index end_ + 1 - month_index current)%nat
          with (S (month_index end_ + 1 - month_index (next_month current)))
          by (unfold month_index in *; lia).
        cbn [seq fst snd]. f_equal. f_equal. unfold month_index in *. lia.
      * constructor; [cbn [snd]; exact Hc | exact IH2].
    + apply Nat.leb_gt in E.
      replace (month_index end_ + 1 - month_index current)%nat with 0%nat by lia.
      split; [reflexivity | constructor].
Qed.

(** X14.  The path of the backtest holds every calendar month from the
    month of the start date to the month of the end date, both included and
    in order, also when the start is the last day of its month and the end
    the first day of its own: their number is the distance of the two
    months plus one. *)
Theorem backtest_months_span (start end_ : date) :
  (1 <= month start <= 12)%nat -> (1 <= month end_ <= 12)%nat ->
  (1 <= day end_)%nat ->
  date_leb start end_ = true ->
  length (months_of start end_) = (month_index end_ + 1 - month_index start)%nat
  /\ (fun m => (12 * m.1 + m.2)%nat) <$> months_of start end_
     = seq (month_index start) (month_index end_ + 1 - month_index start)
  /\ Forall (fun m => (1 <= m.2 <= 12)%nat) (months_of start end_)
  /\ head (months_of start end_) = Some (year start, month start).
Proof.
  intros Hs He Hd Hle.
  destruct (date_leb_true_index start end_) as [Hy Hi]; [lia | lia | exact Hle |].
  assert (Hspan :
    (fun m => (12 * m.1 + m.2)%nat) <$> months_of start end_
    = seq (month_index start) (month_index end_ + 1 - month_index start)
    /\ Forall (fun m => (1 <= m.2 <= 12)%nat) (months_of start end_)
    /\ head (months_of start end_) = Some (year start, month start)).
  { unfold months_of.
    replace (12 * (year end_ - year start) + 13)%nat
      with (S (12 * (year end_ - year start) + 12)) by lia.
    cbn [months_loop]. rewrite Hle.
    destruct (next_month_valid start Hs) as [Hs' Hnext].
    destruct (months_loop_span (12 * (year end_ - year start) + 12) (next_month start) end_)
      as [L1 L2];
      [exact Hs' | exact He | exact Hd | rewrite next_month_day; exact Hd
      | unfold month_index in *; lia |].
    split; [|split; [|reflexivity]].
    - rewrite fmap_cons, L1.
      replace (month_index end_ + 1 - month_index start)%nat
        with (S (month_index end_ + 1 - month_index (next_month start)))
        by (unfold month_index in *; lia).
      cbn [seq fst snd]. f_equal. f_equal. unfold month_index in *. lia.
    - constructor; [cbn [snd]; exact Hs | exact L2]. }
  destruct Hspan as (H1 & H2 & H3).
  split; [|split; [exact H1 | split; [exact H2 | exact H3]]].
  rewrite <- (length_fmap (fun m => (12 * m.1 + m.2)%nat)), H1. apply length_seq.
Qed.

Lemma backtest_months_span_witness :
  length (months_of {| year := 2018; month := 1; day := 31 |}
                    {| year := 2019; month := 12; day := 1 |}) = 24%nat.
Proof.
  destruct (backtest_months_span {| year := 2018; month := 1; day := 31 |}
              {| year := 2019; month := 12; day := 1 |}) as [Hl _];
    [cbn; lia | cbn; lia | cbn; lia | reflexivity |].
  exact Hl.
Defined.

(** ** Backtest: the series and the drawdown *)

Lemma cumulate_positive (rets : list Q) (last : Q) :
  0 < last -> Forall (fun x => -1 < x) rets ->
  Forall (fun v => 0 < v) (cumulate last rets).
Proof.
  revert last. induction rets as [|r rets IH]; intros last Hlast Hall; cbn [cumulate].
  - constructor.
  - inversion Hall as [|? ? Hr Hrest]; subst.
    assert (Hnext : 0 < last * (1 + r)) by (apply Qmult_lt_0_compat; lra).
    constructor; [exact Hnext | apply IH; assumption].
Qed.

Lemma last_default_irrelevant {A} (l : list A) (d d' : A) :
  l <> [] -> List.last l d = List.last l d'.
Proof.
  induction l as [|a l IH]; [congruence|]. intros _.
  destruct l as [|b l]; [reflexivity|].
  change (List.last (b :: l) d = List.last (b :: l) d'). apply IH. discriminate.
Qed.

Lemma last_cons_default {A} (l : list A) (a d : A) :
  List.last (a :: l) d = List.last l a.
Proof.
  destruct l as [|b l]; [reflexivity|].
  change (List.last (b :: l) d = List.last (b :: l) a).
  apply last_default_irrelevant. discriminate.
Qed.

Lemma cumulate_last (rets : list Q) (last : Q) :
  List.last (cumulate last rets) last == last * Qprod (map (fun x => 1 + x) rets).
Proof.
  revert last. induction rets as [|r rets IH]; intros last.
  - cbn. ring.
  - cbn [cumulate]. rewrite last_cons_default, IH.
    cbn [map Qprod fold_right]. fold (Qprod (map (fun x => 1 + x) rets)). ring.
Qed.

Lemma div_in_unit (peak value : Q) :
  0 < value -> value <= peak -> 0 <= (peak - value) / peak /\ (peak - value) / peak < 1.
Proof.
  intros Hv Hp. assert (Hpp : 0 < peak) by lra. split.
  - apply Qle_shift_div_l; [exact Hpp | lra].
  - apply Qlt_shift_div_r; [exact Hpp | lra].
Qed.

Lemma drawdown_loop_bounds (values : list Q) (peak max_drawdown : Q) :
  Forall (fun v => 0 < v) values -> 0 < peak ->
  0 <= max_drawdown -> max_drawdown < 1 ->
  exists d, drawdown_loop values peak max_drawdown = Returns d
            /\ max_drawdown <= d /\ d < 1.
Proof.
  revert peak max_drawdown.
  induction values as [|value rest IH]; intros peak md Hall Hpeak Hmd0 Hmd1.
  - exists md. cbn [drawdown_loop]. split; [reflexivity | lra].
  - inversion Hall as [|? ? Hv Hrest]; subst. cbn [drawdown_loop].
    set (peak' := if Qltb peak value then value else peak).
    assert (Hp' : 0 < peak' /\ value <= peak').
    { unfold peak'. destruct (Qltb peak value) eqn:E.
      - split; [exact Hv | lra].
      - apply Qltb_false in E. split; [exact Hpeak | exact E]. }
    destruct Hp' as [Hp0 Hpv].
    rewrite Qeq_bool_false by lra.
    destruct (div_in_unit peak' value Hv Hpv) as [Hd0 Hd1].
    set (dd := (peak' - value) / peak') in *.
    destruct (Qltb md dd) eqn:E.
    + apply Qltb_true in E.
      destruct (IH peak' dd Hrest Hp0 Hd0 Hd1) as (d & Hd & Hle & Hlt).
      exists d. split; [exact Hd | lra].
    + destruct (IH peak' md Hrest Hp0 Hmd0 Hmd1) as (d & Hd & Hle & Hlt).
      exists d. split; [exact Hd | lra].
Qed.

Lemma drawdown_loop_rising (rets : list Q) (last peak max_drawdown : Q) :
  0 < peak -> peak <= last -> max_drawdown == 0 -> Forall (fun x => 0 <= x) rets ->
  exists d, drawdown_loop (cumulate last rets) peak max_drawdown = Returns d /\ d == 0.
Proof.
  revert last peak max_drawdown.
  induction rets as [|r rest IH]; intros last peak md Hpeak Hle Hmd Hall.
  - exists md. split; [reflexivity | exact Hmd].
  - inversion Hall as [|? ? Hr Hrest]; subst. cbn [cumulate drawdown_loop].
    set (value := last * (1 + r)).
    assert (Hvl : last <= value).
    { unfold value. assert (0 <= last * r) by (apply Qmult_le_0_compat; lra).
      setoid_replace (last * (1 + r)) with (last + last * r) using relation Qeq by ring.
      lra. }
    set (peak' := if Qltb peak value then value else peak).
    assert (Hp' : peak' == value).
    { unfold peak'. destruct (Qltb peak value) eqn:E; [reflexivity|].
      apply Qltb_false in E. lra. }
    rewrite Qeq_bool_false by lra.
    assert (Hdd : (peak' - value) / peak' == 0).
    { setoid_replace (peak' - value) with 0 using relation Qeq by lra.
      field. lra. }
    destruct (Qltb md ((peak' - value) / peak')) eqn:E.
    + apply Qltb_true in E. lra.
    + apply IH; [lra | lra | exact Hmd | exact Hrest].
Qed.

Section BacktestSeries.
Context `{NumPy}.

Lemma rows_fmap (months : list (nat * nat)) (rets cums : list Q) :
  length rets = length months -> length cums = length months ->
  let rows := zip_with (fun m rc => {| row_date := m; row_return := rc.1;
                                       row_cumulative := rc.2 |})
                months (zip rets cums) in
  row_date <$> rows = months /\ row_return <$> rows = rets
  /\ row_cumulative <$> rows = cums.
Proof.
  revert rets cums. induction months as [|m months IH]; intros [|r rets] [|c cums] Hr Hc;
    try discriminate Hr; try discriminate Hc; [cbn; auto|].
  injection Hr as Hr. injection Hc as Hc.
  destruct (IH rets cums Hr Hc) as (I1 & I2 & I3).
  cbn [zip zip_with fmap list_fmap row_date row_return row_cumulative fst snd] in *.
  rewrite I1, I2, I3. auto.
Qed.

Lemma backtest_unfold (tickers : list string) (weights : list Q) (start_date end_date : date) :
  date_leb start_date end_date = true ->
  (length tickers <= length weights)%nat ->
  let months := months_of start_date end_date in
  let rets := portfolio_returns_of tickers weights months in
  let cums := cumulate 1 rets in
  generate_synthetic_backtest tickers weights start_date end_date
  = (max_drawdown ← drawdown_loop cums (List.hd 0 cums) 0;
     Returns
       {| return_series :=
            zip_with (fun m rc => {| row_date := m; row_return := rc.1;
                                     row_cumulative := rc.2 |})
              months (zip rets cums);
          total_return := List.last cums 0 - 1;
          annualized_return :=
            if Qltb 0 (Z_of_len months / 12)
            then float_pow (1 + (List.last cums 0 - 1)) (1 / (Z_of_len months / 12)) - 1
            else 0;
          annualized_vol := np_std rets * np_sqrt 12;
          bt_max_drawdown := max_drawdown;
          sharpe_ratio :=
            if Qeq_bool (np_std (map (fun r => r - (float_pow (1 + 0.03) (1 / 12) - 1)) rets)) 0
            then None
            else Some (np_mean (map (fun r => r - (float_pow (1 + 0.03) (1 / 12) - 1)) rets)
                       / np_std (map (fun r => r - (float_pow (1 + 0.03) (1 / 12) - 1)) rets)
                       * np_sqrt 12) |}).
Proof.
  intros Hle Hlen. pose proof (months_of_nonempty _ _ Hle) as Hne.
  unfold generate_synthetic_backtest, portfolio_returns_of.
  destruct (months_of start_date end_date) as [|m months] eqn:Em; [congruence|].
  assert (Hw : (length weights <? length tickers)%nat = false)
    by (apply Nat.ltb_ge; exact Hlen).
  rewrite Hw. reflexivity.
Qed.
End BacktestSeries.

Lemma months_of_empty (start end_ : date) :
  date_leb start end_ = false -> months_of start end_ = [].
Proof.
  intros Hle. unfold months_of.
  replace (12 * (year end_ - year start) + 13)%nat
    with (S (12 * (year end_ - year start) + 12)) by lia.
  cbn [months_loop]. rewrite Hle. reflexivity.
Qed.

Lemma drawdown_loop_raises (values : list Q) (peak max_drawdown : Q) (e : exn) :
  drawdown_loop values peak max_drawdown = Raises e -> e = FloatNonFinite.
Proof.
  revert peak max_drawdown. induction values as [|value rest IH]; intros peak md;
    cbn [drawdown_loop]; [discriminate|].
  destruct (Qeq_bool _ 0); [intros He; injection He as <-; reflexivity | apply IH].
Qed.

Section BacktestEdges.
Context `{NumPy}.

Lemma portfolio_returns_of_length (tickers : list string) (weights : list Q)
    (months : list (nat * nat)) :
  length (portfolio_returns_of tickers weights months) = length months.
Proof. unfold portfolio_returns_of. rewrite length_map, length_seq. reflexivity. Qed.

Lemma backtest_returns_inv (tickers : list string) (weights : list Q)
    (start_date end_date : date) (r : backtest_result) :
  generate_synthetic_backtest tickers weights start_date end_date = Returns r ->
  date_leb start_date end_date = true /\ (length tickers <= length weights)%nat.
Proof.
  intros Hr. destruct (date_leb start_date end_date) eqn:Hle.
  - split; [reflexivity|].
    destruct (Nat.le_gt_cases (length tickers) (length weights)) as [Hl|Hl]; [exact Hl|].
    pose proof (months_of_nonempty _ _ Hle) as Hne.
    unfold generate_synthetic_backtest in Hr.
    destruct (months_of start_date end_date) as [|m months]; [congruence|].
    assert (Hw : (length weights <? length tickers)%nat = true)
      by (apply Nat.ltb_lt; exact Hl).
    rewrite Hw in Hr. discriminate Hr.
  - unfold generate_synthetic_backtest in Hr.
    rewrite (months_of_empty _ _ Hle) in Hr. discriminate Hr.
Qed.

(** X15.  The backtest raises [IndexError] when the end date lies before
    the start date, as no month is walked through, and when there are
    fewer weights than tickers.  Called on a portfolio, whose tickers and
    weights come in pairs, with dates in order it raises nothing but the
    failure of a division by a zero peak. *)
Theorem backtest_index_errors (start_date end_date : date) :
  (forall tickers weights,
      date_leb start_date end_date = false ->
      generate_synthetic_backtest tickers weights start_date end_date = Raises IndexError)
  /\ (forall tickers weights,
         date_leb start_date end_date = true ->
         (length weights < length tickers)%nat ->
         generate_synthetic_backtest tickers weights start_date end_date
         = Raises IndexError)
  /\ (forall portfolio e,
         date_leb start_date end_date = true ->
         backtest_portfolio portfolio start_date end_date = Raises e ->
         e = FloatNonFinite).
Proof.
  split; [|split].
  - intros tickers weights Hle. unfold generate_synthetic_backtest.
    rewrite (months_of_empty _ _ Hle). reflexivity.
  - intros tickers weights Hle Hlt. pose proof (months_of_nonempty _ _ Hle) as Hne.
    unfold generate_synthetic_backtest.
    destruct (months_of start_date end_date) as [|m months]; [congruence|].
    assert (Hw : (length weights <? length tickers)%nat = true)
      by (apply Nat.ltb_lt; exact Hlt).
    rewrite Hw. reflexivity.
  - intros portfolio e Hle. unfold backtest_portfolio.
    rewrite backtest_unfold; [|exact Hle | rewrite !length_fmap; lia].
    cbv zeta.
    destruct (drawdown_loop _ _ 0) as [d|e'] eqn:Ed; cbn [mbind outcome_bind].
    + discriminate.
    + intros He. injection He as <-. exact (drawdown_loop_raises _ _ _ _ Ed).
Qed.

(** X16.  A backtest that returns reports one row a month of the path, in
    order; the cumulative value of a row is the cumulative value of the row
    before (1 for the first row) times one plus the return of the row, and
    the total return is the product of these factors minus one. *)
Theorem backtest_series_compounds (tickers : list string) (weights : list Q)
    (start_date end_date : date) (r : backtest_result) :
  generate_synthetic_backtest tickers weights start_date end_date = Returns r ->
  row_date <$> return_series r = months_of start_date end_date
  /\ row_return <$> return_series r
     = portfolio_returns_of tickers weights (months_of start_date end_date)
  /\ row_cumulative <$> return_series r = cumulate 1 (row_return <$> return_series r)
  /\ total_return r == Qprod (map (fun x => 1 + x) (row_return <$> return_series r)) - 1.
Proof.
  intros Hr. destruct (backtest_returns_inv _ _ _ _ _ Hr) as [Hle Hlen].
  rewrite backtest_unfold in Hr by assumption. cbv zeta in Hr.
  destruct (drawdown_loop _ _ 0) as [d|e'] eqn:Ed; cbn [mbind outcome_bind] in Hr;
    [|discriminate Hr].
  match type of Hr with
  | Returns ?X = _ => assert (Hx : r = X) by (injection Hr as Hr'; exact (eq_sym Hr'))
  end.
  clear Hr. subst r. cbn [return_series total_return].
  assert (Hml : (0 < length (months_of start_date end_date))%nat).
  { pose proof (months_of_nonempty _ _ Hle) as Hm.
    destruct (months_of start_date end_date); [congruence | cbn; lia]. }
  set (months := months_of start_date end_date) in *.
  set (rets := portfolio_returns_of tickers weights months) in *.
  assert (Hrl : length rets = length months) by apply portfolio_returns_of_length.
  assert (Hcl : length (cumulate 1 rets) = length months)
    by (rewrite cumulate_length; exact Hrl).
  destruct (rows_fmap months rets (cumulate 1 rets) Hrl Hcl) as (R1 & R2 & R3).
  cbv zeta in R1, R2, R3. rewrite R1, R2, R3.
  split; [reflexivity|]. split; [reflexivity|]. split; [reflexivity|].
  assert (Hne : cumulate 1 rets <> []).
  { intros Hnil. rewrite Hnil in Hcl. cbn [length] in Hcl. lia. }
  rewrite (last_default_irrelevant _ 0 1 Hne), cumulate_last. ring.
Qed.

(** X17.  When the dates are in order, every ticker has a weight and no
    month loses the whole portfolio (every monthly return is above -100 %),
    the backtest returns, and its maximal drawdown lies in [0, 1); when no
    month loses anything, the drawdown is 0. *)
Theorem backtest_drawdown_bounds (tickers : list string) (weights : list Q)
    (start_date end_date : date) :
  date_leb start_date end_date = true ->
  (length tickers <= length weights)%nat ->
  Forall (fun x => -1 < x)
    (portfolio_returns_of tickers weights (months_of start_date end_date)) ->
  exists r,
    generate_synthetic_backtest tickers weights start_date end_date = Returns r
    /\ Forall (fun row => 0 < row_cumulative row) (return_series r)
    /\ 0 <= bt_max_drawdown r /\ bt_max_drawdown r < 1
    /\ (Forall (fun x => 0 <= x)
          (portfolio_returns_of tickers weights (months_of start_date end_date)) ->
        bt_max_drawdown r == 0).
Proof.
  intros Hle Hlen Hall. rewrite backtest_unfold by assumption. cbv zeta.
  assert (Hml : (0 < length (months_of start_date end_date))%nat).
  { pose proof (months_of_nonempty _ _ Hle) as Hm.
    destruct (months_of start_date end_date); [congruence | cbn; lia]. }
  set (months := months_of start_date end_date) in *.
  set (rets := portfolio_returns_of tickers weights months) in *.
  assert (Hrl : length rets = length months) by apply portfolio_returns_of_length.
  assert (Hcl : length (cumulate 1 rets) = length months)
    by (rewrite cumulate_length; exact Hrl).
  assert (Hpos : Forall (fun v => 0 < v) (cumulate 1 rets))
    by (apply cumulate_positive; [lra | exact Hall]).
  assert (Hhd : 0 < List.hd 0 (cumulate 1 rets)).
  { destruct (cumulate 1 rets) as [|c cums]; [|inversion Hpos; subst; assumption].
    cbn [length] in Hcl. lia. }
  destruct (drawdown_loop_bounds (cumulate 1 rets) (List.hd 0 (cumulate 1 rets)) 0
              Hpos Hhd) as (d & Hd & Hd0 & Hd1); [lra | lra |].
  rewrite Hd. cbn [mbind outcome_bind]. eexists. split; [reflexivity|].
  cbn [return_series bt_max_drawdown].
  split; [|split; [exact Hd0 | split; [exact Hd1|]]].
  - destruct (rows_fmap months rets (cumulate 1 rets) Hrl Hcl) as (_ & _ & R3).
    cbv zeta in R3. rewrite <- R3 in Hpos.
    rewrite Forall_fmap in Hpos. exact Hpos.
  - intros Hrise.
    destruct rets as [|r0 rets']; [cbn [length] in Hrl; lia|].
    inversion Hrise as [|? ? Hr0 Hrest]; subst.
    cbn [cumulate List.hd drawdown_loop] in Hd.
    assert (Hv : 0 < 1 * (1 + r0)) by lra.
    assert (Hq : Qltb (1 * (1 + r0)) (1 * (1 + r0)) = false)
      by (apply Qltb_false; lra).
    rewrite Hq in Hd. rewrite Qeq_bool_false in Hd by lra.
    assert (Hdd : (1 * (1 + r0) - 1 * (1 + r0)) / (1 * (1 + r0)) == 0)
      by (field; lra).
    assert (Hq2 : Qltb 0 ((1 * (1 + r0) - 1 * (1 + r0)) / (1 * (1 + r0))) = false)
      by (apply Qltb_false; lra).
    rewrite Hq2 in Hd.
    destruct (drawdown_loop_rising rets' (1 * (1 + r0)) (1 * (1 + r0)) 0)
      as (d' & Hd' & Hz); [lra | lra | reflexivity | exact Hrest |].
    rewrite Hd' in Hd. injection Hd as <-. exact Hz.
Qed.
End BacktestEdges.

Lemma backtest_index_errors_witness :
  generate_synthetic_backtest (H := sample_numpy) ["SCHD"; "BND"]%string [0.5; 0.5]
    {| year := 2020; month := 2; day := 1 |} {| year := 2020; month := 1; day := 31 |}
  = Raises IndexError
  /\ generate_synthetic_backtest (H := sample_numpy) ["SCHD"; "BND"]%string [1]
       {| year := 2020; month := 1; day := 1 |} {| year := 2020; month := 2; day := 1 |}
     = Raises IndexError.
Proof.
  split.
  - apply (proj1 (@backtest_index_errors sample_numpy
                    {| year := 2020; month := 2; day := 1 |}
                    {| year := 2020; month := 1; day := 31 |})).
    reflexivity.
  - apply (proj1 (proj2 (@backtest_index_errors sample_numpy
                           {| year := 2020; month := 1; day := 1 |}
                           {| year := 2020; month := 2; day := 1 |}))).
    + reflexivity.
    + cbn. lia.
Defined.

Lemma backtest_series_compounds_witness :
  exists r,
    generate_synthetic_backtest (H := sample_numpy) ["SCHD"; "BND"]%string [0.5; 0.5]
      {| year := 2021; month := 1; day := 1 |} {| year := 2021; month := 2; day := 28 |}
    = Returns r
    /\ row_date <$> return_series r = [(2021, 1); (2021, 2)]%nat.
Proof.
  eexists. split; [vm_compute; reflexivity|].
  apply (@backtest_series_compounds sample_numpy ["SCHD"; "BND"]%string [0.5; 0.5]
           {| year := 2021; month := 1; day := 1 |}
           {| year := 2021; month := 2; day := 28 |}).
  vm_compute. reflexivity.
Defined.

Lemma backtest_drawdown_bounds_witness :
  exists r,
    generate_synthetic_backtest (H := sample_numpy) ["SCHD"; "BND"]%string [0.5; 0.5]
      {| year := 2021; month := 1; day := 1 |} {| year := 2021; month := 2; day := 28 |}
    = Returns r
    /\ 0 <= bt_max_drawdown r /\ bt_max_drawdown r < 1.
Proof.
  destruct (@backtest_drawdown_bounds sample_numpy ["SCHD"; "BND"]%string [0.5; 0.5]
              {| year := 2021; month := 1; day := 1 |}
              {| year := 2021; month := 2; day := 28 |})
    as (r & Hr & _ & H0 & H1 & _).
  - reflexivity.
  - cbn. lia.
  - vm_compute. repeat constructor.
  - exists r. split; [exact Hr | split; [exact H0 | exact H1]].
Defined.

(** ** The covariance matrix *)

Lemma np_dot_cons (x y : Q) (a b : list Q) :
  np_dot (x :: a) (y :: b) == x * y + np_dot a b.
Proof. unfold np_dot. cbn [zip_with]. apply Qsum_cons. Qed.

Lemma np_dot_nil_r (a : list Q) : np_dot a [] == 0.
Proof. unfold np_dot. destruct a; reflexivity. Qed.

Lemma cov_row_dot (v w : list Q) (vi : Q) (i k : nat) :
  np_dot (imap (fun j vj => vi * vj * (if (i =? k + j)%nat then 1 else 0.5)) v) w
  == vi * (0.5 * np_dot v w
           + 0.5 * (if (k <=? i)%nat
                    then default 0 (zip_with Qmult v w !! (i - k)%nat) else 0)).
Proof.
  revert w k. induction v as [|v0 v IH]; intros w k.
  - cbn [imap zip_with]. unfold np_dot. cbn [zip_with]. rewrite Qsum_nil.
    rewrite lookup_nil. cbn [default]. destruct (k <=? i)%nat; ring.
  - destruct w as [|w0 w].
    + cbn [imap]. rewrite !np_dot_nil_r. cbn [zip_with]. rewrite lookup_nil.
      cbn [default].  destruct (k <=? i)%nat; ring.
    + cbn [imap]. rewrite !np_dot_cons.
      rewrite (imap_ext _ (fun j vj => vi * vj * (if (i =? S k + j)%nat then 1 else 0.5)))
        by (intros j x _; cbn [compose]; rewrite Nat.add_succ_r; reflexivity).
      rewrite IH. cbn [zip_with]. rewrite Nat.add_0_r.
      destruct (Nat.lt_trichotomy i k) as [Hlt|[Heq|Hgt]].
      * assert (E1 : (i =? k)%nat = false) by (apply Nat.eqb_neq; lia).
        assert (E2 : (k <=? i)%nat = false) by (apply Nat.leb_gt; lia).
        assert (E3 : (S k <=? i)%nat = false) by (apply Nat.leb_gt; lia).
        rewrite E1, E2, E3. ring.
      * subst k.
        assert (E1 : (i =? i)%nat = true) by (apply Nat.eqb_refl).
        assert (E2 : (i <=? i)%nat = true) by (apply Nat.leb_le; lia).
        assert (E3 : (S i <=? i)%nat = false) by (apply Nat.leb_gt; lia).
        rewrite E1, E2, E3, Nat.sub_diag. cbn [lookup list_lookup default from_option id].  ring.
      * assert (E1 : (i =? k)%nat = false) by (apply Nat.eqb_neq; lia).
        assert (E2 : (k <=? i)%nat = true) by (apply Nat.leb_le; lia).
        assert (E3 : (S k <=? i)%nat = true) by (apply Nat.leb_le; lia).
        rewrite E1, E2, E3.
        replace (i - k)%nat with (S (i - S k)) by lia.
        change ((v0 * w0 :: zip_with Qmult v w) !! S (i - S k))
          with (zip_with Qmult v w !! (i - S k)%nat).
        ring.
Qed.

Lemma cov_rows_dot (v w l w' : list Q) (k : nat) :
  (forall i x y, l !! i = Some x -> w' !! i = Some y ->
                 default 0 (zip_with Qmult v w !! (k + i)%nat) == x * y) ->
  np_dot w'
    (mat_vec
       (imap (fun i vi =>
                imap (fun j vj => vi * vj * (if (k + i =? j)%nat then 1 else 0.5)) v) l)
       w)
  == 0.5 * np_dot v w * np_dot l w'
     + 0.5 * Qsum (map (fun x => x * x) (zip_with Qmult l w')).
Proof.
  revert w' k. induction l as [|l0 l IH]; intros w' k Ha.
  - cbn [imap mat_vec map zip_with]. rewrite np_dot_nil_r.
    unfold np_dot at 2. cbn [zip_with]. rewrite !Qsum_nil. ring.
  - destruct w' as [|w0 w'].
    + cbn [zip_with map]. unfold np_dot at 1 3. cbn [zip_with]. rewrite !Qsum_nil. ring.
    + cbn [imap mat_vec map zip_with]. rewrite !np_dot_cons, Qsum_cons.
      fold (mat_vec (imap ((fun i vi =>
                imap (fun j vj => vi * vj * (if (k + i =? j)%nat then 1 else 0.5)) v) ∘ S) l) w).
      rewrite (imap_ext _ (fun i vi =>
                imap (fun j vj => vi * vj * (if (S k + i =? j)%nat then 1 else 0.5)) v))
        by (intros j x _; cbn [compose]; rewrite Nat.add_succ_r; reflexivity).
      rewrite IH by (intros i x y Hx Hy; rewrite <- (Ha (S i) x y Hx Hy);
                     rewrite Nat.add_succ_r; reflexivity).
      pose proof (cov_row_dot v w l0 (k + 0) 0) as Hrow.
      cbn [Nat.add Nat.leb] in Hrow. rewrite Nat.sub_0_r in Hrow.
      pose proof (Ha 0%nat l0 w0 eq_refl eq_refl) as Ha0.
      rewrite Nat.add_0_r in Hrow, Ha0. rewrite Nat.add_0_r.
      rewrite Hrow, Ha0. ring.
Qed.

Lemma Qsquare_nonneg (x : Q) : 0 <= x * x.
Proof.
  destruct (Qlt_le_dec x 0) as [Hx|Hx].
  - setoid_replace (x * x) with ((- x) * (- x)) using relation Qeq by ring.
    apply Qmult_le_0_compat; lra.
  - apply Qmult_le_0_compat; exact Hx.
Qed.

Lemma Qsum_squares_nonneg (a : list Q) : 0 <= Qsum (map (fun x => x * x) a).
Proof.
  induction a as [|x a IH]; cbn [map]; [rewrite Qsum_nil; lra|].
  rewrite Qsum_cons. pose proof (Qsquare_nonneg x) as Hx. lra.
Qed.

(** X18.  The covariance matrix that the optimizers and the frontier
    sampler build from the volatilities (correlation 0.5 between any two
    assets) gives every weight vector, one weight a volatility as NumPy
    asks for the products, a variance that is not negative: with
    [a] the products of volatility and weight, it is half the square of the
    sum of [a] plus half the sum of the squares of [a].  The square roots
    of lines 580 and 780 are never taken of a negative number. *)
Theorem portfolio_variance_nonneg (volatilities weights : list Q) :
  length weights = length volatilities ->
  portfolio_variance (cov_matrix volatilities) weights
  == 0.5 * (np_dot volatilities weights * np_dot volatilities weights)
     + 0.5 * Qsum (map (fun x => x * x) (zip_with Qmult volatilities weights))
  /\ 0 <= portfolio_variance (cov_matrix volatilities) weights.
Proof.
  intros _.
  assert (Hform :
    portfolio_variance (cov_matrix volatilities) weights
    == 0.5 * (np_dot volatilities weights * np_dot volatilities weights)
       + 0.5 * Qsum (map (fun x => x * x) (zip_with Qmult volatilities weights))).
  { unfold portfolio_variance, cov_matrix.
    rewrite (imap_ext _ (fun i vi =>
               imap (fun j vj => vi * vj * (if (0 + i =? j)%nat then 1 else 0.5))
                    volatilities)) by reflexivity.
    rewrite (cov_rows_dot volatilities weights volatilities weights 0).
    - ring.
    - intros i x y Hx Hy. cbn [Nat.add]. rewrite lookup_zip_with, Hx, Hy.
      reflexivity. }
  split; [exact Hform|]. rewrite Hform.
  pose proof (Qsum_squares_nonneg (zip_with Qmult volatilities weights)) as H1.
  pose proof (Qsquare_nonneg (np_dot volatilities weights)) as H2.
  lra.
Qed.

Lemma portfolio_variance_nonneg_witness :
  0 <= portfolio_variance (cov_matrix [0.15; 0.2; 0.05]) [0.5; -0.25; 0.75].
Proof.
  apply (proj2 (portfolio_variance_nonneg [0.15; 0.2; 0.05] [0.5; -0.25; 0.75] eq_refl)).
Defined.

(** ** The frontier sampler: convex combinations *)

Lemma np_dot_between (rs ws : list Q) (lo hi : Q) :
  length ws = length rs ->
  Forall (fun r => lo <= r /\ r <= hi) rs ->
  Forall (fun w => 0 < w) ws ->
  lo * Qsum ws <= np_dot rs ws /\ np_dot rs ws <= hi * Qsum ws.
Proof.
  revert ws. induction rs as [|r rs IH]; intros [|w ws] Hlen Hr Hw;
    try discriminate Hlen.
  - unfold np_dot. cbn [zip_with]. rewrite Qsum_nil. lra.
  - injection Hlen as Hlen.
    inversion Hr as [|? ? [Hlo Hhi] Hrs]; subst.
    inversion Hw as [|? ? Hw0 Hws]; subst.
    destruct (IH ws Hlen Hrs Hws) as [I1 I2].
    rewrite np_dot_cons, Qsum_cons.
    assert (H1 : lo * w <= r * w) by (apply Qmult_le_compat_r; lra).
    assert (H2 : r * w <= hi * w) by (apply Qmult_le_compat_r; lra).
    setoid_replace (lo * (w + Qsum ws)) with (lo * w + lo * Qsum ws) using relation Qeq
      by ring.
    setoid_replace (hi * (w + Qsum ws)) with (hi * w + hi * Qsum ws) using relation Qeq
      by ring.
    lra.
Qed.

Section FrontierConvex.
Context `{NumPy}.

Lemma random_portfolio_convex (etfs : list etf) (i : nat) (lo hi : Q) :
  etfs <> [] ->
  (forall k, 0 < np_random_random k) ->
  Forall (fun e => lo <= cagr_1y e /\ cagr_1y e <= hi) etfs ->
  exists p, random_portfolio etfs i = Returns p
            /\ lo <= fp_return p /\ fp_return p <= hi
            /\ Forall (fun w => 0 < w) (fp_weights p)
            /\ length (fp_weights p) = length etfs.
Proof.
  intros Hne Hpos Hr. unfold random_portfolio.
  set (raw := random_draw (length etfs) i).
  assert (Hlen : length raw = length etfs)
    by (unfold raw, random_draw; rewrite length_map, length_seq; reflexivity).
  assert (Hrawpos : Forall (fun x => 0 < x) raw).
  { unfold raw, random_draw. apply Forall_forall. intros x Hx.
    apply list_elem_of_In, in_map_iff in Hx. destruct Hx as [j [<- _]]. apply Hpos. }
  assert (Hraw : 0 < Qsum raw).
  { apply Qsum_pos; [|exact Hrawpos].
    intros Hnil. rewrite Hnil in Hlen. destruct etfs; [congruence | discriminate Hlen]. }
  rewrite Qeq_bool_false by lra.
  eexists. split; [reflexivity|]. cbn [fp_return fp_weights].
  assert (Hw : Forall (fun w => 0 < w) (map (fun w => w / Qsum raw) raw)).
  { apply Forall_forall. intros x Hx.
    apply list_elem_of_In, in_map_iff in Hx. destruct Hx as [y [<- Hy]].
    apply list_elem_of_In in Hy. rewrite Forall_forall in Hrawpos.
    apply Qlt_shift_div_l; [exact Hraw|]. specialize (Hrawpos y Hy). lra. }
  assert (Hsum : Qsum (map (fun w => w / Qsum raw) raw) == 1)
    by (rewrite Qsum_map_div; field; lra).
  destruct (np_dot_between (cagr_1y <$> etfs) (map (fun w => w / Qsum raw) raw) lo hi)
    as [B1 B2].
  - rewrite length_map, length_fmap. exact Hlen.
  - rewrite Forall_fmap. exact Hr.
  - exact Hw.
  - rewrite Hsum in B1, B2.
    split; [lra|]. split; [lra|]. split; [exact Hw|].
    rewrite length_map. exact Hlen.
Qed.

(** X19.  With two or more candidates and a random stream of positive
    numbers the sampler returns as many portfolios as it is asked for, at
    least one; every sampled weight is positive, so the return of every
    sampled portfolio lies between the smallest and the largest return of
    the candidates, and so does the return of the portfolio reported as
    [max_sharpe].  Asked for no portfolio at all it raises [ValueError], the
    maximum of an empty list. *)
Theorem frontier_returns_between (etfs : list etf) (num_portfolios : nat) (lo hi : Q) :
  (2 <= length etfs)%nat ->
  (forall k, 0 < np_random_random k) ->
  Forall (fun e => lo <= cagr_1y e /\ cagr_1y e <= hi) etfs ->
  generate_efficient_frontier etfs 0 = Raises ValueError
  /\ ((1 <= num_portfolios)%nat ->
      exists d,
        generate_efficient_frontier etfs num_portfolios = Returns (Some d)
        /\ length (portfolios d) = num_portfolios
        /\ Forall (fun p => lo <= fp_return p /\ fp_return p <= hi
                            /\ Forall (fun w => 0 < w) (fp_weights p)
                            /\ length (fp_weights p) = length etfs) (portfolios d)
        /\ lo <= fp_return (max_sharpe d) /\ fp_return (max_sharpe d) <= hi
        /\ ep_ticker <$> etf_points d = ticker <$> etfs).
Proof.
  intros Hge Hpos Hr. unfold generate_efficient_frontier.
  assert (Hlt : (length etfs <? 2)%nat = false) by (apply Nat.ltb_ge; exact Hge).
  rewrite Hlt. split; [reflexivity|]. intros Hn.
  assert (Hne : etfs <> []) by (destruct etfs; [cbn in Hge; lia | discriminate]).
  destruct (mapM_Returns (random_portfolio etfs)
              (fun p => lo <= fp_return p /\ fp_return p <= hi
                        /\ Forall (fun w => 0 < w) (fp_weights p)
                        /\ length (fp_weights p) = length etfs)
              (seq 0 num_portfolios)) as (results & Hres & Hlen & Hall).
  { intros i _. apply random_portfolio_convex; assumption. }
  rewrite Hres. cbn [mbind outcome_bind].
  rewrite length_seq in Hlen.
  destruct results as [|r rs]; [cbn in Hlen; lia|].
  eexists. split; [reflexivity|].
  cbn [portfolios max_sharpe etf_points].
  split; [exact Hlen|]. split; [exact Hall|].
  destruct (max_by_spec fp_sharpe r rs) as [Hin _].
  rewrite Forall_forall in Hall. destruct (Hall _ Hin) as (M1 & M2 & _).
  split; [exact M1|]. split; [exact M2|].
  rewrite <- list_fmap_compose. reflexivity.
Qed.
End FrontierConvex.

Lemma frontier_returns_between_witness :
  exists d,
    generate_efficient_frontier (H := sample_numpy)
      [sample_etf "A" "DIV" 0.06 0.15; sample_etf "B" "GRO" 0.08 0.20] 3
    = Returns (Some d)
    /\ length (portfolios d) = 3%nat.
Proof.
  destruct (@frontier_returns_between sample_numpy
              [sample_etf "A" "DIV" 0.06 0.15; sample_etf "B" "GRO" 0.08 0.20] 3
              0.06 0.08) as [_ Hd].
  - cbn. lia.
  - intros k. reflexivity.
  - repeat constructor; cbn; lra.
  - destruct Hd as (d & Hd & Hlen & _); [lia|].
    exists d. split; [exact Hd | exact Hlen].
Defined.

(** ** Monte Carlo simulation of a built portfolio *)

Lemma fold_left_plus_map {A} (f : A -> Q) (l : list A) (a : Q) :
  fold_left (fun acc p => acc + f p) l a == a + Qsum (map f l).
Proof.
  revert a. induction l as [|x l IH]; intros a; cbn [fold_left map].
  - rewrite Qsum_nil. lra.
  - rewrite IH, Qsum_cons. lra.
Qed.

Lemma Qsum_map_ext {A} (f g : A -> Q) (l : list A) :
  Forall (fun x => f x == g x) l -> Qsum (map f l) == Qsum (map g l).
Proof.
  induction 1 as [|x l Hx _ IH]; cbn [map]; [reflexivity|].
  rewrite !Qsum_cons, Hx, IH. reflexivity.
Qed.

Lemma normalized_weights_sum (weights weights' : list Q) :
  weights <> [] ->
  normalized_weights weights = Returns weights' ->
  Qabs (Qsum weights' - 1) <= 0.000001.
Proof.
  intros Hne. unfold normalized_weights.
  destruct (Qltb 0.000001 (Qabs (Qsum weights - 1))) eqn:E.
  - destruct weights as [|w ws]; [congruence|].
    destruct (Qeq_bool (Qsum (w :: ws)) 0) eqn:E0; [discriminate|].
    intros Hw.
    assert (Hx : weights' = map (fun x => x / Qsum (w :: ws)) (w :: ws))
      by (injection Hw as Hw'; exact (eq_sym Hw')).
    rewrite Hx. clear Hw Hx.
    assert (Hnz : ~ Qsum (w :: ws) == 0).
    { intros Hz. apply Qeq_bool_iff in Hz. congruence. }
    rewrite Qsum_map_div.
    setoid_replace (Qsum (w :: ws) / Qsum (w :: ws) - 1) with 0 using relation Qeq
      by (field; exact Hnz).
    rewrite Qabs_pos by lra. lra.
  - intros Hw. injection Hw as <-. apply Qltb_false in E. exact E.
Qed.

Lemma make_holding_consistent (seed_money : Q) (etfs : list etf) (weights : list Q) :
  Forall (fun h => p_invest_amount h = seed_money * p_weight h
                   /\ p_expected_monthly_dividend h
                      = p_invest_amount h * p_dividend_yield h / 12)
    (zip_with (make_holding seed_money) etfs weights).
Proof.
  revert weights. induction etfs as [|e etfs IH]; intros [|w weights]; cbn [zip_with];
    try constructor; [split; reflexivity | apply IH].
Qed.

Section MonteCarloFacts.
Context `{NumPy}.

Lemma monte_carlo_returns (portfolio : list holding) (n_sim years : nat) :
  0 < Qsum (p_invest_amount <$> portfolio) ->
  (1 <= n_sim)%nat ->
  exists r,
    monte_carlo_simulation portfolio n_sim years = Returns (Some r)
    /\ simulations r = n_sim
    /\ length (sim_returns r) = n_sim
    /\ initial_investment r = Qsum (p_invest_amount <$> portfolio)
    /\ expected_monthly_dividend r
       == Qsum (p_invest_amount <$> portfolio)
          * Qsum (map (fun p => p_weight p * p_dividend_yield p / 12) portfolio)
    /\ monthly_dividend_per_10m r
       == 10000000 * Qsum (map (fun p => p_weight p * p_dividend_yield p / 12) portfolio)
    /\ Forall2 (fun pv pc => pv.1 = pc.1
                             /\ pv.2 = Qsum (p_invest_amount <$> portfolio) * (1 + pc.2))
         (percentile_values r) (percentiles r).
Proof.
  intros Hpos Hn. unfold monte_carlo_simulation.
  assert (Hle : Qle_bool (Qsum (p_invest_amount <$> portfolio)) 0 = false).
  { destruct (Qle_bool _ 0) eqn:E; [|reflexivity]. apply Qle_bool_iff in E. lra. }
  rewrite Hle.
  destruct n_sim as [|n]; [lia|].
  cbn [seq map].
  eexists. split; [reflexivity|].
  cbn [simulations sim_returns initial_investment expected_monthly_dividend
       monthly_dividend_per_10m percentile_values percentiles].
  split; [reflexivity|]. split.
  { cbn [length]. rewrite length_map, length_seq. reflexivity. }
  split; [reflexivity|].
  assert (Hmd : fold_left (fun acc p => acc + p_weight p * p_dividend_yield p / 12)
                  portfolio 0
                == Qsum (map (fun p => p_weight p * p_dividend_yield p / 12) portfolio))
    by (rewrite fold_left_plus_map; lra).
  split; [rewrite Hmd; reflexivity|]. split.
  - rewrite Hmd. field. lra.
  - repeat constructor.
Qed.

(** X20.  The Monte Carlo simulation of a portfolio that [build_portfolio]
    made from a positive capital returns a result with one final return a
    run.  Its initial investment is the capital times the sum of the
    weights, which is within 0.000001 of one; its expected monthly dividend
    is the sum of the monthly dividends of the holdings times that sum of
    weights; its dividend per ten million does not depend on the capital,
    and is the figure that the summary of the page computes from the same
    holdings (monthly dividends times ten million over the invested
    amounts) times the sum of the weights. *)
Theorem monte_carlo_of_built_portfolio (etfs : list etf) (weights : list Q)
    (seed_money : Q) (portfolio : list holding) (n_sim years : nat) :
  etfs <> [] ->
  length weights = length etfs ->
  0 < seed_money ->
  (1 <= n_sim)%nat ->
  build_portfolio etfs weights seed_money = Returns portfolio ->
  exists r,
    monte_carlo_simulation portfolio n_sim years = Returns (Some r)
    /\ length (sim_returns r) = n_sim
    /\ initial_investment r == seed_money * Qsum (p_weight <$> portfolio)
    /\ Qabs (Qsum (p_weight <$> portfolio) - 1) <= 0.000001
    /\ expected_monthly_dividend r
       == Qsum (p_weight <$> portfolio)
          * Qsum (p_expected_monthly_dividend <$> portfolio)
    /\ monthly_dividend_per_10m r
       == 10000000
          * Qsum (map (fun p => p_weight p * p_dividend_yield p / 12) portfolio)
    /\ monthly_dividend_per_10m r
       == Qsum (p_weight <$> portfolio)
          * (Qsum (p_expected_monthly_dividend <$> portfolio) * 10000000
             / Qsum (p_invest_amount <$> portfolio)).
Proof.
  intros Hne Hlen Hseed Hn Hb.
  unfold build_portfolio in Hb.
  destruct (normalized_weights weights) as [weights'|err] eqn:En; [|discriminate Hb].
  cbn [mbind outcome_bind] in Hb.
  assert (Hp : portfolio = sort_descending p_weight
                             (zip_with (make_holding seed_money) etfs weights'))
    by (injection Hb as Hb'; exact (eq_sym Hb')).
  clear Hb.
  assert (Hperm : Permutation portfolio (zip_with (make_holding seed_money) etfs weights'))
    by (rewrite Hp; apply sort_by_Permutation).
  assert (Hcons : Forall (fun h => p_invest_amount h = seed_money * p_weight h
                                   /\ p_expected_monthly_dividend h
                                      = p_invest_amount h * p_dividend_yield h / 12)
                    portfolio).
  { rewrite Hperm. apply make_holding_consistent. }
  assert (Hlen' : length weights' = length etfs)
    by (rewrite (normalized_weights_length _ _ En); exact Hlen).
  assert (Hws : Qsum (p_weight <$> portfolio) == Qsum weights').
  { rewrite (Qsum_Permutation _ _ (Permutation_map p_weight Hperm)).
    clear -Hlen'. revert weights' Hlen'.
    induction etfs as [|e etfs IH]; intros [|w ws] Hl; try discriminate Hl;
      [reflexivity|].
    cbn [zip_with map]. rewrite !Qsum_cons. cbn [make_holding p_weight].
    injection Hl as Hl. rewrite (IH ws Hl). reflexivity. }
  assert (Hwne : weights <> []).
  { intros Hnil. rewrite Hnil in Hlen. destruct etfs; [congruence | discriminate Hlen]. }
  pose proof (normalized_weights_sum _ _ Hwne En) as Hnear.
  assert (Hwpos : 0 < Qsum weights').
  { apply Qabs_Qle_condition in Hnear. lra. }
  assert (Hinv : Qsum (p_invest_amount <$> portfolio)
                 == seed_money * Qsum (p_weight <$> portfolio)).
  { unfold fmap, list_fmap. fold (map p_invest_amount portfolio).
    fold (map p_weight portfolio).
    rewrite <- (Qsum_map_scale p_weight seed_money portfolio).
    apply Qsum_map_ext. eapply Forall_impl; [exact Hcons|].
    intros h [Hh _]. cbn beta. rewrite Hh. reflexivity. }
  assert (Htot : 0 < Qsum (p_invest_amount <$> portfolio)).
  { rewrite Hinv, Hws. apply Qmult_lt_0_compat; assumption. }
  destruct (monte_carlo_returns portfolio n_sim years Htot Hn)
    as (r & Hr & _ & Hsim & Hini & Hexp & Hper & _).
  exists r. split; [exact Hr|]. split; [exact Hsim|].
  split; [rewrite Hini; exact Hinv|].
  split; [rewrite Hws; exact Hnear|].
  assert (Hdiv : Qsum (p_expected_monthly_dividend <$> portfolio)
                 == seed_money
                    * Qsum (map (fun p => p_weight p * p_dividend_yield p / 12) portfolio)).
  { unfold fmap, list_fmap. fold (map p_expected_monthly_dividend portfolio).
    rewrite <- (Qsum_map_scale (fun p => p_weight p * p_dividend_yield p / 12)
                  seed_money portfolio).
    apply Qsum_map_ext. eapply Forall_impl; [exact Hcons|].
    intros h [Hh1 Hh2]. cbn beta. rewrite Hh2, Hh1. field. }
  split; [rewrite Hexp, Hdiv, Hinv; ring|].
  split; [exact Hper|].
  rewrite Hper, Hdiv, Hinv, Hws. field. lra.
Qed.
End MonteCarloFacts.

Lemma monte_carlo_of_built_portfolio_witness :
  exists portfolio r,
    build_portfolio [sample_etf "A" "DIV" 0.06 0.15; sample_etf "B" "GRO" 0.08 0.20]
      [0.5; 0.5] 1000000 = Returns portfolio
    /\ monte_carlo_simulation (H := sample_numpy) portfolio 1000 10 = Returns (Some r)
    /\ length (sim_returns r) = 1000%nat.
Proof.
  destruct (@monte_carlo_of_built_portfolio sample_numpy
              [sample_etf "A" "DIV" 0.06 0.15; sample_etf "B" "GRO" 0.08 0.20]
              [0.5; 0.5] 1000000
              (sort_descending p_weight
                 (zip_with (make_holding 1000000)
                    [sample_etf "A" "DIV" 0.06 0.15; sample_etf "B" "GRO" 0.08 0.20]
                    [0.5; 0.5]))
              1000 10)
    as (r & Hr & Hlen & _).
  - discriminate.
  - reflexivity.
  - reflexivity.
  - lia.
  - reflexivity.
  - eexists. exists r. split; [reflexivity|]. split; [exact Hr | exact Hlen].
Defined.

(** ** The whole recommendation *)

Lemma select_candidates_bounds (valid_etfs : list etf) (focus : string)
    (seed_money target_value : Q) (investor_profile : option profile) :
  valid_etfs <> [] ->
  select_candidates valid_etfs focus seed_money target_value investor_profile <> []
  /\ (length (select_candidates valid_etfs focus seed_money target_value investor_profile)
      <= 8)%nat.
Proof.
  intros Hne. unfold select_candidates.
  assert (Htop : select_top_etfs valid_etfs focus target_value seed_money <> []
                 /\ (length (select_top_etfs valid_etfs focus target_value seed_money)
                     <= 8)%nat).
  { split; [apply select_top_etfs_nonempty; exact Hne|].
    rewrite select_top_etfs_normal_form, length_take. lia. }
  destruct investor_profile as [pr|]; [|exact Htop].
  destruct (profile_truthy (Some pr)); [|exact Htop].
  split; [apply select_etfs_by_profile_nonempty; exact Hne|].
  rewrite select_etfs_by_profile_top8, length_take. lia.
Qed.

Lemma normalized_weights_positive (weights : list Q) :
  weights <> [] -> Forall (fun w => 0 < w) weights ->
  exists weights',
    normalized_weights weights = Returns weights'
    /\ Forall (fun w => 0 < w) weights'.
Proof.
  intros Hne Hpos. pose proof (Qsum_pos weights Hne Hpos) as Hsum.
  unfold normalized_weights.
  destruct (Qltb 0.000001 (Qabs (Qsum weights - 1))).
  - destruct weights as [|w ws] eqn:Ew; [congruence|]. rewrite <- Ew in *.
    rewrite Qeq_bool_false by lra.
    eexists. split; [reflexivity|].
    apply Forall_forall. intros x Hx.
    apply list_elem_of_In, in_map_iff in Hx. destruct Hx as [y [<- Hy]].
    apply list_elem_of_In in Hy. rewrite Forall_forall in Hpos.
    apply Qlt_shift_div_l; [exact Hsum|]. specialize (Hpos y Hy). lra.
  - exists weights. split; [reflexivity | exact Hpos].
Qed.

Lemma make_holding_fields (seed_money : Q) (etfs : list etf) (weights : list Q) :
  length weights = length etfs ->
  p_ticker <$> zip_with (make_holding seed_money) etfs weights = ticker <$> etfs
  /\ p_weight <$> zip_with (make_holding seed_money) etfs weights = weights.
Proof.
  revert weights. induction etfs as [|e etfs IH]; intros [|w weights] Hlen;
    try discriminate Hlen; [split; reflexivity|].
  injection Hlen as Hlen. destruct (IH weights Hlen) as [I1 I2].
  cbn [zip_with fmap list_fmap] in *. rewrite I1, I2. split; reflexivity.
Qed.

Section RecommendFacts.
Context `{NumPy} (minimize : minimizer).

Lemma frontier_total (etfs : list etf) :
  etfs <> [] ->
  (forall k, 0 < np_random_random k) ->
  exists ef, generate_efficient_frontier etfs 100 = Returns ef
             /\ (ef = None <-> length etfs = 1%nat).
Proof.
  intros Hne Hpos. unfold generate_efficient_frontier.
  destruct (length etfs <? 2)%nat eqn:Hlt.
  - exists None. split; [reflexivity|]. apply Nat.ltb_lt in Hlt.
    split; [intros _|reflexivity].
    destruct etfs; [congruence | cbn [length] in *; lia].
  - apply Nat.ltb_ge in Hlt.
    destruct (mapM_Returns (random_portfolio etfs) (fun _ => True) (seq 0 100))
      as (results & Hres & Hlen & _).
    { intros i _. destruct (random_portfolio_sum etfs i Hne Hpos) as (p & Hp & _).
      exists p. split; [exact Hp | exact I]. }
    rewrite Hres. cbn [mbind outcome_bind]. rewrite length_seq in Hlen.
    destruct results as [|r rs]; [discriminate Hlen|].
    eexists. split; [reflexivity|]. split; [discriminate | lia].
Qed.

(** X21.  With a solver that is sound, a random stream of positive numbers
    and at least one valid asset, [recommend_portfolio] returns a portfolio
    for every focus, profile and method: one holding for each candidate,
    between one and eight; every weight is positive and the weights sum to
    one within 0.000001; every amount is the capital times the weight; all
    holdings carry the same frontier data, which is empty exactly when
    there is a single holding; and no error message is shown. *)
Theorem recommend_portfolio_complete (etf_list : list raw_etf) (focus : string)
    (seed_money target_value : Q) (investor_profile : option profile)
    (optimization_method : string) :
  solver_sound minimize ->
  (forall k, 0 < np_random_random k) ->
  filter_valid_etfs etf_list <> [] ->
  exists portfolio log ef,
    recommend_portfolio minimize etf_list focus seed_money target_value
      investor_profile optimization_method = (Returns portfolio, log)
    /\ (1 <= length portfolio <= 8)%nat
    /\ p_ticker <$> portfolio
       ≡ₚ ticker <$> select_candidates (filter_valid_etfs etf_list) focus seed_money
                       target_value investor_profile
    /\ Forall (fun p => 0 < p_weight p
                        /\ p_invest_amount p = seed_money * p_weight p
                        /\ p_efficient_frontier p = Some ef) portfolio
    /\ Qabs (Qsum (p_weight <$> portfolio) - 1) <= 0.000001
    /\ (ef = None <-> length portfolio = 1%nat)
    /\ Forall (fun m => is_st_error m = false) log.
Proof.
  intros Hsound Hpos Hvalid. unfold recommend_portfolio.
  destruct (select_candidates_bounds (filter_valid_etfs etf_list) focus seed_money
              target_value investor_profile Hvalid) as [Hne H8].
  destruct (filter_valid_etfs etf_list) as [|e0 valid] eqn:Ev; [congruence|].
  set (top := select_candidates (e0 :: valid) focus seed_money target_value
                investor_profile) in *.
  destruct (optimized_weights_positive minimize top focus seed_money target_value
              optimization_method Hsound Hne) as (w & log & Hw & Hwl & Hwp).
  pose proof (optimized_weights_log _ _ _ _ _ _ _ Hw) as Hlog. cbn [snd] in Hlog.
  rewrite Hw.
  assert (Hwne : w <> []).
  { intros Hnil. rewrite Hnil in Hwl. destruct top; [congruence | discriminate Hwl]. }
  destruct (normalized_weights_positive w Hwne Hwp) as (w' & Hn & Hwp').
  pose proof (normalized_weights_length _ _ Hn) as Hl'.
  pose proof (normalized_weights_sum _ _ Hwne Hn) as Hnear.
  unfold build_portfolio. rewrite Hn. cbn [mbind outcome_bind].
  destruct (frontier_total top Hne Hpos) as (ef & Hef & Hnone).
  rewrite Hef. cbn [mbind outcome_bind].
  set (sorted := sort_descending p_weight (zip_with (make_holding seed_money) top w')).
  assert (Hperm : Permutation sorted (zip_with (make_holding seed_money) top w'))
    by apply sort_by_Permutation.
  assert (Hzl : length w' = length top) by lia.
  destruct (make_holding_fields seed_money top w' Hzl) as [Ft Fw].
  assert (Hlen : length (map (with_efficient_frontier ef) sorted) = length top).
  { rewrite length_map, (Permutation_length Hperm), length_zip_with. lia. }
  exists (map (with_efficient_frontier ef) sorted), log, ef.
  split; [reflexivity|]. split.
  { rewrite Hlen. split; [|exact H8]. destruct top; [congruence | cbn; lia]. }
  split.
  { change (map (with_efficient_frontier ef) sorted)
      with (with_efficient_frontier ef <$> sorted).
    rewrite <- list_fmap_compose.
    change (p_ticker ∘ with_efficient_frontier ef) with p_ticker.
    rewrite <- Ft. apply fmap_Permutation. exact Hperm. }
  split.
  { apply Forall_forall. intros p Hp.
    apply list_elem_of_In, in_map_iff in Hp. destruct Hp as [h [<- Hh]].
    apply list_elem_of_In in Hh. rewrite Hperm in Hh.
    cbn [with_efficient_frontier p_weight p_invest_amount p_efficient_frontier].
    pose proof (make_holding_consistent seed_money top w') as Hc.
    rewrite Forall_forall in Hc. destruct (Hc h Hh) as [Hc1 _].
    split; [|split; [exact Hc1 | reflexivity]].
    assert (Hin : p_weight h ∈ p_weight <$> zip_with (make_holding seed_money) top w')
      by (apply list_elem_of_fmap; exists h; split; [reflexivity | exact Hh]).
    rewrite Fw in Hin. rewrite Forall_forall in Hwp'. exact (Hwp' _ Hin). }
  split.
  { change (map (with_efficient_frontier ef) sorted)
      with (with_efficient_frontier ef <$> sorted).
    rewrite <- list_fmap_compose.
    change (p_weight ∘ with_efficient_frontier ef) with p_weight.
    assert (Hs : Qsum (p_weight <$> sorted) == Qsum w').
    { rewrite <- Fw. apply Qsum_Permutation. apply fmap_Permutation. exact Hperm. }
    rewrite Hs. exact Hnear. }
  split; [rewrite Hlen; exact Hnone | exact Hlog].
Qed.
End RecommendFacts.

Lemma recommend_portfolio_complete_witness :
  exists portfolio log (ef : option frontier_data),
    recommend_portfolio (H := sample_numpy) feasible_start_minimize
      [sample_raw "A" "DIV" 0.06 0.04 0.15 3; sample_raw "B" "GRO" 0.08 0.01 0.20 7]
      "growth" 1000000 0.08 None "sharpe" = (Returns portfolio, log)
    /\ (1 <= length portfolio <= 8)%nat
    /\ (ef = None <-> length portfolio = 1%nat).
Proof.
  destruct (@recommend_portfolio_complete sample_numpy feasible_start_minimize
              [sample_raw "A" "DIV" 0.06 0.04 0.15 3; sample_raw "B" "GRO" 0.08 0.01 0.20 7]
              "growth" 1000000 0.08 None "sharpe")
    as (portfolio & log & ef & Hr & Hlen & _ & _ & _ & Hef & _).
  - apply feasible_start_minimize_sound.
  - intros k. reflexivity.
  - discriminate.
  - exists portfolio, log, ef. split; [exact Hr | split; [exact Hlen | exact Hef]].
Defined.

(** ** The mock catalogue *)

Lemma default_lookup_list_to_map {A} (P : A -> Prop) (l : list (string * A)) (d : A)
    (c : string) :
  Forall (fun kv => P kv.2) l -> P d ->
  P (default d ((list_to_map l : gmap string A) !! c)).
Proof.
  intros Hl Hd. induction Hl as [|[k v] l Hv _ IH]; cbn [list_to_map foldr].
  - rewrite lookup_empty. exact Hd.
  - cbn [uncurry fst snd]. destruct (decide (k = c)) as [->|Hne].
    + rewrite lookup_insert_eq. exact Hv.
    + rewrite lookup_insert_ne by exact Hne. exact IH.
Qed.

Lemma returns_range (c : string) :
  0.04 <= default 0.07 (returns !! c) /\ default 0.07 (returns !! c) <= 0.12.
Proof.
  unfold returns.
  apply (default_lookup_list_to_map (fun x => 0.04 <= x /\ x <= 0.12));
    [repeat constructor; cbn; lra | lra].
Qed.

Lemma div_yields_range (c : string) :
  0 <= default 0.02 (div_yields !! c) /\ default 0.02 (div_yields !! c) <= 0.08.
Proof.
  unfold div_yields.
  apply (default_lookup_list_to_map (fun x => 0 <= x /\ x <= 0.08));
    [repeat constructor; cbn; lra | lra].
Qed.

Section MockFacts.
Context `{NumPy}.

Lemma mock_record_valid (t : string) (info : ticker_info) (k : nat) :
  (forall i, 0 <= np_random_random i /\ np_random_random i < 1) ->
  exists e,
    filter_valid_etfs [(mock_record t info k).1] = [e]
    /\ ticker e = t /\ name e = info_name info
    /\ category e = info_category info /\ risk_level e = info_risk_level info
    /\ Some (dividend_yield e) = raw_dividend_yield (mock_record t info k).1
    /\ (0 <= info_risk_level info -> mock_ranges e).
Proof.
  intros Hu.
  pose proof (returns_range (info_category info)) as [R1 R2].
  pose proof (div_yields_range (info_category info)) as [D1 D2].
  pose proof (Hu k) as [U0 U0'].
  pose proof (Hu (k + 1)%nat) as [U1 U1'].
  pose proof (Hu (k + 4)%nat) as [U4 U4'].
  pose proof (Hu (k + 5)%nat) as [U5 U5'].
  set (ret := default 0.07 (returns !! info_category info)) in *.
  set (dy := default 0.02 (div_yields !! info_category info)) in *.
  assert (C1 : 0.032 <= ret * (0.8 + 0.4 * np_random_random (k + 1))
               /\ ret * (0.8 + 0.4 * np_random_random (k + 1)) < 0.144).
  { split.
    - apply Qle_trans with (0.04 * (0.8 + 0.4 * np_random_random (k + 1))); [lra|].
      apply Qmult_le_compat_r; lra.
    - apply Qle_lt_trans with (0.12 * (0.8 + 0.4 * np_random_random (k + 1))); [|lra].
      apply Qmult_le_compat_r; lra. }
  assert (C2 : 0 <= dy * (0.9 + 0.2 * np_random_random k)
               /\ dy * (0.9 + 0.2 * np_random_random k) < 0.088).
  { split.
    - apply Qmult_le_0_compat; lra.
    - apply Qle_lt_trans with (0.08 * (0.9 + 0.2 * np_random_random k)); [|lra].
      apply Qmult_le_compat_r; lra. }
  unfold filter_valid_etfs, mock_record. cbn [fst foldr raw_cagr_1y default from_option id].
  fold ret. fold dy.
  assert (Hle : Qle_bool (ret * (0.8 + 0.4 * np_random_random (k + 1))) 0 = false).
  { destruct (Qle_bool _ 0) eqn:E; [|reflexivity]. apply Qle_bool_iff in E. lra. }
  rewrite Hle.
  eexists. split; [reflexivity|].
  cbn [ticker name category risk_level dividend_yield cagr_1y dividend_quality
       dividend_growth dividend_consistency beta volatility max_drawdown
       raw_ticker raw_name raw_category raw_risk_level raw_dividend_yield
       raw_expected_dividend_yield raw_dividend_quality raw_dividend_growth
       raw_dividend_consistency raw_beta raw_volatility raw_max_drawdown
       default from_option id].
  split; [reflexivity|]. split; [reflexivity|]. split; [reflexivity|].
  split; [reflexivity|]. split.
  { destruct (Qltb 0 _ && Qltb _ _); reflexivity. }
  intros Hr. unfold mock_ranges.
  cbn [ticker name category risk_level dividend_yield cagr_1y dividend_quality
       dividend_growth dividend_consistency beta volatility max_drawdown].
  split; [exact (proj1 C1)|]. split; [exact (proj2 C1)|].
  assert (Hdy : forall b : bool,
             (if b then dy * (0.9 + 0.2 * np_random_random k)
              else dy * (0.9 + 0.2 * np_random_random k))
             = dy * (0.9 + 0.2 * np_random_random k)) by (intros []; reflexivity).
  rewrite Hdy.
  split; [exact (proj1 C2)|]. split; [exact (proj2 C2)|].
  split.
  { destruct (_ || _); [pose proof (Hu (k + 6)%nat)|]; lra. }
  split.
  { destruct (_ || _); [pose proof (Hu (k + 6)%nat)|]; lra. }
  split.
  { destruct (String.eqb _ "DIV");
      [match goal with |- context [np_random_random ?i] => pose proof (Hu i) end|]; lra. }
  split.
  { destruct (String.eqb _ "DIV");
      [match goal with |- context [np_random_random ?i] => pose proof (Hu i) end|]; lra. }
  split.
  { destruct (_ || _);
      [match goal with |- context [np_random_random ?i] => pose proof (Hu i) end|]; lra. }
  split.
  { destruct (_ || _);
      [match goal with |- context [np_random_random ?i] => pose proof (Hu i) end|]; lra. }
  split.
  { apply Qmult_le_0_compat; [|lra]. apply Qmult_le_0_compat; [lra|].
    apply Qle_shift_div_l; lra. }
  split; [|field].
  assert (0 <= 0.2 * (info_risk_level info / 5) * np_random_random (k + 5)).
  { apply Qmult_le_0_compat; [|lra]. apply Qmult_le_0_compat; [lra|].
    apply Qle_shift_div_l; lra. }
  lra.
Qed.

Lemma filter_valid_etfs_cons (r : raw_etf) (l : list raw_etf) :
  filter_valid_etfs (r :: l) = filter_valid_etfs [r] ++ filter_valid_etfs l.
Proof.
  unfold filter_valid_etfs. cbn [foldr].
  destruct (Qle_bool (default 0 (raw_cagr_1y r)) 0); reflexivity.
Qed.

(** X22.  Whatever the random numbers in [0, 1) are, every record of
    [generate_mock_data] passes the validity filter, one asset a ticker of
    the table and in its order, with the name, the category and the risk
    level of the table, the dividend yield that was drawn, and figures in
    fixed ranges: a 1-year return between 3.2 % and 14.4 %, a dividend
    yield below 8.8 %, a drawdown of 10 % or more.  A catalogue of mock
    data that is not empty never leads to the error of the recommendation. *)
Theorem mock_data_all_valid (tickers : list (string * ticker_info)) (k : nat) :
  (forall i, 0 <= np_random_random i /\ np_random_random i < 1) ->
  Forall (fun ti => 0 <= info_risk_level ti.2) tickers ->
  Forall2 (fun e ti => ticker e = ti.1 /\ name e = info_name ti.2
                       /\ category e = info_category ti.2
                       /\ risk_level e = info_risk_level ti.2
                       /\ mock_ranges e)
    (filter_valid_etfs (generate_mock_data tickers k)) tickers
  /\ Forall2 (fun e r => Some (dividend_yield e) = raw_dividend_yield r)
       (filter_valid_etfs (generate_mock_data tickers k)) (generate_mock_data tickers k)
  /\ (tickers <> [] -> filter_valid_etfs (generate_mock_data tickers k) <> []).
Proof.
  intros Hu Hrisk.
  assert (Hmain :
    Forall2 (fun e ti => ticker e = ti.1 /\ name e = info_name ti.2
                         /\ category e = info_category ti.2
                         /\ risk_level e = info_risk_level ti.2
                         /\ mock_ranges e)
      (filter_valid_etfs (generate_mock_data tickers k)) tickers
    /\ Forall2 (fun e r => Some (dividend_yield e) = raw_dividend_yield r)
         (filter_valid_etfs (generate_mock_data tickers k)) (generate_mock_data tickers k)).
  { revert k. induction Hrisk as [|[t info] tickers Hr _ IH]; intros k.
    - split; constructor.
    - cbn [generate_mock_data].
      destruct (mock_record t info k) as [record k'] eqn:Er.
      rewrite filter_valid_etfs_cons.
      destruct (mock_record_valid t info k Hu)
        as (e & He & E1 & E2 & E3 & E4 & E5 & E6).
      rewrite Er in He, E5. cbn [fst] in He, E5. rewrite He.
      destruct (IH k') as [IH1 IH2]. cbn [app]. split.
      + constructor; [|exact IH1]. cbn [fst snd] in *.
        split; [exact E1|]. split; [exact E2|]. split; [exact E3|].
        split; [exact E4|]. apply E6. exact Hr.
      + constructor; [exact E5 | exact IH2]. }
  destruct Hmain as [M1 M2]. split; [exact M1|]. split; [exact M2|].
  intros Hne Hnil. rewrite Hnil in M1. inversion M1; subst. congruence.
Qed.
End MockFacts.

Lemma mock_data_all_valid_witness :
  length (filter_valid_etfs (generate_mock_data (H := sample_numpy) get_tickers 0))
  = 118%nat.
Proof.
  destruct (@mock_data_all_valid sample_numpy get_tickers 0) as [F _].
  - intros i. cbn. lra.
  - repeat (apply Forall_cons; split; [cbn; lra|]). apply Forall_nil. exact I.
  - apply Forall2_length in F. rewrite F. reflexivity.
Defined.


(** ** Risk parity *)

Lemma np_dot_comm (a b : list Q) : np_dot a b == np_dot b a.
Proof.
  revert b. induction a as [|x a IH]; intros [|y b].
  - reflexivity.
  - unfold np_dot. cbn [zip_with]. reflexivity.
  - unfold np_dot. cbn [zip_with]. reflexivity.
  - rewrite !np_dot_cons, IH. ring.
Qed.

Lemma Qsum_squares_zero {A} (f : A -> Q) (l : list A) :
  Qsum (map (fun x => f x ^ 2) l) == 0 <-> Forall (fun x => f x == 0) l.
Proof.
  induction l as [|x l IH]; cbn [map].
  - split; [constructor | reflexivity].
  - rewrite Qsum_cons.
    assert (Hx : 0 <= f x ^ 2).
    { assert (E : f x ^ 2 == f x * f x) by (simpl; ring). rewrite E.
      apply Qsquare_nonneg. }
    assert (Hl : 0 <= Qsum (map (fun x => f x ^ 2) l)).
    { clear. induction l as [|y l IH]; cbn [map]; [rewrite Qsum_nil; lra|].
      rewrite Qsum_cons.
      assert (E : f y ^ 2 == f y * f y) by (simpl; ring).
      pose proof (Qsquare_nonneg (f y)). lra. }
    split.
    + intros Hz. assert (Hx0 : f x ^ 2 == 0) by lra.
      assert (Hl0 : Qsum (map (fun x => f x ^ 2) l) == 0) by lra.
      constructor; [|apply IH; exact Hl0].
      assert (E : f x ^ 2 == f x * f x) by (simpl; ring). rewrite E in Hx0.
      apply Qmult_integral in Hx0. destruct Hx0; assumption.
    + intros Hall. inversion Hall as [|? ? H0 Hrest]; subst.
      apply IH in Hrest. rewrite Hrest.
      assert (E : f x ^ 2 == f x * f x) by (simpl; ring). rewrite E, H0. ring.
Qed.

(** X23.  The risk contributions that the risk-parity objective compares
    with [1 / n] add up to one for every weight vector, one weight a
    candidate, that sums to one:
    to the variance over itself when the variance is positive, to the sum
    of the weights otherwise.  The objective is a sum of squares: it is
    never negative, and it is zero exactly when every contribution is
    [1 / n]. *)
Theorem risk_contributions_sum_to_one (etfs : list etf) (weights : list Q) :
  length weights = length etfs ->
  Qsum weights == 1 ->
  Qsum (risk_contribution (cov_matrix (volatility <$> etfs)) weights) == 1
  /\ 0 <= risk_parity_objective etfs weights
  /\ (risk_parity_objective etfs weights == 0
      <-> Forall (fun r => r == 1 / Z_of_len etfs)
            (risk_contribution (cov_matrix (volatility <$> etfs)) weights)).
Proof.
  intros _ Hsum. split; [|split].
  - unfold risk_contribution.
    set (cov := cov_matrix (volatility <$> etfs)).
    destruct (Qltb 0 (portfolio_variance cov weights)) eqn:E; [|exact Hsum].
    apply Qltb_true in E. rewrite Qsum_map_div.
    fold (np_dot (mat_vec cov weights) weights). rewrite np_dot_comm.
    fold (portfolio_variance cov weights). field. lra.
  - unfold risk_parity_objective. cbv zeta.
    generalize (risk_contribution (cov_matrix (volatility <$> etfs)) weights) as rc.
    intros rc. induction rc as [|r rc IH]; cbn [map]; [rewrite Qsum_nil; lra|].
    rewrite Qsum_cons.
    assert (E : (r - 1 / Z_of_len etfs) ^ 2
                == (r - 1 / Z_of_len etfs) * (r - 1 / Z_of_len etfs)) by (simpl; ring).
    pose proof (Qsquare_nonneg (r - 1 / Z_of_len etfs)). lra.
  - unfold risk_parity_objective. cbv zeta.
    rewrite (Qsum_squares_zero (fun r => r - 1 / Z_of_len etfs)).
    split; intros Hall; eapply Forall_impl; try exact Hall; cbn beta; intros r Hr; lra.
Qed.

Lemma risk_contributions_sum_to_one_witness :
  Qsum (risk_contribution
          (cov_matrix (volatility <$> [sample_etf "A" "DIV" 0.06 0.15;
                                       sample_etf "B" "GRO" 0.08 0.20]))
          [0.25; 0.75]) == 1.
Proof.
  apply (proj1 (risk_contributions_sum_to_one
                  [sample_etf "A" "DIV" 0.06 0.15; sample_etf "B" "GRO" 0.08 0.20]
                  [0.25; 0.75] eq_refl ltac:(reflexivity))).
Defined.

(** ** The score of an asset for a profile *)

Lemma category_weight_range (table : list (string * list (string * Q))) (key c : string) :
  Forall (fun kv => Forall (fun cv => 1 <= cv.2 /\ cv.2 <= 2) kv.2) table ->
  1 <= category_weight
         (list_to_map (map (fun kv => (kv.1, (list_to_map kv.2 : gmap string Q))) table))
         key c
  /\ category_weight
       (list_to_map (map (fun kv => (kv.1, (list_to_map kv.2 : gmap string Q))) table))
       key c <= 2.
Proof.
  intros Htable. unfold category_weight.
  apply (default_lookup_list_to_map
           (fun inner : gmap string Q =>
              1 <= default 1 (inner !! c) /\ default 1 (inner !! c) <= 2)).
  - apply Forall_forall. intros [k inner] Hin. cbn [snd].
    apply list_elem_of_In, in_map_iff in Hin. destruct Hin as [[k' l] [E Hl]].
    cbn [fst snd] in E. injection E as _ <-.
    apply list_elem_of_In in Hl. rewrite Forall_forall in Htable.
    specialize (Htable _ Hl). cbn [snd] in Htable.
    apply (default_lookup_list_to_map (fun x => 1 <= x /\ x <= 2)); [exact Htable | lra].
  - rewrite lookup_empty. cbn. lra.
Qed.

Lemma horizon_weights_range (key c : string) :
  1 <= category_weight horizon_weights key c /\ category_weight horizon_weights key c <= 2.
Proof.
  apply (category_weight_range
           [("short", [("BND", 2.0); ("DIV", 1.5); ("LV", 1.2)]);
            ("medium", [("DIV", 1.5); ("LV", 1.2); ("LC", 1.2)]);
            ("long", [("GRO", 1.5); ("LC", 1.2); ("SC", 1.2)])]%string).
  repeat constructor; cbn; lra.
Qed.

Lemma income_weights_range (key c : string) :
  1 <= category_weight income_weights key c /\ category_weight income_weights key c <= 2.
Proof.
  apply (category_weight_range
           [("low", [("GRO", 1.5); ("LC", 1.2)]);
            ("medium", [("DIV", 1.2); ("CC", 1.2)]);
            ("high", [("DIV", 2.0); ("CC", 1.8); ("BND", 1.5)])]%string).
  repeat constructor; cbn; lra.
Qed.

Lemma focus_weights_range (key c : string) :
  1 <= category_weight focus_weights key c /\ category_weight focus_weights key c <= 2.
Proof.
  apply (category_weight_range
           [("dividend", [("DIV", 2.0); ("CC", 1.8); ("RE", 1.3)]);
            ("growth", [("GRO", 2.0); ("LC", 1.5)]);
            ("balanced", [("DIV", 1.3); ("LC", 1.3); ("BND", 1.3)])]%string).
  repeat constructor; cbn; lra.
Qed.

Lemma max_risk_of_range (investor_profile : profile) :
  4 <= max_risk_of investor_profile /\ max_risk_of investor_profile <= 10.
Proof.
  unfold max_risk_of, risk_limits.
  apply (default_lookup_list_to_map (fun x => 4 <= x /\ x <= 10));
    [repeat constructor; cbn; lra | lra].
Qed.

Lemma Qmult_range (x y X Y : Q) :
  0 <= x -> x <= X -> 0 <= y -> y <= Y -> 0 <= x * y /\ x * y <= X * Y.
Proof.
  intros Hx HX Hy HY. split; [apply Qmult_le_0_compat; assumption|].
  apply Qle_trans with (X * y).
  - apply Qmult_le_compat_r; assumption.
  - rewrite (Qmult_comm X y), (Qmult_comm X Y). apply Qmult_le_compat_r; lra.
Qed.

Lemma inverse_score_range (d : Q) : 0 <= d -> 0 < 1 / (1 + d) /\ 1 / (1 + d) <= 1.
Proof.
  intros Hd. split.
  - apply Qlt_shift_div_l; lra.
  - apply Qle_shift_div_r; lra.
Qed.

(** X24.  For an asset with a risk level that is not negative and a
    dividend quality between 0 and 1, the score of [select_etfs_by_profile]
    lies between 0 and 8, whatever the profile and the target are.  It is
    positive exactly when the risk level is below 10 and below the point
    where the penalty for exceeding the risk limit of the profile uses up
    the base score (three times the level is less than ten plus twice the
    limit); every other asset scores 0. *)
Theorem final_score_range (investor_profile : profile) (target_value seed_money : Q)
    (e : etf) :
  0 <= risk_level e ->
  0 <= dividend_quality e -> dividend_quality e <= 1 ->
  0 <= final_score investor_profile target_value seed_money e
  /\ final_score investor_profile target_value seed_money e <= 8
  /\ (0 < final_score investor_profile target_value seed_money e
      <-> risk_level e < 10
          /\ 3 * risk_level e < 10 + 2 * max_risk_of investor_profile).
Proof.
  intros Hr Hq0 Hq1. unfold final_score. cbv zeta.
  fold (max_risk_of investor_profile).
  pose proof (max_risk_of_range investor_profile) as [M1 M2].
  set (mr := max_risk_of investor_profile) in *.
  set (rs := if Qltb mr (risk_level e)
             then if Qltb (1 - risk_level e / 10 - (risk_level e - mr) * 0.2) 0
                  then 0
                  else 1 - risk_level e / 10 - (risk_level e - mr) * 0.2
             else 1 - risk_level e / 10).
  assert (Hrs : 0 <= rs /\ rs <= 1
                /\ (0 < rs <-> risk_level e < 10 /\ 3 * risk_level e < 10 + 2 * mr)).
  { unfold rs. destruct (Qltb mr (risk_level e)) eqn:E1.
    - apply Qltb_true in E1.
      destruct (Qltb (1 - risk_level e / 10 - (risk_level e - mr) * 0.2) 0) eqn:E2.
      + apply Qltb_true in E2. split; [lra|]. split; [lra|].
        split; [lra|]. intros [_ H3].
        assert (risk_level e / 10 == risk_level e * 0.1) by field. lra.
      + apply Qltb_false in E2.
        assert (risk_level e / 10 == risk_level e * 0.1) by field.
        split; [lra|]. split; [lra|]. split; intros; [split|]; lra.
    - apply Qltb_false in E1.
      assert (risk_level e / 10 == risk_level e * 0.1) by field.
      split; [lra|]. split; [lra|]. split; intros; [split|]; lra. }
  destruct Hrs as (Rs0 & Rs1 & Rspos).
  pose proof (horizon_weights_range
                (default "medium"%string (investment_horizon investor_profile))
                (category e)) as [H1 H2].
  pose proof (income_weights_range
                (default "medium"%string (income_needs investor_profile))
                (category e)) as [I1 I2].
  pose proof (focus_weights_range
                (default "balanced"%string (investment_focus investor_profile))
                (category e)) as [F1 F2].
  set (hm := category_weight horizon_weights _ _) in *.
  set (im := category_weight income_weights _ _) in *.
  set (fm := category_weight focus_weights _ _) in *.
  set (ts := if is_dividend _ then _ else _).
  assert (Hts : 0 < ts /\ ts <= 1).
  { unfold ts. destruct (is_dividend _); apply inverse_score_range.
    - apply Qmult_le_0_compat; [apply Qabs_nonneg | lra].
    - apply Qmult_le_0_compat; [apply Qabs_nonneg | lra]. }
  destruct Hts as [T0 T1].
  set (df := if _ || _ then _ else _).
  assert (Hdf : 0.5 <= df /\ df <= 1) by (unfold df; destruct (_ || _); lra).
  destruct Hdf as [D0 D1].
  destruct (Qmult_range rs hm 1 2) as [A0 A1]; try lra.
  destruct (Qmult_range (rs * hm) im (1 * 2) 2) as [B0 B1]; try lra.
  destruct (Qmult_range (rs * hm * im) fm (1 * 2 * 2) 2) as [C0 C1]; try lra.
  destruct (Qmult_range (rs * hm * im * fm) ts (1 * 2 * 2 * 2) 1) as [E0 E1]; try lra.
  destruct (Qmult_range (rs * hm * im * fm * ts) df (1 * 2 * 2 * 2 * 1) 1) as [G0 G1];
    try lra.
  split; [exact G0|]. split; [lra|].
  rewrite <- Rspos. split.
  - intros Hpos. destruct (Qlt_le_dec 0 rs) as [Hp|Hn]; [exact Hp|].
    assert (Hz : rs == 0) by lra.
    assert (Hprod : rs * hm * im * fm * ts * df == 0) by (rewrite Hz; ring).
    lra.
  - intros Hp.
    repeat (apply Qmult_lt_0_compat; [|lra]). exact Hp.
Qed.

Lemma final_score_range_witness :
  0 <= final_score dividend_profile 50000 10000000 (sample_etf "A" "DIV" 0.06 0.15)
  /\ final_score dividend_profile 50000 10000000 (sample_etf "A" "DIV" 0.06 0.15) <= 8.
Proof.
  destruct (final_score_range dividend_profile 50000 10000000
              (sample_etf "A" "DIV" 0.06 0.15)) as (H0 & H8 & _).
  - cbn. lra.
  - cbn. lra.
  - cbn. lra.
  - split; [exact H0 | exact H8].
Defined.

(** ** The category totals of the pie chart *)

Lemma add_weight_keys (categories : list (string * Q)) (cat : string) (weight : Q)
    (x : string) :
  x ∈ (add_weight categories cat weight).*1 <-> x = cat \/ x ∈ categories.*1.
Proof.
  induction categories as [|[c v] rest IH]; cbn [add_weight].
  - cbn [fmap list_fmap fst]. rewrite list_elem_of_singleton.
    split; [intros ->; left; reflexivity | intros [->|Hx]; [reflexivity|]].
    inversion Hx.
  - destruct (String.eqb_spec c cat) as [->|Hne]; cbn [fmap list_fmap fst].
    + change (x ∈ cat :: rest.*1 <-> x = cat \/ x ∈ cat :: rest.*1).
      rewrite !elem_of_cons. tauto.
    + change (x ∈ c :: (add_weight rest cat weight).*1 <-> x = cat \/ x ∈ c :: rest.*1).
      rewrite !elem_of_cons, IH. tauto.
Qed.

Lemma add_weight_NoDup (categories : list (string * Q)) (cat : string) (weight : Q) :
  NoDup categories.*1 -> NoDup (add_weight categories cat weight).*1.
Proof.
  induction categories as [|[c v] rest IH]; cbn [add_weight]; intros Hnd.
  - cbn. apply NoDup_singleton.
  - destruct (String.eqb_spec c cat) as [->|Hne]; [exact Hnd|].
    change (NoDup (c :: (add_weight rest cat weight).*1)).
    change (NoDup (c :: rest.*1)) in Hnd.
    apply NoDup_cons in Hnd. destruct Hnd as [Hc Hrest].
    apply NoDup_cons. split; [|apply IH; exact Hrest].
    rewrite add_weight_keys. intros [->|Hin]; [congruence | contradiction].
Qed.

Lemma add_weight_sum (categories : list (string * Q)) (cat : string) (weight : Q) :
  Qsum (add_weight categories cat weight).*2 == Qsum categories.*2 + weight.
Proof.
  induction categories as [|[c v] rest IH]; cbn [add_weight].
  - cbn [fmap list_fmap snd]. rewrite Qsum_cons, !Qsum_nil. ring.
  - destruct (String.eqb c cat).
    + change (Qsum (v + weight :: rest.*2) == Qsum (v :: rest.*2) + weight).
      rewrite !Qsum_cons. ring.
    + change (Qsum (v :: (add_weight rest cat weight).*2)
              == Qsum (v :: rest.*2) + weight).
      rewrite !Qsum_cons, IH. ring.
Qed.

Lemma add_weight_values (categories : list (string * Q)) (cat : string) (weight : Q)
    (total total' : string -> Q) :
  NoDup categories.*1 ->
  (forall k, k <> cat -> total' k == total k) ->
  total' cat == total cat + weight ->
  (cat ∉ categories.*1 -> total cat == 0) ->
  Forall (fun cv => cv.2 == total cv.1) categories ->
  Forall (fun cv => cv.2 == total' cv.1) (add_weight categories cat weight).
Proof.
  intros Hnd Hother Hcat. induction categories as [|[c v] rest IH]; cbn [add_weight];
    intros Hnew Hall.
  - constructor; [|constructor]. cbn [fst snd].
    rewrite Hcat, Hnew; [ring|]. intros Hin. inversion Hin.
  - change (NoDup (c :: rest.*1)) in Hnd.
    apply NoDup_cons in Hnd. destruct Hnd as [Hc Hrest].
    inversion Hall as [|? ? Hv Hall']; subst. cbn [fst snd] in Hv.
    destruct (String.eqb_spec c cat) as [->|Hne].
    + constructor; [cbn [fst snd]; rewrite Hcat, Hv; reflexivity|].
      apply Forall_forall. intros [k x] Hin. cbn [fst snd].
      rewrite Forall_forall in Hall'. rewrite (Hall' _ Hin). cbn [fst snd].
      symmetry. apply Hother. intros ->. apply Hc.
      apply list_elem_of_fmap. exists (cat, x). split; [reflexivity | exact Hin].
    + constructor; [cbn [fst snd]; rewrite Hv; symmetry; apply Hother; exact Hne|].
      apply IH; [exact Hrest | | exact Hall'].
      intros Hnot. apply Hnew.
      change (cat ∉ c :: rest.*1). rewrite not_elem_of_cons. split; [congruence | exact Hnot].
Qed.

Lemma category_weight_of_snoc (portfolio : list holding) (p : holding) (c : string) :
  category_weight_of (portfolio ++ [p]) c
  == category_weight_of portfolio c + (if decide (p_category p = c) then p_weight p else 0).
Proof.
  unfold category_weight_of. rewrite filter_app, fmap_app, Qsum_app.
  rewrite filter_cons, filter_nil.
  destruct (decide (p_category p = c)); cbn [fmap list_fmap].
  - rewrite Qsum_cons, Qsum_nil. ring.
  - rewrite Qsum_nil. ring.
Qed.

Lemma category_weight_of_absent (portfolio : list holding) (c : string) :
  c ∉ p_category <$> portfolio -> category_weight_of portfolio c == 0.
Proof.
  intros Hnot. unfold category_weight_of.
  induction portfolio as [|p portfolio IH]; [reflexivity|].
  change (c ∉ p_category p :: (p_category <$> portfolio)) in Hnot.
  apply not_elem_of_cons in Hnot. destruct Hnot as [Hne Hnot].
  rewrite filter_cons. destruct (decide (p_category p = c)); [congruence|].
  apply IH. exact Hnot.
Qed.

Lemma portfolio_categories_snoc (portfolio : list holding) (p : holding) :
  portfolio_categories (portfolio ++ [p])
  = add_weight (portfolio_categories portfolio) (p_category p) (p_weight p).
Proof. unfold portfolio_categories. rewrite fold_left_app. reflexivity. Qed.

(** X25.  The dictionary of categories that the pie chart of categories
    shows has one entry for each category of the portfolio and no other;
    the value of an entry is the sum of the weights of the holdings of that
    category, and the values add up to the sum of all weights. *)
Theorem portfolio_categories_totals (portfolio : list holding) :
  NoDup (portfolio_categories portfolio).*1
  /\ (forall c, c ∈ (portfolio_categories portfolio).*1 <-> c ∈ p_category <$> portfolio)
  /\ Forall (fun cv => cv.2 == category_weight_of portfolio cv.1)
       (portfolio_categories portfolio)
  /\ Qsum (portfolio_categories portfolio).*2 == Qsum (p_weight <$> portfolio).
Proof.
  induction portfolio as [|p portfolio IH] using rev_ind.
  - split; [apply NoDup_nil; exact I|]. split; [reflexivity|].
    split; [constructor | reflexivity].
  - destruct IH as (Hnd & Hkeys & Hvals & Hsum).
    rewrite portfolio_categories_snoc.
    split; [apply add_weight_NoDup; exact Hnd|]. split; [|split].
    + intros c. rewrite add_weight_keys, Hkeys, fmap_app, elem_of_app.
      cbn [fmap list_fmap]. rewrite list_elem_of_singleton. tauto.
    + apply (add_weight_values _ _ _ (category_weight_of portfolio)
               (category_weight_of (portfolio ++ [p]))); [exact Hnd | | | | exact Hvals].
      * intros k Hk. rewrite category_weight_of_snoc.
        destruct (decide (p_category p = k)); [congruence | ring].
      * rewrite category_weight_of_snoc.
        destruct (decide (p_category p = p_category p)); [reflexivity | congruence].
      * intros Hnot. apply category_weight_of_absent. rewrite <- Hkeys. exact Hnot.
    + rewrite add_weight_sum, Hsum, fmap_app, Qsum_app. cbn [fmap list_fmap].
      rewrite Qsum_cons, Qsum_nil. ring.
Qed.
